(** * drmdecrypt: the AES-NI cipher engine, the transport-stream packet
      codec, the stream synchroniser and the batch driver

    A shallow embedding of [AESNI.c] and [drmdecrypt.c].  C functions that
    write through pointers become functions returning the new contents;
    an access outside an array, or through a null pointer, is a [Fault]. *)

From Stdlib Require Import ZArith List Lia Btauto Bool.
From Stdlib Require Import Init.Byte Strings.Byte Strings.String Strings.Ascii.
From stdpp Require Import base list gmap strings.

Local Open Scope Z_scope.

(** ** Results of C code: a value, or undefined behaviour *)

Inductive fault : Type :=
| OutOfBounds   (* an array is read or written outside its extent *)
| NullPointer   (* a null pointer is dereferenced *)
| OutOfFuel.    (* a loop of the model was cut off; see [decryptsrf] *)

Inductive res (A : Type) : Type :=
| Ok (a : A)
| Fault (f : fault).
Arguments Ok {A} a.
Arguments Fault {A} f.

#[global] Instance res_ret : MRet res := @Ok.
#[global] Instance res_bind : MBind res :=
  fun A B f m => match m with Ok a => f a | Fault e => Fault e end.

Definition is_ok {A} (r : res A) : bool :=
  match r with Ok _ => true | Fault _ => false end.

(** ** Arrays and pointers

    An array is a list; a pointer into it is an index.  [load a i] is
    [a[i]] and [store a i x] is [a[i] = x]. *)

Definition load {A} (a : list A) (i : Z) : res A :=
  if i <? 0 then Fault OutOfBounds
  else match a !! Z.to_nat i with
       | Some x => Ok x
       | None => Fault OutOfBounds
       end.

Definition store {A} (a : list A) (i : Z) (x : A) : res (list A) :=
  if (0 <=? i) && (i <? Z.of_nat (length a))
  then Ok (<[Z.to_nat i := x]> a)
  else Fault OutOfBounds.

(** [n] consecutive elements at [a + off], read or overwritten at once
    ([memcpy], unaligned vector loads and stores). *)
Definition load_bytes {A} (a : list A) (off : Z) (n : nat) : res (list A) :=
  if (0 <=? off) && (off + Z.of_nat n <=? Z.of_nat (length a))
  then Ok (take n (drop (Z.to_nat off) a))
  else Fault OutOfBounds.

Definition store_bytes {A} (a : list A) (off : Z) (bs : list A) : res (list A) :=
  if (0 <=? off) && (off + Z.of_nat (length bs) <=? Z.of_nat (length a))
  then Ok (take (Z.to_nat off) a ++ bs ++ drop (Z.to_nat off + length bs) a)
  else Fault OutOfBounds.

(** A pointer that may be null. *)
Definition deref {A} (p : option A) : res A :=
  match p with Some a => Ok a | None => Fault NullPointer end.

(** [for (i = lo; i < hi; i += step) body]: the body runs for
    [i = lo, lo + step, ...] while [i < hi], that is
    [ceil ((hi - lo) / step)] times, and not at all when [hi <= lo]. *)
Fixpoint for_iter {S} (n : nat) (i step : Z) (body : Z -> S -> res S) (s : S)
  : res S :=
  match n with
  | O => Ok s
  | Datatypes.S n' => s' ← body i s; for_iter n' (i + step) step body s'
  end.

Definition for_loop {S} (lo hi step : Z) (body : Z -> S -> res S) (s : S)
  : res S :=
  for_iter (Z.to_nat ((hi - lo + step - 1) / step)) lo step body s.

(** ** Bytes ([unsigned char], [u8]) *)

Definition byte_val (b : byte) : Z := Z.of_N (Byte.to_N b).

(** [(unsigned char) z]: conversion keeps the low eight bits. *)
Definition byte_of_Z (z : Z) : byte :=
  match Byte.of_N (Z.to_N (z mod 256)) with
  | Some b => b
  | None => x00
  end.

Definition bxor (a b : byte) : byte :=
  let '(a0, (a1, (a2, (a3, (a4, (a5, (a6, a7))))))) := Byte.to_bits a in
  let '(c0, (c1, (c2, (c3, (c4, (c5, (c6, c7))))))) := Byte.to_bits b in
  Byte.of_bits (xorb a0 c0, (xorb a1 c1, (xorb a2 c2, (xorb a3 c3,
               (xorb a4 c4, (xorb a5 c5, (xorb a6 c6, xorb a7 c7))))))).

(** Doubling in GF(2^8) modulo x^8 + x^4 + x^3 + x + 1: shift left by one
    bit and, when bit 7 falls out, add 0x1b. *)
Definition xtime (a : byte) : byte :=
  let '(a0, (a1, (a2, (a3, (a4, (a5, (a6, a7))))))) := Byte.to_bits a in
  Byte.of_bits (a7, (xorb a0 a7, (a1, (xorb a2 a7,
               (xorb a3 a7, (a4, (a5, a6))))))).

(** ** The AES-NI instructions

    [__m128i] is a vector of four 32-bit lanes, lane 0 the least significant;
    each lane holds four bytes, byte 0 the least significant.  In memory the
    sixteen bytes lie in this order.  As an AES state, lane [c] is column [c]
    and byte [r] of a lane is row [r].  The intrinsics below are the
    instructions of the processor, written after their architectural
    definition (PXOR, PSLLDQ, PSHUFD, SHUFPD, AESKEYGENASSIST, AESIMC,
    AESENC, AESENCLAST, AESDEC, AESDECLAST). *)

Module AESNI.

Record dword : Type := DW { byte0 : byte; byte1 : byte; byte2 : byte; byte3 : byte }.

Record m128i : Type := M128 { lane0 : dword; lane1 : dword; lane2 : dword; lane3 : dword }.

Definition dword_bytes (w : dword) : list byte :=
  [byte0 w; byte1 w; byte2 w; byte3 w].

Definition m128i_bytes (m : m128i) : list byte :=
  dword_bytes (lane0 m) ++ dword_bytes (lane1 m) ++
  dword_bytes (lane2 m) ++ dword_bytes (lane3 m).

Definition m128i_of_bytes (l : list byte) : m128i :=
  let b (i : nat) := nth i l x00 in
  M128 (DW (b 0%nat) (b 1%nat) (b 2%nat) (b 3%nat))
       (DW (b 4%nat) (b 5%nat) (b 6%nat) (b 7%nat))
       (DW (b 8%nat) (b 9%nat) (b 10%nat) (b 11%nat))
       (DW (b 12%nat) (b 13%nat) (b 14%nat) (b 15%nat)).

Definition lane (a : m128i) (i : Z) : dword :=
  match i with
  | 0 => lane0 a
  | 1 => lane1 a
  | 2 => lane2 a
  | _ => lane3 a
  end.

Definition dword_xor (a b : dword) : dword :=
  DW (bxor (byte0 a) (byte0 b)) (bxor (byte1 a) (byte1 b))
     (bxor (byte2 a) (byte2 b)) (bxor (byte3 a) (byte3 b)).

Definition dword_map (f : byte -> byte) (a : dword) : dword :=
  DW (f (byte0 a)) (f (byte1 a)) (f (byte2 a)) (f (byte3 a)).

Definition m128i_map (f : dword -> dword) (a : m128i) : m128i :=
  M128 (f (lane0 a)) (f (lane1 a)) (f (lane2 a)) (f (lane3 a)).

Definition _mm_loadu_si128 (p : list byte) (off : Z) : res m128i :=
  l ← load_bytes p off 16; Ok (m128i_of_bytes l).

Definition _mm_storeu_si128 (p : list byte) (off : Z) (m : m128i)
  : res (list byte) :=
  store_bytes p off (m128i_bytes m).

Definition _mm_xor_si128 (a b : m128i) : m128i :=
  M128 (dword_xor (lane0 a) (lane0 b)) (dword_xor (lane1 a) (lane1 b))
       (dword_xor (lane2 a) (lane2 b)) (dword_xor (lane3 a) (lane3 b)).

(** Shift left by [imm8] bytes, shifting in zeros. *)
Definition _mm_slli_si128 (a : m128i) (imm8 : Z) : m128i :=
  m128i_of_bytes (take 16 (replicate (Z.to_nat imm8) x00 ++ m128i_bytes a)).

(** Lane [j] of the result is the lane of [a] selected by bits
    [2j+1 .. 2j] of [imm8]. *)
Definition _mm_shuffle_epi32 (a : m128i) (imm8 : Z) : m128i :=
  M128 (lane a (Z.land imm8 3))
       (lane a (Z.land (Z.shiftr imm8 2) 3))
       (lane a (Z.land (Z.shiftr imm8 4) 3))
       (lane a (Z.land (Z.shiftr imm8 6) 3)).

(** The same sixteen bytes seen as two doubles. *)
Definition m128d : Type := m128i.
Definition _mm_castsi128_pd (a : m128i) : m128d := a.
Definition _mm_castpd_si128 (a : m128d) : m128i := a.

(** The low double of the result is a double of [a], the high one a double
    of [b]; bit 0 of [imm8] selects in [a], bit 1 in [b]. *)
Definition _mm_shuffle_pd (a b : m128d) (imm8 : Z) : m128d :=
  let s := 2 * Z.land imm8 1 in
  let t := 2 * Z.land (Z.shiftr imm8 1) 1 in
  M128 (lane a s) (lane a (s + 1)) (lane b t) (lane b (t + 1)).

(** The substitution box and its inverse. *)
Definition sbox : list byte :=
  [
   x63; x7c; x77; x7b; xf2; x6b; x6f; xc5; x30; x01; x67; x2b; xfe; xd7; xab; x76;
   xca; x82; xc9; x7d; xfa; x59; x47; xf0; xad; xd4; xa2; xaf; x9c; xa4; x72; xc0;
   xb7; xfd; x93; x26; x36; x3f; xf7; xcc; x34; xa5; xe5; xf1; x71; xd8; x31; x15;
   x04; xc7; x23; xc3; x18; x96; x05; x9a; x07; x12; x80; xe2; xeb; x27; xb2; x75;
   x09; x83; x2c; x1a; x1b; x6e; x5a; xa0; x52; x3b; xd6; xb3; x29; xe3; x2f; x84;
   x53; xd1; x00; xed; x20; xfc; xb1; x5b; x6a; xcb; xbe; x39; x4a; x4c; x58; xcf;
   xd0; xef; xaa; xfb; x43; x4d; x33; x85; x45; xf9; x02; x7f; x50; x3c; x9f; xa8;
   x51; xa3; x40; x8f; x92; x9d; x38; xf5; xbc; xb6; xda; x21; x10; xff; xf3; xd2;
   xcd; x0c; x13; xec; x5f; x97; x44; x17; xc4; xa7; x7e; x3d; x64; x5d; x19; x73;
   x60; x81; x4f; xdc; x22; x2a; x90; x88; x46; xee; xb8; x14; xde; x5e; x0b; xdb;
   xe0; x32; x3a; x0a; x49; x06; x24; x5c; xc2; xd3; xac; x62; x91; x95; xe4; x79;
   xe7; xc8; x37; x6d; x8d; xd5; x4e; xa9; x6c; x56; xf4; xea; x65; x7a; xae; x08;
   xba; x78; x25; x2e; x1c; xa6; xb4; xc6; xe8; xdd; x74; x1f; x4b; xbd; x8b; x8a;
   x70; x3e; xb5; x66; x48; x03; xf6; x0e; x61; x35; x57; xb9; x86; xc1; x1d; x9e;
   xe1; xf8; x98; x11; x69; xd9; x8e; x94; x9b; x1e; x87; xe9; xce; x55; x28; xdf;
   x8c; xa1; x89; x0d; xbf; xe6; x42; x68; x41; x99; x2d; x0f; xb0; x54; xbb; x16
  ].

Definition inv_sbox : list byte :=
  [
   x52; x09; x6a; xd5; x30; x36; xa5; x38; xbf; x40; xa3; x9e; x81; xf3; xd7; xfb;
   x7c; xe3; x39; x82; x9b; x2f; xff; x87; x34; x8e; x43; x44; xc4; xde; xe9; xcb;
   x54; x7b; x94; x32; xa6; xc2; x23; x3d; xee; x4c; x95; x0b; x42; xfa; xc3; x4e;
   x08; x2e; xa1; x66; x28; xd9; x24; xb2; x76; x5b; xa2; x49; x6d; x8b; xd1; x25;
   x72; xf8; xf6; x64; x86; x68; x98; x16; xd4; xa4; x5c; xcc; x5d; x65; xb6; x92;
   x6c; x70; x48; x50; xfd; xed; xb9; xda; x5e; x15; x46; x57; xa7; x8d; x9d; x84;
   x90; xd8; xab; x00; x8c; xbc; xd3; x0a; xf7; xe4; x58; x05; xb8; xb3; x45; x06;
   xd0; x2c; x1e; x8f; xca; x3f; x0f; x02; xc1; xaf; xbd; x03; x01; x13; x8a; x6b;
   x3a; x91; x11; x41; x4f; x67; xdc; xea; x97; xf2; xcf; xce; xf0; xb4; xe6; x73;
   x96; xac; x74; x22; xe7; xad; x35; x85; xe2; xf9; x37; xe8; x1c; x75; xdf; x6e;
   x47; xf1; x1a; x71; x1d; x29; xc5; x89; x6f; xb7; x62; x0e; xaa; x18; xbe; x1b;
   xfc; x56; x3e; x4b; xc6; xd2; x79; x20; x9a; xdb; xc0; xfe; x78; xcd; x5a; xf4;
   x1f; xdd; xa8; x33; x88; x07; xc7; x31; xb1; x12; x10; x59; x27; x80; xec; x5f;
   x60; x51; x7f; xa9; x19; xb5; x4a; x0d; x2d; xe5; x7a; x9f; x93; xc9; x9c; xef;
   xa0; xe0; x3b; x4d; xae; x2a; xf5; xb0; xc8; xeb; xbb; x3c; x83; x53; x99; x61;
   x17; x2b; x04; x7e; xba; x77; xd6; x26; xe1; x69; x14; x63; x55; x21; x0c; x7d
  ].

Definition SubByte (b : byte) : byte := nth (Byte.to_nat b) sbox x00.
Definition InvSubByte (b : byte) : byte := nth (Byte.to_nat b) inv_sbox x00.

Definition SubWord (w : dword) : dword := dword_map SubByte w.

(** Rotation of a 32-bit word right by eight bits. *)
Definition RotWord (w : dword) : dword :=
  DW (byte1 w) (byte2 w) (byte3 w) (byte0 w).

Definition SubBytes (a : m128i) : m128i := m128i_map (dword_map SubByte) a.
Definition InvSubBytes (a : m128i) : m128i := m128i_map (dword_map InvSubByte) a.

(** Row [r] is rotated left by [r] columns. *)
Definition ShiftRows (a : m128i) : m128i :=
  M128 (DW (byte0 (lane0 a)) (byte1 (lane1 a)) (byte2 (lane2 a)) (byte3 (lane3 a)))
       (DW (byte0 (lane1 a)) (byte1 (lane2 a)) (byte2 (lane3 a)) (byte3 (lane0 a)))
       (DW (byte0 (lane2 a)) (byte1 (lane3 a)) (byte2 (lane0 a)) (byte3 (lane1 a)))
       (DW (byte0 (lane3 a)) (byte1 (lane0 a)) (byte2 (lane1 a)) (byte3 (lane2 a))).

(** Row [r] is rotated right by [r] columns. *)
Definition InvShiftRows (a : m128i) : m128i :=
  M128 (DW (byte0 (lane0 a)) (byte1 (lane3 a)) (byte2 (lane2 a)) (byte3 (lane1 a)))
       (DW (byte0 (lane1 a)) (byte1 (lane0 a)) (byte2 (lane3 a)) (byte3 (lane2 a)))
       (DW (byte0 (lane2 a)) (byte1 (lane1 a)) (byte2 (lane0 a)) (byte3 (lane3 a)))
       (DW (byte0 (lane3 a)) (byte1 (lane2 a)) (byte2 (lane1 a)) (byte3 (lane0 a))).

(** Multiplication in GF(2^8) by the constants of the two column
    transforms. *)
Definition mul2 (a : byte) : byte := xtime a.
Definition mul3 (a : byte) : byte := bxor (xtime a) a.
Definition mul9 (a : byte) : byte := bxor (xtime (xtime (xtime a))) a.
Definition mul11 (a : byte) : byte :=
  bxor (bxor (xtime (xtime (xtime a))) (xtime a)) a.
Definition mul13 (a : byte) : byte :=
  bxor (bxor (xtime (xtime (xtime a))) (xtime (xtime a))) a.
Definition mul14 (a : byte) : byte :=
  bxor (bxor (xtime (xtime (xtime a))) (xtime (xtime a))) (xtime a).

Definition bxor4 (a b c d : byte) : byte := bxor (bxor (bxor a b) c) d.

Definition MixColumn (w : dword) : dword :=
  let '(DW a0 a1 a2 a3) := w in
  DW (bxor4 (mul2 a0) (mul3 a1) a2 a3)
     (bxor4 a0 (mul2 a1) (mul3 a2) a3)
     (bxor4 a0 a1 (mul2 a2) (mul3 a3))
     (bxor4 (mul3 a0) a1 a2 (mul2 a3)).

Definition InvMixColumn (w : dword) : dword :=
  let '(DW a0 a1 a2 a3) := w in
  DW (bxor4 (mul14 a0) (mul11 a1) (mul13 a2) (mul9 a3))
     (bxor4 (mul9 a0) (mul14 a1) (mul11 a2) (mul13 a3))
     (bxor4 (mul13 a0) (mul9 a1) (mul14 a2) (mul11 a3))
     (bxor4 (mul11 a0) (mul13 a1) (mul9 a2) (mul14 a3)).

Definition MixColumns (a : m128i) : m128i := m128i_map MixColumn a.
Definition InvMixColumns (a : m128i) : m128i := m128i_map InvMixColumn a.

Definition _mm_aesenc_si128 (a rk : m128i) : m128i :=
  _mm_xor_si128 (MixColumns (SubBytes (ShiftRows a))) rk.

Definition _mm_aesenclast_si128 (a rk : m128i) : m128i :=
  _mm_xor_si128 (SubBytes (ShiftRows a)) rk.

Definition _mm_aesdec_si128 (a rk : m128i) : m128i :=
  _mm_xor_si128 (InvMixColumns (InvSubBytes (InvShiftRows a))) rk.

Definition _mm_aesdeclast_si128 (a rk : m128i) : m128i :=
  _mm_xor_si128 (InvSubBytes (InvShiftRows a)) rk.

Definition _mm_aesimc_si128 (a : m128i) : m128i := InvMixColumns a.

(** With X1 and X3 lanes 1 and 3 of [a] and RCON the zero-extended [imm8]:
    lane 0 is SubWord(X1), lane 1 RotWord(SubWord(X1)) xor RCON,
    lane 2 SubWord(X3), lane 3 RotWord(SubWord(X3)) xor RCON. *)
Definition xor_rcon (w : dword) (imm8 : byte) : dword :=
  DW (bxor (byte0 w) imm8) (byte1 w) (byte2 w) (byte3 w).

Definition _mm_aeskeygenassist_si128 (a : m128i) (imm8 : byte) : m128i :=
  M128 (SubWord (lane1 a)) (xor_rcon (RotWord (SubWord (lane1 a))) imm8)
       (SubWord (lane3 a)) (xor_rcon (RotWord (SubWord (lane3 a))) imm8).

(** ** AESNI.c *)

Record block_state : Type := {
  ek : option (list m128i);   (* null until allocated *)
  dk : option (list m128i);
  rounds : Z
}.

(** Helper functions to expand keys *)

Definition aes128_keyexpand (key : m128i) : m128i :=
  let key := _mm_xor_si128 key (_mm_slli_si128 key 4) in
  let key := _mm_xor_si128 key (_mm_slli_si128 key 4) in
  _mm_xor_si128 key (_mm_slli_si128 key 4).

Definition aes192_keyexpand_2 (key key2 : m128i) : m128i :=
  let key := _mm_shuffle_epi32 key 0xff in
  let key2 := _mm_xor_si128 key2 (_mm_slli_si128 key2 4) in
  _mm_xor_si128 key key2.

Definition KEYEXP128_H (K1 K2 : m128i) (Imm : byte) (Sh : Z) : m128i :=
  _mm_xor_si128 (aes128_keyexpand K1)
                (_mm_shuffle_epi32 (_mm_aeskeygenassist_si128 K2 Imm) Sh).

Definition KEYEXP128 (K : m128i) (Imm : byte) : m128i := KEYEXP128_H K K Imm 0xff.
Definition KEYEXP192 (K1 K2 : m128i) (Imm : byte) : m128i := KEYEXP128_H K1 K2 Imm 0x55.
Definition KEYEXP192_2 (K1 K2 : m128i) : m128i := aes192_keyexpand_2 K1 K2.
Definition KEYEXP256 (K1 K2 : m128i) (Imm : byte) : m128i := KEYEXP128_H K1 K2 Imm 0xff.
Definition KEYEXP256_2 (K1 K2 : m128i) : m128i := KEYEXP128_H K1 K2 x00 0xaa.

(** [_mm_castpd_si128(_mm_shuffle_pd(_mm_castsi128_pd(a), _mm_castsi128_pd(b), imm))] *)
Definition shuffle_pd_si128 (a b : m128i) (imm8 : Z) : m128i :=
  _mm_castpd_si128 (_mm_shuffle_pd (_mm_castsi128_pd a) (_mm_castsi128_pd b) imm8).

(** [rk[dst] = f(rk[src])] and [rk[dst] = f(rk[s1], rk[s2])] *)
Definition assign1 (rk : list m128i) (dst : Z) (f : m128i -> m128i) (src : Z)
  : res (list m128i) :=
  a ← load rk src; store rk dst (f a).

Definition assign2 (rk : list m128i) (dst : Z) (f : m128i -> m128i -> m128i)
    (s1 s2 : Z) : res (list m128i) :=
  a ← load rk s1; b ← load rk s2; store rk dst (f a b).

(** [rk[dst] = _mm_loadu_si128((const __m128i* ) (cipherKey + off))] *)
Definition assign_key (rk : list m128i) (dst : Z) (cipherKey : list byte) (off : Z)
  : res (list m128i) :=
  k ← _mm_loadu_si128 cipherKey off; store rk dst k.

(** Encryption key setup.  [cipherKey] is the memory at the key pointer. *)
Definition aes_key_setup_enc (rk : list m128i) (cipherKey : list byte) (keylen : Z)
  : res (list m128i) :=
  match keylen with
  | 16 =>
      (* 128 bit key setup *)
      rk ← assign_key rk 0 cipherKey 0;
      rk ← assign1 rk 1 (fun k => KEYEXP128 k x01) 0;
      rk ← assign1 rk 2 (fun k => KEYEXP128 k x02) 1;
      rk ← assign1 rk 3 (fun k => KEYEXP128 k x04) 2;
      rk ← assign1 rk 4 (fun k => KEYEXP128 k x08) 3;
      rk ← assign1 rk 5 (fun k => KEYEXP128 k x10) 4;
      rk ← assign1 rk 6 (fun k => KEYEXP128 k x20) 5;
      rk ← assign1 rk 7 (fun k => KEYEXP128 k x40) 6;
      rk ← assign1 rk 8 (fun k => KEYEXP128 k x80) 7;
      rk ← assign1 rk 9 (fun k => KEYEXP128 k x1b) 8;
      assign1 rk 10 (fun k => KEYEXP128 k x36) 9
  | 24 =>
      (* 192 bit key setup *)
      rk ← assign_key rk 0 cipherKey 0;
      rk ← assign_key rk 1 cipherKey 16;
      temp0 ← (a ← load rk 0; b ← load rk 1; Ok (KEYEXP192 a b x01));
      temp1 ← (b ← load rk 1; Ok (KEYEXP192_2 temp0 b));
      rk ← assign1 rk 1 (fun a => shuffle_pd_si128 a temp0 0) 1;
      rk ← store rk 2 (shuffle_pd_si128 temp0 temp1 1);
      rk ← store rk 3 (KEYEXP192 temp0 temp1 x02);
      rk ← assign1 rk 4 (fun a => KEYEXP192_2 a temp1) 3;
      temp0 ← (a ← load rk 3; b ← load rk 4; Ok (KEYEXP192 a b x04));
      temp1 ← (b ← load rk 4; Ok (KEYEXP192_2 temp0 b));
      rk ← assign1 rk 4 (fun a => shuffle_pd_si128 a temp0 0) 4;
      rk ← store rk 5 (shuffle_pd_si128 temp0 temp1 1);
      rk ← store rk 6 (KEYEXP192 temp0 temp1 x08);
      rk ← assign1 rk 7 (fun a => KEYEXP192_2 a temp1) 6;
      temp0 ← (a ← load rk 6; b ← load rk 7; Ok (KEYEXP192 a b x10));
      temp1 ← (b ← load rk 7; Ok (KEYEXP192_2 temp0 b));
      rk ← assign1 rk 7 (fun a => shuffle_pd_si128 a temp0 0) 7;
      rk ← store rk 8 (shuffle_pd_si128 temp0 temp1 1);
      rk ← store rk 9 (KEYEXP192 temp0 temp1 x20);
      rk ← assign1 rk 10 (fun a => KEYEXP192_2 a temp1) 9;
      temp0 ← (a ← load rk 9; b ← load rk 10; Ok (KEYEXP192 a b x40));
      temp1 ← (b ← load rk 10; Ok (KEYEXP192_2 temp0 b));
      rk ← assign1 rk 10 (fun a => shuffle_pd_si128 a temp0 0) 10;
      rk ← store rk 11 (shuffle_pd_si128 temp0 temp1 1);
      store rk 12 (KEYEXP192 temp0 temp1 x80)
  | 32 =>
      (* 256 bit key setup *)
      rk ← assign_key rk 0 cipherKey 0;
      rk ← assign_key rk 1 cipherKey 16;
      rk ← assign2 rk 2 (fun a b => KEYEXP256 a b x01) 0 1;
      rk ← assign2 rk 3 KEYEXP256_2 1 2;
      rk ← assign2 rk 4 (fun a b => KEYEXP256 a b x02) 2 3;
      rk ← assign2 rk 5 KEYEXP256_2 3 4;
      rk ← assign2 rk 6 (fun a b => KEYEXP256 a b x04) 4 5;
      rk ← assign2 rk 7 KEYEXP256_2 5 6;
      rk ← assign2 rk 8 (fun a b => KEYEXP256 a b x08) 6 7;
      rk ← assign2 rk 9 KEYEXP256_2 7 8;
      rk ← assign2 rk 10 (fun a b => KEYEXP256 a b x10) 8 9;
      rk ← assign2 rk 11 KEYEXP256_2 9 10;
      rk ← assign2 rk 12 (fun a b => KEYEXP256 a b x20) 10 11;
      rk ← assign2 rk 13 KEYEXP256_2 11 12;
      assign2 rk 14 (fun a b => KEYEXP256 a b x40) 12 13
  | _ => Ok rk
  end.

(** Decryption key setup *)
Definition aes_key_setup_dec (dk ek : list m128i) (rounds : Z) : res (list m128i) :=
  dk ← (a ← load ek 0; store dk rounds a);
  dk ← for_loop 1 rounds 1
         (fun i dk => a ← load ek i; store dk (rounds - i) (_mm_aesimc_si128 a)) dk;
  a ← load ek rounds; store dk 0 a.

(** The [switch] on [keylen]: the number of rounds, or the [default]
    case. *)
Definition key_rounds (keylen : Z) : option Z :=
  match keylen with
  | 16 => Some 10
  | 24 => Some 12
  | 32 => Some 14
  | _ => None
  end.

(** [tek] and [tdk] are what the two calls of [aligned_malloc_wrapper]
    return: [None] for a null pointer, otherwise the fresh array, whose
    content is unspecified.  The function returns nothing; the result is
    [*self] when it returns. *)
Definition block_init_aesni (self : block_state) (key : list byte) (keylen : Z)
    (tek tdk : option (list m128i)) : res block_state :=
  match key_rounds keylen with
  | None => Ok self
  | Some nr =>
      match tek, tdk with
      | Some tek, Some tdk =>
          ek' ← aes_key_setup_enc tek key keylen;
          dk' ← aes_key_setup_dec tdk ek' nr;
          Ok {| ek := Some ek'; dk := Some dk'; rounds := nr |}
      | _, _ => Ok self
      end
  end.

(** [in_] and [out] are the arrays the two pointers point into, [in_off]
    and [out_off] the positions; the result is the array written to. *)
Definition block_encrypt_aesni (self : block_state) (in_ : list byte) (in_off : Z)
    (out : list byte) (out_off : Z) : res (list byte) :=
  m ← _mm_loadu_si128 in_ in_off;
  ek ← deref (ek self);
  (* first 9 rounds *)
  m ← (k ← load ek 0; Ok (_mm_xor_si128 m k));
  m ← (k ← load ek 1; Ok (_mm_aesenc_si128 m k));
  m ← (k ← load ek 2; Ok (_mm_aesenc_si128 m k));
  m ← (k ← load ek 3; Ok (_mm_aesenc_si128 m k));
  m ← (k ← load ek 4; Ok (_mm_aesenc_si128 m k));
  m ← (k ← load ek 5; Ok (_mm_aesenc_si128 m k));
  m ← (k ← load ek 6; Ok (_mm_aesenc_si128 m k));
  m ← (k ← load ek 7; Ok (_mm_aesenc_si128 m k));
  m ← (k ← load ek 8; Ok (_mm_aesenc_si128 m k));
  m ← (k ← load ek 9; Ok (_mm_aesenc_si128 m k));
  m ← (if negb (rounds self =? 10) then
         (* two additional rounds for AES-192/256 *)
         m ← (k ← load ek 10; Ok (_mm_aesenc_si128 m k));
         m ← (k ← load ek 11; Ok (_mm_aesenc_si128 m k));
         if rounds self =? 14 then
           (* another two additional rounds for AES-256 *)
           m ← (k ← load ek 12; Ok (_mm_aesenc_si128 m k));
           k ← load ek 13; Ok (_mm_aesenc_si128 m k)
         else Ok m
       else Ok m);
  m ← (k ← load ek (rounds self); Ok (_mm_aesenclast_si128 m k));
  _mm_storeu_si128 out out_off m.

Definition block_decrypt_aesni (self : block_state) (in_ : list byte) (in_off : Z)
    (out : list byte) (out_off : Z) : res (list byte) :=
  m ← _mm_loadu_si128 in_ in_off;
  dk ← deref (dk self);
  (* first 9 rounds *)
  m ← (k ← load dk 0; Ok (_mm_xor_si128 m k));
  m ← (k ← load dk 1; Ok (_mm_aesdec_si128 m k));
  m ← (k ← load dk 2; Ok (_mm_aesdec_si128 m k));
  m ← (k ← load dk 3; Ok (_mm_aesdec_si128 m k));
  m ← (k ← load dk 4; Ok (_mm_aesdec_si128 m k));
  m ← (k ← load dk 5; Ok (_mm_aesdec_si128 m k));
  m ← (k ← load dk 6; Ok (_mm_aesdec_si128 m k));
  m ← (k ← load dk 7; Ok (_mm_aesdec_si128 m k));
  m ← (k ← load dk 8; Ok (_mm_aesdec_si128 m k));
  m ← (k ← load dk 9; Ok (_mm_aesdec_si128 m k));
  m ← (if negb (rounds self =? 10) then
         (* two additional rounds for AES-192/256 *)
         m ← (k ← load dk 10; Ok (_mm_aesdec_si128 m k));
         m ← (k ← load dk 11; Ok (_mm_aesdec_si128 m k));
         if rounds self =? 14 then
           (* another two additional rounds for AES-256 *)
           m ← (k ← load dk 12; Ok (_mm_aesdec_si128 m k));
           k ← load dk 13; Ok (_mm_aesdec_si128 m k)
         else Ok m
       else Ok m);
  m ← (k ← load dk (rounds self); Ok (_mm_aesdeclast_si128 m k));
  _mm_storeu_si128 out out_off m.

End AESNI.

Import AESNI.

(** ** drmdecrypt.c *)

(** Modelled from the spec: [PACKETSIZE] is declared in buffer.h and
    [BLOCK_SIZE] in aes.h, which are not among the sources; the spec fixes
    the transport-stream packet at 188 bytes and the cipher block at 16
    (AESNI.c defines the same [BLOCK_SIZE] for itself). *)
Definition PACKETSIZE : Z := 188.
Definition BLOCK_SIZE : Z := 16.

(** The portable cipher behind aes.h is not among the sources: its two
    entry points are taken as given. *)
Class PortableAES : Type := {
  block_init_aes : block_state -> list byte -> Z -> res block_state;
  block_decrypt_aes : block_state -> list byte -> Z -> list byte -> Z -> res (list byte)
}.

(** The allocator behind [aligned_malloc_wrapper]: [None] is a null pointer. *)
Class Allocator : Type := {
  aligned_malloc_wrapper : Z -> Z -> option (list m128i)
}.

(** [dirname] and [getopt] are of the C library.  [dirname] may change the
    string it is given: it returns the directory and what its argument
    holds afterwards. *)
Class PathLib : Type := {
  dirname : string -> string * string
}.

(** [struct packetbuffer], with the fields drmdecrypt.c uses.  The pointers
    are offsets from [startp] into [buf], the memory they point into; an
    open descriptor is modelled by what it stands for. *)
Record packetbuffer : Type := {
  fdread : option (list byte);    (* -1, or the bytes of the source not read yet *)
  fdwrite : option (list byte);   (* -1, or the bytes written to the destination *)
  buf : list byte;
  workp : Z;
  endp : Z;
  end_ : Z
}.

(** The buffered I/O layer behind buffer.h is not among the sources: its
    functions and the size of its buffer are taken as given.  The buffer
    holds at least two packets, or the bound of the scan,
    [BUFFERSIZE-PACKETSIZE-PACKETSIZE], would be negative. *)
Class BufferIO : Type := {
  BUFFERSIZE : Z;
  BUFFERSIZE_two_packets : 2 * PACKETSIZE <= BUFFERSIZE;
  pbinit : packetbuffer -> packetbuffer;
  pbread : packetbuffer -> packetbuffer;
  pbwrite : packetbuffer -> packetbuffer;
  pbfree : packetbuffer -> packetbuffer
}.

(** The global variables [state] and [enable_aesni]. *)
Record globals : Type := {
  state : block_state;
  enable_aesni : Z
}.

(** The file system.  A path names a file, and two paths may name the same
    one ([rec.ts] and [./rec.ts], a link): [canon] gives the name under
    which the file system keeps the file a path leads to.  Under these
    names, [files] holds the content of the files that can be opened for
    reading, and [unwritable] the files that cannot be opened for
    writing. *)
Record world : Type := {
  canon : string -> string;
  files : gmap string (list byte);
  unwritable : gset string
}.

Record FILE : Type := { content : list byte; pos : Z }.

Definition fopen_rb (w : world) (path : string) : option FILE :=
  c ← files w !! canon w path; Some {| content := c; pos := 0 |}.

Definition fseek_set (fp : FILE) (off : Z) : FILE :=
  {| content := content fp; pos := off |}.

(** [fread(p, 1, 1, fp)]: the next byte, or nothing at the end of the file. *)
Definition fread1 (fp : FILE) : option (byte * FILE) :=
  if pos fp <? 0 then None
  else b ← content fp !! Z.to_nat (pos fp);
       Some (b, {| content := content fp; pos := pos fp + 1 |}).

(** [open(path, O_WRONLY | O_CREAT | O_TRUNC, mode)]: the file is created
    empty, or cut to nothing. *)
Definition open_wronly_creat_trunc (w : world) (path : string) : option world :=
  if bool_decide (canon w path ∈ unwritable w) then None
  else Some {| canon := canon w;
               files := <[canon w path := []]> (files w);
               unwritable := unwritable w |}.

(** Check for AES-NI CPU support.  [c] is what the [cpuid] instruction,
    asked for leaf 1, leaves in ECX. *)
Definition Check_CPU_support_AES (c : Z) : Z := Z.land c 0x2000000.

Definition is_dot_or_slash (c : ascii) : bool :=
  (c =? ".")%char || (c =? "/")%char.

(** The position of the last ['.'] or ['/'] of a string. *)
Fixpoint last_dot_or_slash (s : string) : option nat :=
  match s with
  | EmptyString => None
  | String c s' =>
      match last_dot_or_slash s' with
      | Some k => Some (S k)
      | None => if is_dot_or_slash c then Some O else None
      end
  end.

(** [filename] walks back from the end of [path] to the last ['.'] or ['/']
    and writes the new suffix after it, or cuts the string there.  With no
    such character the walk leaves the string. *)
Definition filename (path : string) (newsuffix : option string) : res string :=
  match last_dot_or_slash path with
  | None => Fault OutOfBounds
  | Some k =>
      Ok match newsuffix with
         | Some suffix => String.append (substring 0 (S k) path) suffix
         | None => substring 0 k path
         end
  end.

(** [basename] of the C library: what follows the last ['/']. *)
Fixpoint basename (path : string) : string :=
  match path with
  | EmptyString => EmptyString
  | String c s' =>
      if existsb (Ascii.eqb "/") (list_ascii_of_string s') then basename s'
      else if (c =? "/")%char then s' else path
  end.

(** The loop of [readdrmkey] that fills [drmkey]; [None] is the short read. *)
Fixpoint read_key_bytes (n : nat) (j : Z) (mdbfp : FILE) (drmkey : list byte)
  : res (option (list byte)) :=
  match n with
  | O => Ok (Some drmkey)
  | S n' =>
      match fread1 mdbfp with
      | None => Ok None
      | Some (b, mdbfp') =>
          drmkey' ← store drmkey (Z.land j 0xc + (3 - Z.land j 3)) b;
          read_key_bytes n' (j + 1) mdbfp' drmkey'
      end
  end.

Section Drmdecrypt.
Context `{PortableAES} `{Allocator} `{BufferIO} `{PathLib}.

(** Calls of [trace] only print and are left out. *)
Definition readdrmkey (w : world) (g : globals) (mdbfile : string)
  : res (Z * globals) :=
  let drmkey := replicate 16 x00 in   (* every element is written before use *)
  let st := {| ek := None; dk := None; rounds := 10 |} in
  let g := {| state := st; enable_aesni := enable_aesni g |} in
  match fopen_rb w mdbfile with
  | Some mdbfp =>
      let mdbfp := fseek_set mdbfp 8 in
      r ← read_key_bytes 16 0 mdbfp drmkey;
      match r with
      | None => Ok (1, g)
      | Some drmkey =>
          st ← (if negb (enable_aesni g =? 0)
                then block_init_aesni st drmkey BLOCK_SIZE
                       (aligned_malloc_wrapper 16 ((10 + 1) * 16))
                       (aligned_malloc_wrapper 16 ((10 + 1) * 16))
                else block_init_aes st drmkey BLOCK_SIZE);
          Ok (0, {| state := st; enable_aesni := enable_aesni g |})
      end
  | None => Ok (1, g)
  end.

(** The characters [genoutfilename] copies from the .inf file. *)
Definition inf_name_char (i : Z) (c : byte) (tmpname : string) : string :=
  let v := byte_val c in
  let tmpname :=
    if v =? 0 then tmpname
    else if ((65 <=? v) && (v <=? 122)) || ((48 <=? v) && (v <=? 57))
         then String.append tmpname (String (ascii_of_byte c) EmptyString)
         else String.append tmpname "_" in
  if i =? 0xFF then String.append tmpname "_-_" else tmpname.

Definition genoutfilename (w : world) (outfile inffile : string)
  : res (Z * string) :=
  match fopen_rb w inffile with
  | Some inffp =>
      if Z.of_nat (length (content inffp)) <? 0x200 then Ok (1, outfile)
      else
        let inf := take 512 (content inffp) in
        (* build base path *)
        tmpname ← filename (basename inffile) None;
        let tmpname := String.append tmpname "-" in
        (* copy channel name and program title *)
        tmpname ← for_loop 1 0x200 2
                    (fun i t => c ← load inf i; Ok (inf_name_char i c t)) tmpname;
        let tmpname := String.append tmpname ".ts" in
        Ok (0, String.append outfile tmpname)
  | None => Ok (1, outfile)
  end.

(** The block decryption of the selected backend. *)
Definition block_decrypt (g : globals) (pin : list byte) (pin_off : Z)
    (pout : list byte) (pout_off : Z) : res (list byte) :=
  if negb (enable_aesni g =? 0)
  then block_decrypt_aesni (state g) pin pin_off pout pout_off
  else block_decrypt_aes (state g) pin pin_off pout pout_off.

(** [pin] and [pout] are arrays with positions; the result is the status
    and the array written to. *)
Definition decrypt_aes128cbc (g : globals) (pin : list byte) (pin_off : Z)
    (len : Z) (pout : list byte) (pout_off : Z) : res (Z * list byte) :=
  if negb (Z.rem len BLOCK_SIZE =? 0) then Ok (1, pout)
  else
    pout ← for_loop 0 len BLOCK_SIZE
             (fun i pout => block_decrypt g pin (pin_off + i) pout (pout_off + i))
             pout;
    Ok (0, pout).

(** The offset of the payload: 4, plus the adaptation field if there is one. *)
Definition payload_offset (data : list byte) : res Z :=
  d3 ← load data 3;
  let offset := 4 in
  (* skip adaption field *)
  if negb (Z.land (byte_val d3) 0x20 =? 0)
  then d4 ← load data 4; Ok (offset + (byte_val d4 + 1))
  else Ok offset.

(** The length handed to the cipher: only full blocks. *)
Definition payload_length (offset : Z) : Z :=
  Z.quot (PACKETSIZE - offset) BLOCK_SIZE * BLOCK_SIZE.

(** Decode a MPEG packet.  [data] is the packet, 188 bytes; the result is
    the status and the packet afterwards. *)
Definition decode_packet (g : globals) (data : list byte) : res (Z * list byte) :=
  d0 ← load data 0;
  if negb (byte_val d0 =? 0x47) then Ok (1, data)
  else
    tmp ← load_bytes data 0 (Z.to_nat PACKETSIZE);
    d3 ← load data 3;
    (* only process scrambled content *)
    if negb (Z.land (byte_val d3) 0xC0 =? 0xC0) &&
       negb (Z.land (byte_val d3) 0xC0 =? 0x80)
    then Ok (1, data)
    else
      offset ← payload_offset data;
      (* remove scrambling bits *)
      tmp ← (t3 ← load tmp 3; store tmp 3 (byte_of_Z (Z.land (byte_val t3) 0x3f)));
      (* decrypt only full blocks (they seem to avoid padding) *)
      '(_, tmp) ← decrypt_aes128cbc g data offset (payload_length offset) tmp offset;
      data ← store_bytes data 0 tmp;
      Ok (0, data).

(** *** The synchroniser: from the label [resync] to the end of the search *)

Definition set_workp (pb : packetbuffer) (p : Z) : packetbuffer :=
  {| fdread := fdread pb; fdwrite := fdwrite pb; buf := buf pb;
     workp := p; endp := endp pb; end_ := end_ pb |}.

Definition set_buf (pb : packetbuffer) (b : list byte) : packetbuffer :=
  {| fdread := fdread pb; fdwrite := fdwrite pb; buf := b;
     workp := workp pb; endp := endp pb; end_ := end_ pb |}.

(** [*(pb.workp+i) == 0x47 && *(pb.workp+i+PACKETSIZE) == 0x47 &&
     *(pb.workp+i+PACKETSIZE+PACKETSIZE) == 0x47] *)
Definition sync_at (pb : packetbuffer) (i : Z) : res bool :=
  a ← load (buf pb) (workp pb + i);
  if negb (byte_val a =? 0x47) then Ok false
  else
    b ← load (buf pb) (workp pb + i + PACKETSIZE);
    if negb (byte_val b =? 0x47) then Ok false
    else
      c ← load (buf pb) (workp pb + i + PACKETSIZE + PACKETSIZE);
      Ok (byte_val c =? 0x47).

(** The [for] loop that searches packets starting with 0x47: [n] offsets
    from [i] on; the result is [sync_find] and the buffer. *)
Fixpoint sync_scan (n : nat) (i : Z) (pb : packetbuffer) : res (Z * packetbuffer) :=
  match n with
  | O => Ok (0, pb)
  | S n' =>
      hit ← sync_at pb i;
      if (hit : bool) then Ok (1, set_workp pb (workp pb + i))
      else sync_scan n' (i + 1) pb
  end.

(** [while(sync_find == 0 && retries-- > 0)]; the third component counts
    the calls of [pbread]. *)
Fixpoint sync_retry (retries : nat) (reads : nat) (pb : packetbuffer)
  : res (Z * packetbuffer * nat) :=
  match retries with
  | O => Ok (0, pb, reads)
  | S retries' =>
      let pb := pbread pb in
      '(sync_find, pb) ← sync_scan (Z.to_nat (BUFFERSIZE - PACKETSIZE - PACKETSIZE)) 0 pb;
      if negb (sync_find =? 0) then Ok (sync_find, pb, S reads)
      else sync_retry retries' (S reads) pb
  end.

Definition try_to_sync (pb : packetbuffer) : res (Z * packetbuffer * nat) :=
  sync_retry 10 0 pb.

(** *** The rest of [decryptsrf]

    The three loops and the [goto] are a machine with a label for each loop
    head.  Nothing bounds the number of steps when the I/O layer never
    reports the end of the source, so the run takes fuel. *)
Inductive label : Type :=
| L_resync     (* at [resync:] *)
| L_outer      (* at [while(pb.end == 0)] *)
| L_inner      (* at [while(pb.workp+PACKETSIZE <= pb.endp)] *)
| L_done.      (* behind [if (sync_find)] *)

Definition step (g : globals) (l : label) (pb : packetbuffer)
  : res (label * packetbuffer) :=
  match l with
  | L_resync =>
      '(sync_find, pb, _) ← try_to_sync pb;
      Ok (if negb (sync_find =? 0) then L_outer else L_done, pb)
  | L_outer =>
      if end_ pb =? 0 then Ok (L_inner, pbread pb) else Ok (L_done, pb)
  | L_inner =>
      if workp pb + PACKETSIZE <=? endp pb then
        b ← load (buf pb) (workp pb);
        if byte_val b =? 0x47 then
          data ← load_bytes (buf pb) (workp pb) (Z.to_nat PACKETSIZE);
          '(_, data) ← decode_packet g data;
          buf' ← store_bytes (buf pb) (workp pb) data;
          Ok (L_inner, set_workp (set_buf pb buf') (workp pb + PACKETSIZE))
        else Ok (L_resync, pbwrite pb)
      else Ok (L_outer, pbwrite pb)
  | L_done => Ok (L_done, pb)
  end.

Fixpoint run (fuel : nat) (g : globals) (l : label) (pb : packetbuffer)
  : res packetbuffer :=
  match l with
  | L_done => Ok pb
  | _ =>
      match fuel with
      | O => Fault OutOfFuel
      | S fuel' => '(l', pb') ← step g l pb; run fuel' g l' pb'
      end
  end.

Definition decryptsrf (fuel : nat) (w : world) (g : globals)
    (srffile outdir : string) : res (Z * world * globals) :=
  inffile ← filename srffile (Some "inf"%string);
  mdbfile ← filename srffile (Some "mdb"%string);
  (* read drm key from .mdb file *)
  '(r, g) ← readdrmkey w g mdbfile;
  if negb (r =? 0) then Ok (1, w, g)
  else
    (* generate outfile name based on title from .inf file *)
    '(r, outfile) ← genoutfilename w outdir inffile;
    outfile ← (if negb (r =? 0)
               then filename (String.append outfile srffile) (Some "ts"%string)
               else Ok outfile);
    let pb := pbinit {| fdread := None; fdwrite := None; buf := [];
                        workp := 0; endp := 0; end_ := 0 |} in
    match open_wronly_creat_trunc w outfile with
    | None => Ok (1, w, g)
    | Some w =>
        match files w !! canon w srffile with   (* open(srffile, O_RDONLY) *)
        | None => Ok (1, w, g)
        | Some source =>
            let pb := {| fdread := Some source; fdwrite := Some [];
                         buf := buf pb; workp := workp pb; endp := endp pb;
                         end_ := end_ pb |} in
            pb ← run fuel g L_resync pb;
            let pb := pbwrite pb in
            (* close(pb.fdwrite) *)
            let w := {| canon := canon w;
                        files := <[canon w outfile := default [] (fdwrite pb)]>
                                   (files w);
                        unwritable := unwritable w |} in
            Ok (0, w, g)
        end
    end.

(** [EXIT_SUCCESS] and [EXIT_FAILURE] of stdlib.h. *)
Definition EXIT_SUCCESS : Z := 0.
Definition EXIT_FAILURE : Z := 1.

(** The loop of [main] over the options.  [opts] lists what the calls of
    [getopt] return one after the other: the option character and its
    argument.  The result is the exit status when the process ends inside
    the loop, or [outdir] and [enable_aesni] behind it.  The options [d]
    and [q] change the trace level, on which only printing depends. *)
Fixpoint option_loop (opts : list (ascii * string)) (outdir : string)
    (enable_aesni : Z) : Z + (string * Z) :=
  match opts with
  | [] => inr (outdir, enable_aesni)
  | (ch, optarg) :: opts' =>
      if (ch =? "d")%char then option_loop opts' outdir enable_aesni
      else if (ch =? "o")%char then option_loop opts' optarg enable_aesni
      else if (ch =? "q")%char then option_loop opts' outdir enable_aesni
      else if (ch =? "v")%char then inl EXIT_SUCCESS
      else if (ch =? "x")%char then option_loop opts' outdir 0
      else inl EXIT_FAILURE   (* usage(); exit(EXIT_FAILURE) *)
  end.

(** Set and verify outdir.  [first] is [argv[optind]]; the result is
    [outdir] and what [argv[optind]] holds afterwards.  An empty [outdir]
    would be read at index -1. *)
Definition set_outdir (outdir first : string) : res (string * string) :=
  let '(outdir, first) :=
    if (String.length outdir <? 1)%nat then dirname first else (outdir, first) in
  match String.get (String.length outdir - 1) outdir with
  | Some c =>
      Ok (if negb (c =? "/")%char then String.append outdir "/" else outdir, first)
  | None => Fault OutOfBounds
  end.

(** [main] up to its loop.  [g] holds the globals at start-up, [c] what
    [cpuid] reports, [args] is [argv[optind]], ..., [argv[argc-1]].  The
    result is the exit status when the process ends here, or the globals,
    the output directory and the recordings the loop starts with. *)
Definition main_entry (g : globals) (c : Z) (opts : list (ascii * string))
    (args : list string) : res (Z + (globals * string * list string)) :=
  let enable_aesni := Check_CPU_support_AES c in
  match option_loop opts EmptyString enable_aesni with
  | inl status => Ok (inl status)
  | inr (outdir, enable_aesni) =>
      match args with
      | [] => Ok (inl EXIT_FAILURE)   (* usage(); exit(EXIT_FAILURE) *)
      | first :: rest =>
          '(outdir, first) ← set_outdir outdir first;
          Ok (inr ({| state := state g; enable_aesni := enable_aesni |},
                   outdir, first :: rest))
      end
  end.

(** The loop of [main]: [do { if(decryptsrf(argv[optind], outdir) != 0)
    break; } while(++optind < argc)], entered with at least one recording.
    The last component lists the calls of [decryptsrf] in order, each with
    what it returned. *)
Fixpoint main_loop (fuel : nat) (w : world) (g : globals) (args : list string)
    (outdir : string) (calls : list (string * Z))
  : res (world * globals * list (string * Z)) :=
  match args with
  | [] => Ok (w, g, calls)
  | srffile :: args' =>
      '(r, w, g) ← decryptsrf fuel w g srffile outdir;
      let calls := calls ++ [(srffile, r)] in
      if negb (r =? 0) then Ok (w, g, calls)   (* break *)
      else main_loop fuel w g args' outdir calls
  end.

(** The result is the exit status of the process, the file system it
    leaves and the calls of [decryptsrf]. *)
Definition main (fuel : nat) (w : world) (g : globals) (c : Z)
    (opts : list (ascii * string)) (args : list string)
  : res (Z * world * list (string * Z)) :=
  e ← main_entry g c opts args;
  match e with
  | inl status => Ok (status, w, [])
  | inr (g, outdir, args) =>
      '(w, _, calls) ← main_loop fuel w g args outdir [];
      Ok (0, w, calls)
  end.

End Drmdecrypt.

(** ** The cipher as a composition of rounds

    What [block_encrypt_aesni] and [block_decrypt_aesni] compute on a
    schedule [k0 :: mid ++ [kn]], and the decryption schedule as the spec
    words it. *)

Definition sub_shift (a : m128i) : m128i := SubBytes (ShiftRows a).

Definition cipher_rounds (k0 : m128i) (mid : list m128i) (kn : m128i) (m : m128i)
  : m128i :=
  _mm_aesenclast_si128 (fold_left _mm_aesenc_si128 mid (_mm_xor_si128 m k0)) kn.

Definition inv_cipher_rounds (k0 : m128i) (mid : list m128i) (kn : m128i) (m : m128i)
  : m128i :=
  _mm_aesdeclast_si128 (fold_left _mm_aesdec_si128 mid (_mm_xor_si128 m k0)) kn.

(** A schedule without its first and last round key. *)
Definition middle {A} (l : list A) : list A := removelast (List.tl l).

Definition zero128 : m128i := m128i_of_bytes [].

(** Encrypting and decrypting one block held in a list of sixteen bytes. *)
Definition encrypt_block (ek : list m128i) (p : list byte) : list byte :=
  m128i_bytes (cipher_rounds (hd zero128 ek) (middle ek) (List.last ek zero128)
                             (m128i_of_bytes p)).

Definition decrypt_block (dk : list m128i) (c : list byte) : list byte :=
  m128i_bytes (inv_cipher_rounds (hd zero128 dk) (middle dk) (List.last dk zero128)
                                 (m128i_of_bytes c)).

(** The decryption round keys in the words of the spec: the encryption
    round keys in reverse order, the inverse column transform applied to
    each of them except the first and the last. *)
Definition reversed_schedule (ek : list m128i) : list m128i :=
  imap (fun j k =>
          if (j =? 0)%nat || (j =? length ek - 1)%nat then k
          else InvMixColumns k)
       (reverse ek).

(** The number of rounds of a supported key length. *)
Definition supported (keylen nr : Z) : Prop :=
  (keylen = 16 /\ nr = 10) \/ (keylen = 24 /\ nr = 12) \/ (keylen = 32 /\ nr = 14).

(** The bytes [aes_key_setup_enc] loads at the key pointer: one vector for
    a 16-byte key, two vectors otherwise. *)
Definition key_extent (keylen : Z) : Z := if keylen =? 16 then 16 else 32.

(** An allocation that succeeded, with [n] vectors. *)
Definition allocated (n : Z) (p : option (list m128i)) : Prop :=
  exists l, p = Some l /\ Z.of_nat (length l) = n.

(** A cipher context as [block_init_aesni] leaves it. *)
Definition initialised (st : block_state) : Prop :=
  exists ekl dkl,
    ek st = Some ekl /\ dk st = Some dkl /\
    (rounds st = 10 \/ rounds st = 12 \/ rounds st = 14) /\
    Z.of_nat (length ekl) = rounds st + 1 /\
    dkl = reversed_schedule ekl.

(** Test data: the keys and the block of FIPS-197, appendix C. *)
Definition kat_key128 : list byte :=
  [x00; x01; x02; x03; x04; x05; x06; x07; x08; x09; x0a; x0b; x0c; x0d; x0e; x0f].
Definition kat_key192 : list byte :=
  kat_key128 ++ [x10; x11; x12; x13; x14; x15; x16; x17].
Definition kat_key256 : list byte :=
  kat_key192 ++ [x18; x19; x1a; x1b; x1c; x1d; x1e; x1f].
Definition kat_plain : list byte :=
  [x00; x11; x22; x33; x44; x55; x66; x77; x88; x99; xaa; xbb; xcc; xdd; xee; xff].

(** A context before initialisation, as [readdrmkey] prepares it, and fresh
    arrays of [n] vectors. *)
Definition blank_state : block_state := {| ek := None; dk := None; rounds := 10 |}.
Definition fresh (n : nat) : option (list m128i) := Some (replicate n zero128).
Definition out16 : list byte := replicate 16 x00.

(** Two vectors with the same low half (lanes 0 and 1). *)
Definition low_eq (a b : m128i) : Prop := lane0 a = lane0 b /\ lane1 a = lane1 b.

(** ** The packet codec

    [ecb D n l]: the first [n] blocks of [l], each put through [D] on its
    own. *)
Fixpoint ecb (D : list byte -> list byte) (n : nat) (l : list byte) : list byte :=
  match n with
  | O => []
  | S n' => D (take 16 l) ++ ecb D n' (drop 16 l)
  end.

(** Byte 3 with the scrambling-control bits cleared. *)
Definition clear_scrambling (b : byte) : byte :=
  byte_of_Z (Z.land (byte_val b) 0x3f).

(** A packet after decoding with payload offset [offset]: the header up to
    the payload with byte 3 cleared, the whole blocks of the payload
    decrypted, the rest as it was. *)
Definition decoded (D : list byte -> list byte) (data : list byte) (offset : Z)
  : list byte :=
  let off := Z.to_nat offset in
  let n := Z.to_nat (Z.quot (PACKETSIZE - offset) BLOCK_SIZE) in
  let tmp := alter clear_scrambling 3%nat data in
  take off tmp ++ ecb D n (drop off data) ++ drop (off + 16 * n) tmp.

Section CodecSpec.
Context `{PortableAES}.

(** The selected backend decrypts: on a block inside [pin] and room inside
    [pout] it writes [D] of the sixteen bytes read. *)
Definition backend_decrypts (g : globals) (D : list byte -> list byte) : Prop :=
  (forall blk, length (D blk) = 16%nat) /\
  forall pin i pout j,
    block_decrypt g pin i pout j =
    (blk ← load_bytes pin i 16; store_bytes pout j (D blk)).

End CodecSpec.

(** The hardware backend with the schedule of the FIPS-197 128-bit key. *)
Definition kat_state : block_state :=
  match block_init_aesni blank_state kat_key128 16 (fresh 11) (fresh 11) with
  | Ok st => st
  | Fault _ => blank_state
  end.
Definition kat_globals : globals := {| state := kat_state; enable_aesni := 1 |}.
Definition kat_D : list byte -> list byte :=
  decrypt_block (default [] (dk kat_state)).

(** No portable cipher: a stand-in for where only the hardware backend runs. *)
Definition no_portable_aes : PortableAES :=
  {| block_init_aes := fun _ _ _ => Fault NullPointer;
     block_decrypt_aes := fun _ _ _ _ _ => Fault NullPointer |}.

(** Test packets: sync byte, two header bytes, byte 3, then the rest. *)
Definition pkt_odd : list byte :=          (* scrambling 11, no adaptation field *)
  [x47; x00; x00; xc0] ++ replicate 184 x55.
Definition pkt_even_af : list byte :=      (* scrambling 10, adaptation field of length 10 *)
  [x47; x00; x00; xa0; x0a] ++ replicate 183 x55.
Definition pkt_long_af : list byte :=      (* scrambling 10, adaptation field of length 255 *)
  [x47; x00; x00; xa0; xff] ++ replicate 183 x55.
Definition pkt_clear : list byte :=        (* scrambling 00 *)
  [x47; x00; x00; x10] ++ replicate 184 x55.

(** ** Key provisioning

    The key in the words of the spec: each group of four consecutive source
    bytes reversed within the group, the groups in their order. *)
Definition reverse_groups (src : list byte) : list byte :=
  reverse (take 4 src) ++ reverse (take 4 (drop 4 src)) ++
  reverse (take 4 (drop 8 src)) ++ reverse (take 4 (drop 12 src)).

(** The sixteen source bytes 0 .. 15. *)
Definition bytes_0_15 : list byte :=
  [x00; x01; x02; x03; x04; x05; x06; x07; x08; x09; x0a; x0b; x0c; x0d; x0e; x0f].

(** An allocator that always succeeds and hands out zeroed vectors. *)
Definition zeroing_allocator : Allocator :=
  {| aligned_malloc_wrapper :=
       fun _ size => Some (replicate (Z.to_nat (size / 16)) zero128) |}.

(** A file system with one key container: eight bytes, then 0 .. 15. *)
Definition world_with_key : world :=
  {| canon := fun path => path;
     files := {[ "rec.mdb"%string := replicate 8 xee ++ bytes_0_15 ]};
     unwritable := ∅ |}.

(** ** The synchroniser *)

(** The byte at [workp + k] is the sync marker. *)
Definition marker (pb : packetbuffer) (k : Z) : bool :=
  match load (buf pb) (workp pb + k) with
  | Ok b => byte_val b =? 0x47
  | Fault _ => false
  end.

(** Three markers at the packet stride from offset [i] of the window. *)
Definition triple_sync (pb : packetbuffer) (i : Z) : bool :=
  marker pb i && marker pb (i + PACKETSIZE) &&
  marker pb (i + PACKETSIZE + PACKETSIZE).

Section SyncSpec.
Context `{BufferIO}.

(** The offsets one scan tries: [0 <= i < scan_width]. *)
Definition scan_width : Z := BUFFERSIZE - PACKETSIZE - PACKETSIZE.

(** The scan reads up to [BUFFERSIZE] bytes from the cursor on; they have to
    lie inside the buffer. *)
Definition window_readable (pb : packetbuffer) : Prop :=
  0 <= workp pb /\ workp pb + BUFFERSIZE <= Z.of_nat (length (buf pb)).

Definition no_sync_in (pb : packetbuffer) : Prop :=
  forall i, 0 <= i < scan_width -> triple_sync pb i = false.

Definition first_sync_at (pb : packetbuffer) (m : Z) : Prop :=
  0 <= m < scan_width /\ triple_sync pb m = true /\
  forall i, 0 <= i < m -> triple_sync pb i = false.

(** The buffer after [k] calls of [pbread]. *)
Definition after_reads (k : nat) (pb : packetbuffer) : packetbuffer :=
  Nat.iter k pbread pb.

End SyncSpec.

(** Modelled from the spec: the buffered I/O layer of buffer.h is not at
    hand.  This is a layer as section 6 of the spec describes it, with a
    buffer of four packets: reading appends what fits behind the valid
    data and raises the end-of-stream flag once the source has nothing
    left; writing sends the bytes before the cursor to the destination and
    moves the unconsumed rest to the front.  It serves the examples only;
    the theorems hold for every layer. *)
Definition simple_pbinit (pb : packetbuffer) : packetbuffer :=
  {| fdread := fdread pb; fdwrite := fdwrite pb;
     buf := replicate (Z.to_nat (4 * PACKETSIZE)) x00;
     workp := 0; endp := 0; end_ := 0 |}.

Definition simple_pbread (pb : packetbuffer) : packetbuffer :=
  let source := default [] (fdread pb) in
  let room := Z.to_nat (4 * PACKETSIZE - endp pb) in
  let chunk := take room source in
  {| fdread := drop room <$> fdread pb;
     fdwrite := fdwrite pb;
     buf := take (Z.to_nat (endp pb)) (buf pb) ++ chunk ++
            drop (Z.to_nat (endp pb) + length chunk) (buf pb);
     workp := workp pb;
     endp := endp pb + Z.of_nat (length chunk);
     end_ := match source with [] => 1 | _ => end_ pb end |}.

Definition simple_pbwrite (pb : packetbuffer) : packetbuffer :=
  let done := take (Z.to_nat (workp pb)) (buf pb) in
  let keep := take (Z.to_nat (endp pb - workp pb))
                   (drop (Z.to_nat (workp pb)) (buf pb)) in
  {| fdread := fdread pb;
     fdwrite := (fun o => o ++ done) <$> fdwrite pb;
     buf := keep ++ drop (length keep) (buf pb);
     workp := 0;
     endp := Z.of_nat (length keep);
     end_ := end_ pb |}.

Lemma simple_buffer_two_packets : 2 * PACKETSIZE <= 4 * PACKETSIZE.
Proof. unfold PACKETSIZE. lia. Qed.

Definition simple_io : BufferIO :=
  {| BUFFERSIZE := 4 * PACKETSIZE;
     BUFFERSIZE_two_packets := simple_buffer_two_packets;
     pbinit := simple_pbinit;
     pbread := simple_pbread;
     pbwrite := simple_pbwrite;
     pbfree := fun pb => pb |}.

(** A window of fifty bytes of garbage, then three packets. *)
Definition packet_of (b : byte) : list byte := x47 :: replicate 187 b.
Definition garbage_then_packets : list byte :=
  replicate 50 x11 ++ packet_of x22 ++ packet_of x33 ++ packet_of x44.
Definition source_pb (source : list byte) : packetbuffer :=
  {| fdread := Some source; fdwrite := Some [];
     buf := replicate (Z.to_nat (4 * PACKETSIZE)) x00;
     workp := 0; endp := 0; end_ := 0 |}.

(** ** The driver *)

(** The position of the last ['/'] of a string. *)
Fixpoint last_slash (s : string) : option nat :=
  match s with
  | EmptyString => None
  | String c s' =>
      match last_slash s' with
      | Some k => Some (S k)
      | None => if (c =? "/")%char then Some O else None
      end
  end.

(** A [dirname] as the GNU C library has it on a path without doubled or
    trailing slashes: a path with a slash is cut at its last slash, in
    place, and the result is the path so cut; without one the result is
    ["."] and the path is as it was.  It serves the examples only; the
    theorems hold for every [dirname]. *)
Definition cutting_dirname : PathLib :=
  {| dirname := fun path =>
       match last_slash path with
       | Some O => ("/"%string, "/"%string)
       | Some k => (substring 0 k path, substring 0 k path)
       | None => ("."%string, path)
       end |}.

(** What [cpuid] reports on a processor with AES-NI. *)
Definition cpu_with_aes : Z := 0x2000000.

(** Globals at start-up, with the hardware backend selected. *)
Definition start_globals : globals := {| state := blank_state; enable_aesni := 1 |}.

(** A file system with one complete recording, b, and none of the files of
    recording a. *)
Definition world_without_a : world :=
  {| canon := fun path => path;
     files := {[ "b.srf"%string := garbage_then_packets;
                 "b.mdb"%string := replicate 8 xee ++ bytes_0_15 ]};
     unwritable := ∅ |}.

(** A window without any sync marker. *)
Definition no_markers : list byte := replicate 1000 x11.

Section DriverSpec.
Context `{PortableAES} `{Allocator} `{BufferIO}.

(** The recordings [before] all succeed, one after the other, from [w],
    [g]; [w'] and [g'] are what they leave. *)
Inductive all_succeed (fuel : nat) (outdir : string)
  : world -> globals -> list string -> world -> globals -> Prop :=
| all_succeed_nil w g : all_succeed fuel outdir w g [] w g
| all_succeed_cons w g srffile w1 g1 before w' g' :
    decryptsrf fuel w g srffile outdir = Ok (0, w1, g1) ->
    all_succeed fuel outdir w1 g1 before w' g' ->
    all_succeed fuel outdir w g (srffile :: before) w' g'.

End DriverSpec.

(** ** AESNI.c: the end of a context *)

(** [memset(p, 0, n * sizeof(__m128i))]: the first [n] vectors at [p]
    become zero.  A negative count, converted to [size_t], is beyond every
    array. *)
Definition memset_zero (p : list m128i) (n : Z) : res (list m128i) :=
  if n <? 0 then Fault OutOfBounds
  else store_bytes p 0 (replicate (Z.to_nat n) zero128).

(** The result is what the two arrays hold when they are handed to
    [aligned_free_wrapper]. *)
Definition block_finalize_aesni (self : block_state)
  : res (list m128i * list m128i) :=
  (* overwrite contents of ek and dk *)
  ekl ← deref (ek self);
  ekl ← memset_zero ekl (rounds self + 1);
  dkl ← deref (dk self);
  dkl ← memset_zero dkl (rounds self + 1);
  Ok (ekl, dkl).

(** ** The cipher, the other way round *)

Definition inv_sub_shift (a : m128i) : m128i := InvSubBytes (InvShiftRows a).

(** ** The key expansion of FIPS-197, section 5.2

    The expanded key is a sequence of words [w[0], w[1], ...]; the first
    [Nk] are the key, and for [i >= Nk]
    [w[i] = w[i-Nk] xor temp] where [temp] is [w[i-1]], put through
    [SubWord(RotWord(.)) xor Rcon[i/Nk]] when [Nk] divides [i], and through
    [SubWord] when [Nk > 6] and [i mod Nk = 4]. *)

Definition rcon : list byte := [x01; x02; x04; x08; x10; x20; x40; x80; x1b; x36].

Definition zero_word : dword := DW x00 x00 x00 x00.

(** [window] holds the [Nk] words before [w[i]], oldest first; the result
    is [w[i], ..., w[i+n-1]]. *)
Fixpoint expand_from (Nk n i : nat) (window : list dword) : list dword :=
  match n with
  | O => []
  | S n' =>
      let temp := List.last window zero_word in
      let temp :=
        if (i mod Nk =? 0)%nat
        then xor_rcon (SubWord (RotWord temp)) (nth (i / Nk - 1) rcon x00)
        else if (6 <? Nk)%nat && (i mod Nk =? 4)%nat then SubWord temp
        else temp in
      let wi := dword_xor (hd zero_word window) temp in
      wi :: expand_from Nk n' (S i) (List.tl window ++ [wi])
  end.

(** Four words in a row where none is a multiple of [Nk]: each is the word
    of [back] at its place xor the word before it, the first one xor
    [temp]. *)
Definition next_words (back : m128i) (temp : dword) : m128i :=
  let w0 := dword_xor (lane0 back) temp in
  let w1 := dword_xor (lane1 back) w0 in
  let w2 := dword_xor (lane2 back) w1 in
  let w3 := dword_xor (lane3 back) w2 in
  M128 w0 w1 w2 w3.

(** The [4 * (Nr + 1)] words of the expanded key. *)
Definition KeyExpansion (Nk Nr : nat) (key : list dword) : list dword :=
  key ++ expand_from Nk (4 * (Nr + 1) - Nk) Nk key.

(** Bytes in groups of four, and words in groups of four: the round keys. *)
Fixpoint words_of (l : list byte) : list dword :=
  match l with
  | a :: b :: c :: d :: l' => DW a b c d :: words_of l'
  | _ => []
  end.

Fixpoint round_keys (w : list dword) : list m128i :=
  match w with
  | a :: b :: c :: d :: w' => M128 a b c d :: round_keys w'
  | _ => []
  end.

Definition lanes (k : m128i) : list dword := [lane0 k; lane1 k; lane2 k; lane3 k].

(** The 192-bit expansion runs in groups of six words; the code keeps each
    group in a vector [a] of four words and the low half of a vector
    [b]. *)
Definition six (a b : m128i) : list dword := lanes a ++ [lane0 b; lane1 b].

(** Test data: the keys of FIPS-197, appendix A. *)
Definition fips_key128 : list byte :=
  [x2b; x7e; x15; x16; x28; xae; xd2; xa6; xab; xf7; x15; x88; x09; xcf; x4f; x3c].
Definition fips_key192 : list byte :=
  [x8e; x73; xb0; xf7; xda; x0e; x64; x52; xc8; x10; xf3; x2b;
   x80; x90; x79; xe5; x62; xf8; xea; xd2; x52; x2c; x6b; x7b].
Definition fips_key256 : list byte :=
  [x60; x3d; xeb; x10; x15; xca; x71; xbe; x2b; x73; xae; xf0; x85; x7d; x77; x81;
   x1f; x35; x2c; x07; x3b; x61; x08; xd7; x2d; x98; x10; xa3; x09; x14; xdf; xf4].

(** ** File names *)

Definition has_dot_or_slash (s : string) : bool :=
  existsb is_dot_or_slash (list_ascii_of_string s).

(** A world in which the key container is the only file. *)
Definition short_key_world : world :=
  {| canon := fun path => path;
     files := {[ "rec.mdb"%string := replicate 8 xee ++ [x00; x01; x02] ]};
     unwritable := ∅ |}.

(** An allocator out of memory. *)
Definition failing_allocator : Allocator :=
  {| aligned_malloc_wrapper := fun _ _ => None |}.

(** What one byte of the .inf file adds to the name: nothing for a zero
    byte, the character itself between ['A'] and ['z'] or ['0'] and ['9'],
    an underscore otherwise. *)
Definition name_chars (c : byte) : string :=
  let v := byte_val c in
  if v =? 0 then EmptyString
  else if ((65 <=? v) && (v <=? 122)) || ((48 <=? v) && (v <=? 57))
       then String (ascii_of_byte c) EmptyString
       else "_"%string.

Fixpoint title_of (l : list byte) : string :=
  match l with
  | [] => EmptyString
  | c :: l' => String.append (name_chars c) (title_of l')
  end.

(** The bytes at the odd positions: the low bytes of the 16-bit characters
    of the .inf file. *)
Fixpoint odd_bytes (l : list byte) : list byte :=
  match l with
  | _ :: b :: l' => b :: odd_bytes l'
  | _ => []
  end.

(** Test data: an .inf file with channel "A1" and title "b/c". *)
Definition inf_bytes : list byte :=
  [x00; x41; x00; x31] ++ replicate 252 x00 ++
  [x00; x62; x00; x2f; x00; x63] ++ replicate 250 x00.

Definition world_with_inf : world :=
  {| canon := fun path => path;
     files := {[ "dir/rec.inf"%string := inf_bytes ]}; unwritable := ∅ |}.

(** ** The packet loop *)

Section LoopSpec.
Context `{PortableAES}.



End LoopSpec.




(** A packet whose payload is eleven blocks of 0x55, encrypted with the
    schedule of the test key. *)
Definition kat_E : list byte -> list byte :=
  encrypt_block (default [] (ek kat_state)).
Definition pkt_encrypted : list byte :=
  [x47; x00; x00; xc0] ++ ecb kat_E 11 (replicate 176 x55) ++ replicate 8 xaa.

(** A file system in which [./name] and [name] are the same file, holding
    the key of recording [rec]. *)
Definition strip_dot_slash (path : string) : string :=
  match path with
  | String "." (String "/" rest) => rest
  | _ => path
  end.

Definition world_aliased : world :=
  {| canon := strip_dot_slash;
     files := {[ "rec.mdb"%string := replicate 8 xee ++ bytes_0_15 ]};
     unwritable := ∅ |}.

(** * Proofs *)

(** ** Bytes, bit by bit *)

Lemma byte_bits_eq (a b : byte) : Byte.to_bits a = Byte.to_bits b -> a = b.
Proof.
  intros E. rewrite <- (Byte.of_bits_to_bits a), <- (Byte.of_bits_to_bits b).
  now rewrite E.
Qed.

(** Replace a byte by its eight bits. *)
Ltac bits_of a :=
  rewrite <- (Byte.of_bits_to_bits a);
  generalize (Byte.to_bits a); clear a;
  intros [?a [?a [?a [?a [?a [?a [?a ?a]]]]]]].

(** An equation between bytes built from [bxor] and [xtime] over bytes
    given by their bits: compare bit by bit. *)
Ltac bit_blast :=
  apply byte_bits_eq;
  cbv beta iota delta [bxor xtime mul2 mul3 mul9 mul11 mul13 mul14 bxor4];
  repeat (rewrite !Byte.to_bits_of_bits; cbv beta iota);
  repeat (f_equal; try btauto).

Lemma bxor_cancel (a k : byte) : bxor (bxor a k) k = a.
Proof. bits_of a; bits_of k. bit_blast. Qed.

Lemma bxor_comm (a b : byte) : bxor a b = bxor b a.
Proof. bits_of a; bits_of b. bit_blast. Qed.

Lemma xtime_bxor (a b : byte) : xtime (bxor a b) = bxor (xtime a) (xtime b).
Proof. bits_of a; bits_of b. bit_blast. Qed.

Example xtime_57 : xtime x57 = xae /\ xtime xae = x47 /\ xtime x47 = x8e.
Proof. repeat split. Qed.

(** ** The round transforms and their inverses *)

Lemma InvSubByte_SubByte (b : byte) : InvSubByte (SubByte b) = b.
Proof. destruct b; reflexivity. Qed.

Lemma InvMixColumn_MixColumn (w : dword) : InvMixColumn (MixColumn w) = w.
Proof.
  destruct w as [a b c d]. unfold InvMixColumn, MixColumn.
  bits_of a; bits_of b; bits_of c; bits_of d.
  f_equal; bit_blast.
Qed.

Lemma mul9_bxor (a b : byte) : mul9 (bxor a b) = bxor (mul9 a) (mul9 b).
Proof. bits_of a; bits_of b. bit_blast. Qed.

Lemma mul11_bxor (a b : byte) : mul11 (bxor a b) = bxor (mul11 a) (mul11 b).
Proof. bits_of a; bits_of b. bit_blast. Qed.

Lemma mul13_bxor (a b : byte) : mul13 (bxor a b) = bxor (mul13 a) (mul13 b).
Proof. bits_of a; bits_of b. bit_blast. Qed.

Lemma mul14_bxor (a b : byte) : mul14 (bxor a b) = bxor (mul14 a) (mul14 b).
Proof. bits_of a; bits_of b. bit_blast. Qed.

Lemma bxor4_bxor (a b c d e f g h : byte) :
  bxor4 (bxor a e) (bxor b f) (bxor c g) (bxor d h) =
  bxor (bxor4 a b c d) (bxor4 e f g h).
Proof.
  bits_of a; bits_of b; bits_of c; bits_of d;
  bits_of e; bits_of f; bits_of g; bits_of h.
  bit_blast.
Qed.

(** The inverse column transform is linear. *)
Lemma InvMixColumn_xor (v w : dword) :
  InvMixColumn (dword_xor v w) = dword_xor (InvMixColumn v) (InvMixColumn w).
Proof.
  destruct v as [a b c d], w as [e f g h].
  unfold InvMixColumn, dword_xor; cbn [byte0 byte1 byte2 byte3].
  rewrite !mul9_bxor, !mul11_bxor, !mul13_bxor, !mul14_bxor.
  now rewrite !bxor4_bxor.
Qed.

Ltac split_m128i a := destruct a as [[? ? ? ?] [? ? ? ?] [? ? ? ?] [? ? ? ?]].

Lemma InvMixColumns_MixColumns (a : m128i) : InvMixColumns (MixColumns a) = a.
Proof.
  destruct a as [c0 c1 c2 c3]. unfold InvMixColumns, MixColumns, m128i_map.
  cbn [lane0 lane1 lane2 lane3]. now rewrite !InvMixColumn_MixColumn.
Qed.

Lemma InvMixColumns_xor (a b : m128i) :
  InvMixColumns (_mm_xor_si128 a b) =
  _mm_xor_si128 (InvMixColumns a) (InvMixColumns b).
Proof.
  destruct a, b. unfold InvMixColumns, _mm_xor_si128, m128i_map.
  cbn [lane0 lane1 lane2 lane3]. now rewrite !InvMixColumn_xor.
Qed.

Lemma xor_cancel (a k : m128i) : _mm_xor_si128 (_mm_xor_si128 a k) k = a.
Proof.
  split_m128i a; split_m128i k. unfold _mm_xor_si128, dword_xor.
  cbn [lane0 lane1 lane2 lane3 byte0 byte1 byte2 byte3].
  now rewrite !bxor_cancel.
Qed.

(** Substitution is bytewise, so it commutes with the row shifts; together
    with the two inverse pairs this undoes [SubBytes] after [ShiftRows]. *)
Lemma InvSubBytes_InvShiftRows (a : m128i) :
  InvSubBytes (InvShiftRows (SubBytes (ShiftRows a))) = a.
Proof.
  split_m128i a.
  unfold InvSubBytes, InvShiftRows, SubBytes, ShiftRows, m128i_map, dword_map.
  cbn [lane0 lane1 lane2 lane3 byte0 byte1 byte2 byte3].
  now rewrite !InvSubByte_SubByte.
Qed.

(** Rounds undone one by one, for any round functions [enc] and [dec],
    key transform [imc] and state transform [T] such that [dec], keyed with
    the transformed key, undoes [enc] under [T]. *)
Section Rounds.
Context {St K : Type} (enc dec : St -> K -> St) (imc : K -> K) (T : St -> St).
Hypothesis dec_enc : forall x k, dec (T (enc x k)) (imc k) = T x.

Lemma fold_left_snoc {A B} (f : A -> B -> A) (l : list B) (b : B) (a : A) :
  fold_left f (l ++ [b]) a = f (fold_left f l a) b.
Proof. now rewrite fold_left_app. Qed.

Lemma rounds_undone (mid : list K) (m : St) :
  fold_left dec (map imc (reverse mid)) (T (fold_left enc mid m)) = T m.
Proof.
  revert m. induction mid as [|k mid IH] using rev_ind; intros m.
  - reflexivity.
  - rewrite fold_left_snoc, reverse_snoc. cbn [map fold_left].
    rewrite dec_enc. apply IH.
Qed.
End Rounds.

(** One inverse round, keyed with the transformed round key, undoes one
    round up to the byte substitution and row shift of the next. *)
Lemma aesdec_aesenc (x k : m128i) :
  _mm_aesdec_si128 (sub_shift (_mm_aesenc_si128 x k)) (_mm_aesimc_si128 k) =
  sub_shift x.
Proof.
  unfold _mm_aesdec_si128, _mm_aesimc_si128, sub_shift.
  rewrite InvSubBytes_InvShiftRows, <- InvMixColumns_xor.
  unfold _mm_aesenc_si128. now rewrite xor_cancel, InvMixColumns_MixColumns.
Qed.

Lemma aesenclast_sub_shift (x k : m128i) :
  _mm_xor_si128 (_mm_aesenclast_si128 x k) k = sub_shift x.
Proof. unfold _mm_aesenclast_si128. now rewrite xor_cancel. Qed.

Lemma aesdeclast_sub_shift (x k : m128i) :
  _mm_aesdeclast_si128 (sub_shift (_mm_xor_si128 x k)) k = x.
Proof.
  unfold _mm_aesdeclast_si128, sub_shift.
  now rewrite InvSubBytes_InvShiftRows, xor_cancel.
Qed.

(** The inverse cipher on the reversed, transformed schedule undoes the
    cipher. *)
Lemma inv_cipher_cipher (k0 kn : m128i) (mid : list m128i) (m : m128i) :
  inv_cipher_rounds kn (map _mm_aesimc_si128 (reverse mid)) k0
                    (cipher_rounds k0 mid kn m) = m.
Proof.
  unfold inv_cipher_rounds, cipher_rounds.
  rewrite aesenclast_sub_shift.
  rewrite (rounds_undone _ _ _ _ aesdec_aesenc).
  apply aesdeclast_sub_shift.
Qed.

(** ** Arrays *)

Lemma load_bytes_all {A} (a : list A) :
  load_bytes a 0 (length a) = Ok a.
Proof.
  unfold load_bytes. rewrite Z.add_0_l, !Z.leb_refl.
  change (Z.to_nat 0) with 0%nat. cbn [andb drop]. now rewrite firstn_all.
Qed.

Lemma store_bytes_all {A} (a bs : list A) :
  length bs = length a -> store_bytes a 0 bs = Ok bs.
Proof.
  intros E. unfold store_bytes. rewrite Z.add_0_l, E, !Z.leb_refl.
  change (Z.to_nat 0) with 0%nat. cbn [andb take app Nat.add].
  rewrite drop_all. apply f_equal, app_nil_r.
Qed.

Lemma load_bytes_ok {A} (a : list A) (off : Z) (n : nat) :
  0 <= off -> off + Z.of_nat n <= Z.of_nat (length a) ->
  load_bytes a off n = Ok (take n (drop (Z.to_nat off) a)).
Proof.
  intros H0 H1. unfold load_bytes.
  now rewrite (proj2 (Z.leb_le _ _) H0), (proj2 (Z.leb_le _ _) H1).
Qed.

Lemma store_bytes_ok {A} (a bs : list A) (off : Z) :
  0 <= off -> off + Z.of_nat (length bs) <= Z.of_nat (length a) ->
  store_bytes a off bs =
  Ok (take (Z.to_nat off) a ++ bs ++ drop (Z.to_nat off + length bs) a).
Proof.
  intros H0 H1. unfold store_bytes.
  now rewrite (proj2 (Z.leb_le _ _) H0), (proj2 (Z.leb_le _ _) H1).
Qed.

(** A list of known length, element by element. *)
Ltac explode l :=
  repeat match goal with
         | H : length l = S _ |- _ =>
             let x := fresh "x" in
             destruct l as [|x l]; [discriminate H|];
             cbn [length] in H; apply Nat.succ_inj in H
         | H : length l = O |- _ =>
             destruct l; [clear H | discriminate H]
         end.

Lemma m128i_of_bytes_bytes (m : m128i) : m128i_of_bytes (m128i_bytes m) = m.
Proof. split_m128i m. reflexivity. Qed.

Lemma m128i_bytes_of_bytes (p : list byte) :
  length p = 16%nat -> m128i_bytes (m128i_of_bytes p) = p.
Proof. intros E. explode p. reflexivity. Qed.

Lemma length_m128i_bytes (m : m128i) : length (m128i_bytes m) = 16%nat.
Proof. reflexivity. Qed.

(** ** AESNI.c: what the block functions compute *)

(** Run the code on explicit arrays, leaving the instructions folded. *)
Ltac run_code :=
  lazy -[_mm_aesenc_si128 _mm_aesenclast_si128 _mm_aesdec_si128
         _mm_aesdeclast_si128 _mm_aesimc_si128 _mm_xor_si128 InvMixColumns
         KEYEXP128 KEYEXP192 KEYEXP192_2 KEYEXP256 KEYEXP256_2 shuffle_pd_si128
         m128i_bytes m128i_of_bytes store_bytes load_bytes].

Lemma block_encrypt_aesni_spec (self : block_state) (ekl : list m128i)
    (in_ : list byte) (off : Z) (out : list byte) (j : Z) :
  ek self = Some ekl ->
  rounds self = 10 \/ rounds self = 12 \/ rounds self = 14 ->
  Z.of_nat (length ekl) = rounds self + 1 ->
  block_encrypt_aesni self in_ off out j =
  (l ← load_bytes in_ off 16; store_bytes out j (encrypt_block ekl l)).
Proof.
  intros Hek Hr Hlen. unfold block_encrypt_aesni, _mm_loadu_si128, _mm_storeu_si128.
  rewrite Hek. destruct (load_bytes in_ off 16) as [l|]; [|reflexivity].
  destruct Hr as [Hr|[Hr|Hr]]; rewrite Hr in *.
  - assert (E : length ekl = 11%nat) by lia. explode ekl. run_code. reflexivity.
  - assert (E : length ekl = 13%nat) by lia. explode ekl. run_code. reflexivity.
  - assert (E : length ekl = 15%nat) by lia. explode ekl. run_code. reflexivity.
Qed.

Lemma block_decrypt_aesni_spec (self : block_state) (dkl : list m128i)
    (in_ : list byte) (off : Z) (out : list byte) (j : Z) :
  dk self = Some dkl ->
  rounds self = 10 \/ rounds self = 12 \/ rounds self = 14 ->
  Z.of_nat (length dkl) = rounds self + 1 ->
  block_decrypt_aesni self in_ off out j =
  (l ← load_bytes in_ off 16; store_bytes out j (decrypt_block dkl l)).
Proof.
  intros Hdk Hr Hlen. unfold block_decrypt_aesni, _mm_loadu_si128, _mm_storeu_si128.
  rewrite Hdk. destruct (load_bytes in_ off 16) as [l|]; [|reflexivity].
  destruct Hr as [Hr|[Hr|Hr]]; rewrite Hr in *.
  - assert (E : length dkl = 11%nat) by lia. explode dkl. run_code. reflexivity.
  - assert (E : length dkl = 13%nat) by lia. explode dkl. run_code. reflexivity.
  - assert (E : length dkl = 15%nat) by lia. explode dkl. run_code. reflexivity.
Qed.

(** ** AESNI.c: the key schedules *)

Lemma loadu_ok (p : list byte) (off : Z) :
  0 <= off -> off + 16 <= Z.of_nat (length p) ->
  _mm_loadu_si128 p off =
  Ok (m128i_of_bytes (take 16 (drop (Z.to_nat off) p))).
Proof.
  intros H0 H1. unfold _mm_loadu_si128. now rewrite load_bytes_ok by lia.
Qed.

(** The encryption key setup fills the array it is given. *)
Lemma aes_key_setup_enc_ok (rk : list m128i) (key : list byte) (keylen nr : Z) :
  supported keylen nr ->
  Z.of_nat (length rk) = nr + 1 ->
  key_extent keylen <= Z.of_nat (length key) ->
  exists ekl, aes_key_setup_enc rk key keylen = Ok ekl /\ length ekl = length rk.
Proof.
  intros [[-> ->] | [[-> ->] | [-> ->]]] Hlen Hkey; cbn in Hkey;
    unfold aes_key_setup_enc, assign_key.
  - assert (E : length rk = 11%nat) by lia. clear Hlen. explode rk.
    rewrite loadu_ok by lia. generalize (m128i_of_bytes (take 16 (drop (Z.to_nat 0) key))).
    intros k0. run_code. eexists. split; reflexivity.
  - assert (E : length rk = 13%nat) by lia. clear Hlen. explode rk.
    rewrite !loadu_ok by lia.
    generalize (m128i_of_bytes (take 16 (drop (Z.to_nat 0) key))),
               (m128i_of_bytes (take 16 (drop (Z.to_nat 16) key))).
    intros k0 k1. run_code. eexists. split; reflexivity.
  - assert (E : length rk = 15%nat) by lia. clear Hlen. explode rk.
    rewrite !loadu_ok by lia.
    generalize (m128i_of_bytes (take 16 (drop (Z.to_nat 0) key))),
               (m128i_of_bytes (take 16 (drop (Z.to_nat 16) key))).
    intros k0 k1. run_code. eexists. split; reflexivity.
Qed.

(** The schedule in the words of the spec, between its two ends. *)
Lemma reversed_schedule_ends (k0 kn : m128i) (mid : list m128i) :
  reversed_schedule (k0 :: mid ++ [kn]) =
  kn :: map InvMixColumns (reverse mid) ++ [k0].
Proof.
  unfold reversed_schedule.
  rewrite reverse_cons, reverse_snoc. cbn [app length].
  replace (S (length (mid ++ [kn])) - 1)%nat with (S (length mid))
    by (rewrite length_app; cbn; lia).
  rewrite imap_cons. cbn [Nat.eqb orb]. f_equal.
  rewrite imap_app. f_equal.
  - rewrite <- (imap_const InvMixColumns). apply imap_ext.
    intros i x Hi. apply lookup_lt_Some in Hi. rewrite length_reverse in Hi.
    cbn [compose Nat.eqb orb]. unfold const.
    destruct (Nat.eqb_spec i (length mid)); [lia|reflexivity].
  - cbn [imap compose]. rewrite length_reverse, Nat.add_0_r.
    cbn [Nat.eqb orb]. now rewrite Nat.eqb_refl.
Qed.

Lemma reversed_schedule_lookup (ekl : list m128i) (j : nat) :
  (j < length ekl)%nat ->
  reversed_schedule ekl !! j =
  (fun k => if (j =? 0)%nat || (j =? length ekl - 1)%nat then k
            else InvMixColumns k) <$> ekl !! (length ekl - 1 - j)%nat.
Proof.
  intros Hj. unfold reversed_schedule.
  rewrite list_lookup_imap, reverse_lookup by assumption.
  now replace (length ekl - S j)%nat with (length ekl - 1 - j)%nat by lia.
Qed.

Lemma length_reversed_schedule (ekl : list m128i) :
  length (reversed_schedule ekl) = length ekl.
Proof. unfold reversed_schedule. now rewrite length_imap, length_reverse. Qed.

Lemma ends_of_list {A} (l : list A) :
  (2 <= length l)%nat -> exists a mid z, l = a :: mid ++ [z].
Proof.
  intros Hl. destruct l as [|a l]; [cbn in Hl; lia|].
  destruct (exists_last (l := l)) as [mid [z ->]].
  - intros ->. cbn in Hl. lia.
  - now exists a, mid, z.
Qed.

(** The decryption key setup computes the schedule of the spec. *)
Lemma aes_key_setup_dec_spec (dkl ekl : list m128i) (nr : Z) :
  nr = 10 \/ nr = 12 \/ nr = 14 ->
  Z.of_nat (length ekl) = nr + 1 ->
  Z.of_nat (length dkl) = nr + 1 ->
  aes_key_setup_dec dkl ekl nr = Ok (reversed_schedule ekl).
Proof.
  intros [-> | [-> | ->]] He Hd.
  - assert (E : length ekl = 11%nat) by lia.
    assert (D : length dkl = 11%nat) by lia. clear He Hd.
    explode ekl. explode dkl. unfold aes_key_setup_dec, _mm_aesimc_si128.
    run_code. reflexivity.
  - assert (E : length ekl = 13%nat) by lia.
    assert (D : length dkl = 13%nat) by lia. clear He Hd.
    explode ekl. explode dkl. unfold aes_key_setup_dec, _mm_aesimc_si128.
    run_code. reflexivity.
  - assert (E : length ekl = 15%nat) by lia.
    assert (D : length dkl = 15%nat) by lia. clear He Hd.
    explode ekl. explode dkl. unfold aes_key_setup_dec, _mm_aesimc_si128.
    run_code. reflexivity.
Qed.

Lemma supported_rounds (keylen nr : Z) :
  supported keylen nr -> key_rounds keylen = Some nr /\ (nr = 10 \/ nr = 12 \/ nr = 14).
Proof. intros [[-> ->] | [[-> ->] | [-> ->]]]; cbn; auto. Qed.

(** With a supported key length, two successful allocations and the key
    readable, [block_init_aesni] installs both schedules. *)
Lemma block_init_aesni_ok (self : block_state) (key : list byte) (keylen nr : Z)
    (tek tdk : option (list m128i)) :
  supported keylen nr ->
  key_extent keylen <= Z.of_nat (length key) ->
  allocated (nr + 1) tek -> allocated (nr + 1) tdk ->
  exists ekl,
    block_init_aesni self key keylen tek tdk =
      Ok {| ek := Some ekl; dk := Some (reversed_schedule ekl); rounds := nr |} /\
    Z.of_nat (length ekl) = nr + 1.
Proof.
  intros Hs Hkey [ekb [-> Hekb]] [dkb [-> Hdkb]].
  destruct (supported_rounds _ _ Hs) as [Hr Hnr].
  destruct (aes_key_setup_enc_ok ekb key keylen nr Hs Hekb Hkey) as [ekl [He Hl]].
  exists ekl. unfold block_init_aesni. rewrite Hr, He. cbn [mbind res_bind].
  rewrite aes_key_setup_dec_spec by (assumption || lia).
  split; [reflexivity | lia].
Qed.

Lemma decrypt_encrypt_block (ekl : list m128i) (p : list byte) :
  (2 <= length ekl)%nat -> length p = 16%nat ->
  decrypt_block (reversed_schedule ekl) (encrypt_block ekl p) = p.
Proof.
  intros Hl Hp. destruct (ends_of_list ekl Hl) as [k0 [mid [kn ->]]].
  rewrite reversed_schedule_ends. unfold decrypt_block, encrypt_block, middle.
  cbn [hd List.tl]. rewrite !removelast_last, !app_comm_cons, !last_last.
  rewrite m128i_of_bytes_bytes.
  change (map InvMixColumns (reverse mid))
    with (map _mm_aesimc_si128 (reverse mid)).
  rewrite inv_cipher_cipher. now apply m128i_bytes_of_bytes.
Qed.

(** *** The schedule of a 24-byte key does not depend on what lies behind
    the key *)

Lemma low_eq_refl (a : m128i) : low_eq a a.
Proof. split; reflexivity. Qed.

Lemma shuffle_pd_0_low (a a' b b' : m128i) :
  low_eq a a' -> low_eq b b' -> shuffle_pd_si128 a b 0 = shuffle_pd_si128 a' b' 0.
Proof.
  intros [A0 A1] [B0 B1]. destruct a, a', b, b'. cbn in A0, A1, B0, B1.
  subst. reflexivity.
Qed.

Lemma shuffle_pd_1_low (a b b' : m128i) :
  low_eq b b' -> shuffle_pd_si128 a b 1 = shuffle_pd_si128 a b' 1.
Proof.
  intros [B0 B1]. destruct b, b'. cbn in B0, B1. subst. reflexivity.
Qed.

Lemma KEYEXP192_low (a b b' : m128i) (i : byte) :
  low_eq b b' -> KEYEXP192 a b i = KEYEXP192 a b' i.
Proof.
  intros [B0 B1]. destruct b, b'. cbn in B0, B1. subst. reflexivity.
Qed.

Lemma KEYEXP192_2_low (a b b' : m128i) :
  low_eq b b' -> low_eq (KEYEXP192_2 a b) (KEYEXP192_2 a b').
Proof.
  intros [B0 B1]. destruct b as [p0 p1 p2 p3], b' as [q0 q1 q2 q3].
  cbn in B0, B1. subst q0 q1.
  destruct p0, p1, p2, p3, q2, q3. split; reflexivity.
Qed.

(** Move a difference confined to the high half one step down the key
    expansion. *)
Ltac push_low :=
  match goal with
  | E : low_eq ?a ?a' |- _ =>
      repeat rewrite (KEYEXP192_low _ a a' _ E);
      repeat rewrite (shuffle_pd_1_low _ a a' E);
      repeat rewrite (shuffle_pd_0_low a a' _ _ E (low_eq_refl _));
      first [ reflexivity
            | match goal with
              | |- context [KEYEXP192_2 ?x a] =>
                  let E' := fresh "E" in
                  pose proof (KEYEXP192_2_low x a a' E) as E';
                  generalize dependent (KEYEXP192_2 x a);
                  generalize (KEYEXP192_2 x a'); clear E; intros ? ? ?
              end ]
  end.

Lemma key192_schedule_ignores_tail (rk : list m128i) (key tail tail' : list byte) :
  length rk = 13%nat -> length key = 24%nat ->
  length tail = 8%nat -> length tail' = 8%nat ->
  aes_key_setup_enc rk (key ++ tail) 24 = aes_key_setup_enc rk (key ++ tail') 24.
Proof.
  intros Hr Hk Ht Ht'. explode rk.
  unfold aes_key_setup_enc, assign_key.
  rewrite !loadu_ok by (rewrite ?length_app; lia).
  assert (E0 : m128i_of_bytes (take 16 (drop (Z.to_nat 0) (key ++ tail))) =
               m128i_of_bytes (take 16 (drop (Z.to_nat 0) (key ++ tail'))))
    by (explode key; reflexivity).
  assert (E1 : low_eq (m128i_of_bytes (take 16 (drop (Z.to_nat 16) (key ++ tail))))
                      (m128i_of_bytes (take 16 (drop (Z.to_nat 16) (key ++ tail')))))
    by (explode key; explode tail; explode tail'; split; reflexivity).
  rewrite E0.
  generalize dependent (m128i_of_bytes (take 16 (drop (Z.to_nat 16) (key ++ tail)))).
  generalize (m128i_of_bytes (take 16 (drop (Z.to_nat 16) (key ++ tail')))).
  generalize (m128i_of_bytes (take 16 (drop (Z.to_nat 0) (key ++ tail')))).
  intros k0 k1' k1 E1. run_code.
  repeat push_low.
Qed.

Lemma key_extent_readable (key tail : list byte) (keylen nr : Z) :
  supported keylen nr ->
  Z.of_nat (length key) = keylen ->
  (keylen = 24 -> 8 <= Z.of_nat (length tail)) ->
  key_extent keylen <= Z.of_nat (length (key ++ tail)).
Proof.
  intros [[-> ->] | [[-> ->] | [-> ->]]] Hk Ht; rewrite length_app; cbn; lia.
Qed.

(** C1, at the input where the code leaves it.  A key of 24 bytes in an
    array of 24 bytes, the length [block_init_aesni] is told: the key setup
    loads a second whole vector at [cipherKey+16], bytes 16 .. 31, and so
    reads eight bytes behind the key.  No schedule is derived, whatever the
    key and the context. *)
Theorem key192_setup_reads_past_key (self : block_state) (key : list byte)
    (tek tdk : option (list m128i)) :
  length key = 24%nat ->
  allocated (12 + 1) tek -> allocated (12 + 1) tdk ->
  block_init_aesni self key 24 tek tdk = Fault OutOfBounds /\
  _mm_loadu_si128 key 16 = Fault OutOfBounds.
Proof.
  intros Hk [ekb [-> Hekb]] [dkb [-> Hdkb]].
  assert (Hload : _mm_loadu_si128 key 16 = Fault OutOfBounds).
  { unfold _mm_loadu_si128, load_bytes. rewrite Hk. reflexivity. }
  split; [|exact Hload].
  unfold block_init_aesni. cbn [key_rounds].
  unfold aes_key_setup_enc, assign_key. rewrite Hload.
  rewrite loadu_ok by lia. cbn [mbind res_bind].
  assert (E : length ekb = 13%nat) by lia. explode ekb. reflexivity.
Qed.

(** X22.  For a key of 16 or 32 bytes, and for a key of 24 bytes with at
    least eight readable bytes behind it, and any 16-byte block [p]:
    encrypting [p] with the schedule [block_init_aesni] derives from the
    key and decrypting the result with the same schedule gives [p] back.
    [tail] is the memory behind the key: the setup of a 24-byte key loads
    two whole vectors at the key pointer, so eight bytes behind the key are
    read, whatever they hold. *)
Theorem encrypt_decrypt_roundtrip
    (self : block_state) (key tail : list byte) (keylen nr : Z)
    (tek tdk : option (list m128i)) (p out out' : list byte) :
  supported keylen nr ->
  Z.of_nat (length key) = keylen ->
  (keylen = 24 -> 8 <= Z.of_nat (length tail)) ->
  allocated (nr + 1) tek -> allocated (nr + 1) tdk ->
  length p = 16%nat -> length out = 16%nat -> length out' = 16%nat ->
  exists st c,
    block_init_aesni self (key ++ tail) keylen tek tdk = Ok st /\
    block_encrypt_aesni st p 0 out 0 = Ok c /\
    block_decrypt_aesni st c 0 out' 0 = Ok p.
Proof.
  intros Hs Hk Ht Hek Hdk Hp Ho Ho'.
  pose proof (key_extent_readable key tail keylen nr Hs Hk Ht) as Hx.
  destruct (block_init_aesni_ok self (key ++ tail) keylen nr tek tdk Hs Hx Hek Hdk)
    as [ekl [Hinit Hl]].
  destruct (supported_rounds _ _ Hs) as [_ Hnr].
  eexists. exists (encrypt_block ekl p). split; [exact Hinit|]. split.
  - rewrite (block_encrypt_aesni_spec _ ekl) by (cbn; auto).
    rewrite <- Hp at 1. rewrite load_bytes_all. cbn [mbind res_bind].
    apply store_bytes_all. now rewrite Ho.
  - rewrite (block_decrypt_aesni_spec _ (reversed_schedule ekl))
      by (cbn; rewrite ?length_reversed_schedule; auto).
    change 16%nat with (length (encrypt_block ekl p)) at 1.
    rewrite load_bytes_all. cbn [mbind res_bind].
    rewrite decrypt_encrypt_block by lia.
    apply store_bytes_all. now rewrite Hp, Ho'.
Qed.

(** C2.  For an encryption schedule of 11, 13 or 15 round keys, whatever
    key it was derived from, [aes_key_setup_dec] fills the decryption
    schedule with the encryption round keys in reverse order, the inverse
    column transform ([_mm_aesimc_si128]) applied to each of them except
    the first and the last, which are copied.  This is the decryption
    schedule [block_init_aesni] installs next to every encryption schedule
    it derives. *)
Theorem decryption_schedule_reversed (nr : Z) (ekl dkl : list m128i) :
  nr = 10 \/ nr = 12 \/ nr = 14 ->
  Z.of_nat (length ekl) = nr + 1 ->
  Z.of_nat (length dkl) = nr + 1 ->
  aes_key_setup_dec dkl ekl nr = Ok (reversed_schedule ekl) /\
  length (reversed_schedule ekl) = length ekl /\
  (forall j, 0 <= j <= nr ->
     reversed_schedule ekl !! Z.to_nat j =
     (if (j =? 0) || (j =? nr) then id else _mm_aesimc_si128)
       <$> ekl !! Z.to_nat (nr - j)) /\
  (forall (self : block_state) (key : list byte) (keylen : Z) (tek : list m128i),
     supported keylen nr ->
     aes_key_setup_enc tek key keylen = Ok ekl ->
     block_init_aesni self key keylen (Some tek) (Some dkl) =
     Ok {| ek := Some ekl; dk := Some (reversed_schedule ekl); rounds := nr |}).
Proof.
  intros Hnr Hl Hd.
  pose proof (aes_key_setup_dec_spec dkl ekl nr Hnr Hl Hd) as Hdec.
  split; [exact Hdec|]. split; [apply length_reversed_schedule|]. split.
  - intros j Hj. rewrite reversed_schedule_lookup by lia.
    replace (length ekl - 1 - Z.to_nat j)%nat with (Z.to_nat (nr - j)) by lia.
    destruct (ekl !! Z.to_nat (nr - j)) as [k|]; [|reflexivity].
    cbn [fmap option_fmap option_map]. f_equal.
    destruct (Z.eqb_spec j 0) as [->|Hj0]; [reflexivity|].
    destruct (Z.eqb_spec j nr) as [->|Hjn].
    + replace (Z.to_nat nr =? length ekl - 1)%nat with true
        by (symmetry; apply Nat.eqb_eq; lia).
      now rewrite orb_true_r.
    + replace (Z.to_nat j =? 0)%nat with false
        by (symmetry; apply Nat.eqb_neq; lia).
      replace (Z.to_nat j =? length ekl - 1)%nat with false
        by (symmetry; apply Nat.eqb_neq; lia).
      reflexivity.
  - intros self key keylen tek Hs Henc.
    destruct (supported_rounds _ _ Hs) as [Hr _].
    unfold block_init_aesni. rewrite Hr, Henc. cbn [mbind res_bind].
    now rewrite Hdec.
Qed.

Lemma key_rounds_unsupported (keylen : Z) :
  keylen <> 16 -> keylen <> 24 -> keylen <> 32 -> key_rounds keylen = None.
Proof.
  intros H16 H24 H32. unfold key_rounds.
  destruct keylen as [|q|q]; try reflexivity.
  do 6 (try destruct q as [q|q|]; try reflexivity); congruence.
Qed.

(** C10, as the code has it.  With a key length other than 16, 24 or 32
    [block_init_aesni] derives no schedule: it returns at once and leaves
    the context as it was.  The function is [void]; nothing tells the
    caller that the length was refused. *)
Theorem unsupported_key_length_leaves_context
    (self : block_state) (key : list byte) (keylen : Z)
    (tek tdk : option (list m128i)) :
  keylen <> 16 -> keylen <> 24 -> keylen <> 32 ->
  block_init_aesni self key keylen tek tdk = Ok self.
Proof.
  intros H16 H24 H32. unfold block_init_aesni.
  now rewrite key_rounds_unsupported.
Qed.

(** The model against the known answers of FIPS-197, appendix C. *)
Example fips197_aes128 :
  (st ← block_init_aesni blank_state kat_key128 16 (fresh 11) (fresh 11);
   block_encrypt_aesni st kat_plain 0 out16 0) =
  Ok [x69; xc4; xe0; xd8; x6a; x7b; x04; x30; xd8; xcd; xb7; x80; x70; xb4; xc5; x5a].
Proof. vm_compute. reflexivity. Qed.

Example fips197_aes192 :
  (st ← block_init_aesni blank_state (kat_key192 ++ replicate 8 xff) 24 (fresh 13) (fresh 13);
   block_encrypt_aesni st kat_plain 0 out16 0) =
  Ok [xdd; xa9; x7c; xa4; x86; x4c; xdf; xe0; x6e; xaf; x70; xa0; xec; x0d; x71; x91].
Proof. vm_compute. reflexivity. Qed.

Example fips197_aes256 :
  (st ← block_init_aesni blank_state kat_key256 32 (fresh 15) (fresh 15);
   block_encrypt_aesni st kat_plain 0 out16 0) =
  Ok [x8e; xa2; xb7; xca; x51; x67; x45; xbf; xea; xfc; x49; x90; x4b; x49; x60; x89].
Proof. vm_compute. reflexivity. Qed.

(** A 24-byte key with nothing readable behind it: the second vector load
    of the key setup leaves the key. *)
Example key192_second_load :
  block_init_aesni blank_state kat_key192 24 (fresh 13) (fresh 13) =
  Fault OutOfBounds.
Proof. vm_compute. reflexivity. Qed.

(** The 192-bit key of FIPS-197 in an array of its own. *)
Lemma key192_setup_reads_past_key_witness :
  block_init_aesni blank_state kat_key192 24 (fresh 13) (fresh 13) =
    Fault OutOfBounds /\
  _mm_loadu_si128 kat_key192 16 = Fault OutOfBounds.
Proof.
  apply (key192_setup_reads_past_key blank_state kat_key192 (fresh 13) (fresh 13)).
  - reflexivity.
  - eexists; split; reflexivity.
  - eexists; split; reflexivity.
Defined.

(** The round trip at the 192-bit key of FIPS-197, with eight bytes behind
    it. *)
Lemma encrypt_decrypt_roundtrip_witness :
  exists st c,
    block_init_aesni blank_state (kat_key192 ++ replicate 8 xff) 24
                     (fresh 13) (fresh 13) = Ok st /\
    block_encrypt_aesni st kat_plain 0 out16 0 = Ok c /\
    block_decrypt_aesni st c 0 out16 0 = Ok kat_plain.
Proof.
  apply (encrypt_decrypt_roundtrip blank_state kat_key192 (replicate 8 xff) 24 12).
  - right; left; split; reflexivity.
  - reflexivity.
  - intros _. cbn. lia.
  - eexists; split; reflexivity.
  - eexists; split; reflexivity.
  - reflexivity.
  - reflexivity.
  - reflexivity.
Defined.

(** The two schedules of the 128-bit key of FIPS-197. *)
Lemma decryption_schedule_reversed_witness :
  let ekl := default [] (ek kat_state) in
  let dkl := replicate 11 zero128 in
  aes_key_setup_dec dkl ekl 10 = Ok (reversed_schedule ekl) /\
  length (reversed_schedule ekl) = length ekl /\
  (forall j, 0 <= j <= 10 ->
     reversed_schedule ekl !! Z.to_nat j =
     (if (j =? 0) || (j =? 10) then id else _mm_aesimc_si128)
       <$> ekl !! Z.to_nat (10 - j)) /\
  (forall (self : block_state) (key : list byte) (keylen : Z) (tek : list m128i),
     supported keylen 10 ->
     aes_key_setup_enc tek key keylen = Ok ekl ->
     block_init_aesni self key keylen (Some tek) (Some dkl) =
     Ok {| ek := Some ekl; dk := Some (reversed_schedule ekl); rounds := 10 |}).
Proof.
  apply (decryption_schedule_reversed 10 (default [] (ek kat_state))
           (replicate 11 zero128)).
  - left. reflexivity.
  - vm_compute. reflexivity.
  - reflexivity.
Defined.

(** C10 as the spec words it does not hold: a call with a 17-byte key does
    not fail, it returns with the context it was given. *)
Lemma key_length_17_not_refused :
  block_init_aesni blank_state (replicate 17 xff) 17 (fresh 11) (fresh 11) =
    Ok blank_state /\
  forall f, block_init_aesni blank_state (replicate 17 xff) 17 (fresh 11) (fresh 11)
            <> Fault f.
Proof. split; [reflexivity | intros f E; discriminate E]. Qed.

(** A key length of 17. *)
Lemma unsupported_key_length_witness :
  block_init_aesni blank_state (replicate 17 xff) 17 (fresh 11) (fresh 11) =
  Ok blank_state.
Proof.
  apply (unsupported_key_length_leaves_context blank_state (replicate 17 xff) 17);
    intros E; discriminate E.
Defined.

(** ** The packet codec *)

Section Codec.
Context `{PortableAES}.

Lemma load_lookup {A} (a : list A) (i : nat) (x : A) :
  a !! i = Some x -> load a (Z.of_nat i) = Ok x.
Proof.
  intros E. unfold load.
  destruct (Z.ltb_spec (Z.of_nat i) 0); [lia|]. now rewrite Nat2Z.id, E.
Qed.

Lemma store_lookup {A} (a : list A) (i : nat) (x : A) :
  (i < length a)%nat -> store a (Z.of_nat i) x = Ok (<[i := x]> a).
Proof.
  intros Hi. unfold store.
  destruct (Z.leb_spec 0 (Z.of_nat i)); [|lia].
  destruct (Z.ltb_spec (Z.of_nat i) (Z.of_nat (length a))); [|lia].
  now rewrite Nat2Z.id.
Qed.

Lemma length_ecb (D : list byte -> list byte) (n : nat) (l : list byte) :
  (forall blk, length (D blk) = 16%nat) -> length (ecb D n l) = (16 * n)%nat.
Proof.
  intros HD. revert l. induction n as [|n IH]; intros l; cbn [ecb].
  - reflexivity.
  - rewrite length_app, HD, IH. lia.
Qed.

(** The loop of [decrypt_aes128cbc] after [n] more blocks from offset [i]. *)
Lemma decrypt_loop (g : globals) (D : list byte -> list byte) (pin : list byte)
    (off : Z) :
  backend_decrypts g D ->
  forall (n : nat) (i : Z) (pout : list byte),
    length pout = length pin ->
    0 <= off + i ->
    n = O \/ off + i + 16 * Z.of_nat n <= Z.of_nat (length pin) ->
    for_iter n i 16
      (fun i pout => block_decrypt g pin (off + i) pout (off + i)) pout =
    Ok (take (Z.to_nat (off + i)) pout ++
        ecb D n (drop (Z.to_nat (off + i)) pin) ++
        drop (Z.to_nat (off + i) + 16 * n) pout).
Proof.
  intros [HD Hb]. induction n as [|n IH]; intros i pout Hlen Hi Hn.
  - cbn [for_iter ecb app]. now rewrite Nat.mul_0_r, Nat.add_0_r, take_drop.
  - destruct Hn as [Hn|Hn]; [discriminate Hn|].
    cbn [for_iter ecb]. rewrite Hb.
    rewrite load_bytes_ok by lia. cbn [mbind res_bind].
    rewrite store_bytes_ok by (rewrite ?HD; lia).
    cbn [mbind res_bind]. rewrite HD.
    rewrite IH.
    + replace (Z.to_nat (off + (i + 16))) with (Z.to_nat (off + i) + 16)%nat by lia.
      assert (Ha : (Z.to_nat (off + i) + 16 <= length pout)%nat) by lia.
      revert Ha. generalize (Z.to_nat (off + i)). intros a Ha.
      generalize (HD (take 16 (drop a pin))).
      generalize (D (take 16 (drop a pin))). intros blk Hblk.
      f_equal.
      rewrite (app_assoc (take a pout) blk).
      rewrite take_app_length' by (rewrite length_app, length_take_le; lia).
      rewrite drop_app_ge by (rewrite length_app, length_take_le; lia).
      rewrite length_app, length_take_le, Hblk by lia.
      rewrite <- !app_assoc. f_equal. f_equal.
      rewrite !drop_drop. do 2 f_equal. lia.
    + rewrite !length_app, length_take_le, length_drop, HD by lia. lia.
    + lia.
    + right. lia.
Qed.

Lemma load_at {A} (a : list A) (i : Z) (x : A) :
  0 <= i -> a !! Z.to_nat i = Some x -> load a i = Ok x.
Proof.
  intros Hi E. unfold load. destruct (Z.ltb_spec i 0); [lia|]. now rewrite E.
Qed.

Lemma store_at {A} (a : list A) (i : Z) (x : A) :
  0 <= i < Z.of_nat (length a) -> store a i x = Ok (<[Z.to_nat i := x]> a).
Proof.
  intros Hi. unfold store.
  destruct (Z.leb_spec 0 i); [|lia].
  destruct (Z.ltb_spec i (Z.of_nat (length a))); [|lia]. reflexivity.
Qed.

Lemma alter_insert {A} (f : A -> A) (l : list A) (i : nat) (x : A) :
  l !! i = Some x -> alter f i l = <[i := f x]> l.
Proof.
  intros E. apply list_eq. intros j. destruct (decide (i = j)) as [<-|Hij].
  - rewrite list_lookup_alter_eq, E. cbn.
    symmetry. apply list_lookup_insert_eq. now apply lookup_lt_Some in E.
  - now rewrite list_lookup_alter_ne, list_lookup_insert_ne.
Qed.

(** The number of whole blocks behind [offset]. *)
Lemma blocks_fit (offset : Z) :
  Z.quot (PACKETSIZE - offset) BLOCK_SIZE <= 0 \/
  (0 < Z.quot (PACKETSIZE - offset) BLOCK_SIZE /\
   offset + 16 * Z.quot (PACKETSIZE - offset) BLOCK_SIZE <= PACKETSIZE).
Proof.
  unfold PACKETSIZE, BLOCK_SIZE.
  destruct (Z_le_gt_dec offset 188) as [Hle|Hgt].
  - rewrite Z.quot_div_nonneg by lia.
    pose proof (Z.mul_div_le (188 - offset) 16 ltac:(lia)).
    pose proof (Z.div_pos (188 - offset) 16 ltac:(lia) ltac:(lia)). lia.
  - left. replace (188 - offset) with (- (offset - 188)) by lia.
    rewrite Z.quot_opp_l by lia.
    pose proof (Z.quot_pos (offset - 188) 16 ltac:(lia) ltac:(lia)). lia.
Qed.

Lemma payload_length_iterations (offset : Z) :
  Z.rem (payload_length offset) BLOCK_SIZE = 0 /\
  Z.to_nat ((payload_length offset - 0 + BLOCK_SIZE - 1) / BLOCK_SIZE) =
  Z.to_nat (Z.quot (PACKETSIZE - offset) BLOCK_SIZE).
Proof.
  unfold payload_length. split.
  - apply Z.rem_mul. discriminate.
  - f_equal. unfold BLOCK_SIZE.
    replace (Z.quot (PACKETSIZE - offset) 16 * 16 - 0 + 16 - 1)
      with (Z.quot (PACKETSIZE - offset) 16 * 16 + 15) by lia.
    rewrite Z.div_add_l by lia. change (15 / 16) with 0. lia.
Qed.

Lemma length_decoded (D : list byte -> list byte) (data : list byte) (offset : Z) :
  (forall blk, length (D blk) = 16%nat) ->
  Z.of_nat (length data) = PACKETSIZE -> 0 <= offset ->
  length (decoded D data offset) = length data.
Proof.
  intros HD Hlen Hoff. unfold decoded.
  rewrite !length_app, length_ecb, length_take, length_drop, length_alter by assumption.
  destruct (blocks_fit offset) as [Hq|[Hq Hfit]]; unfold PACKETSIZE in *; lia.
Qed.

(** A scrambled packet: what [decode_packet] does with payload offset
    [offset]. *)
Lemma decode_scrambled (g : globals) (D : list byte -> list byte)
    (data : list byte) (d3 : byte) (offset : Z) :
  backend_decrypts g D ->
  Z.of_nat (length data) = PACKETSIZE ->
  data !! 0%nat = Some x47 ->
  data !! 3%nat = Some d3 ->
  Z.land (byte_val d3) 0xC0 = 0xC0 \/ Z.land (byte_val d3) 0xC0 = 0x80 ->
  payload_offset data = Ok offset -> 0 <= offset ->
  decode_packet g data = Ok (0, decoded D data offset).
Proof.
  intros HB Hlen H0 H3 Hsc Hoff Hpos. unfold decode_packet.
  rewrite (load_at data 0 x47) by (lia || exact H0). cbn [mbind res_bind].
  change (negb (byte_val x47 =? 71)) with false. cbv iota.
  replace (Z.to_nat PACKETSIZE) with (length data) by lia.
  rewrite load_bytes_all. cbn [mbind res_bind].
  rewrite (load_at data 3 d3) by (lia || exact H3). cbn [mbind res_bind].
  replace (negb (Z.land (byte_val d3) 192 =? 192) &&
           negb (Z.land (byte_val d3) 192 =? 128)) with false
    by (destruct Hsc as [-> | ->]; reflexivity).
  rewrite Hoff. cbn [mbind res_bind].
  rewrite (store_at data 3) by (unfold PACKETSIZE in Hlen; lia).
  cbn [mbind res_bind]. change (Z.to_nat 3) with 3%nat.
  fold (clear_scrambling d3). rewrite <- (alter_insert clear_scrambling data 3 d3 H3).
  unfold decrypt_aes128cbc.
  destruct (payload_length_iterations offset) as [Hrem Hcount].
  rewrite Hrem. change (negb (0 =? 0)) with false. cbv iota.
  unfold for_loop. rewrite Hcount.
  rewrite (decrypt_loop g D data offset HB).
  - cbn [mbind res_bind]. rewrite Z.add_0_r.
    fold (decoded D data offset).
    rewrite store_bytes_all
      by (apply length_decoded; [apply HB | assumption | assumption]).
    reflexivity.
  - apply length_alter.
  - lia.
  - destruct (blocks_fit offset) as [Hq|[Hq Hfit]]; [left; lia | right].
    rewrite Z2Nat.id by lia. lia.
Qed.

Lemma payload_offset_plain (data : list byte) (d3 : byte) :
  data !! 3%nat = Some d3 -> Z.land (byte_val d3) 0x20 = 0 ->
  payload_offset data = Ok 4.
Proof.
  intros H3 Haf. unfold payload_offset.
  rewrite (load_at data 3 d3) by (lia || exact H3). cbn [mbind res_bind].
  now rewrite Haf.
Qed.

Lemma payload_offset_adaptation (data : list byte) (d3 d4 : byte) :
  data !! 3%nat = Some d3 -> data !! 4%nat = Some d4 ->
  Z.land (byte_val d3) 0x20 <> 0 ->
  payload_offset data = Ok (4 + (byte_val d4 + 1)).
Proof.
  intros H3 H4 Haf. unfold payload_offset.
  rewrite (load_at data 3 d3) by (lia || exact H3). cbn [mbind res_bind].
  destruct (Z.eqb_spec (Z.land (byte_val d3) 32) 0) as [E|_]; [contradiction|].
  cbn [negb]. now rewrite (load_at data 4 d4) by (lia || exact H4).
Qed.

Lemma byte_val_range (b : byte) : 0 <= byte_val b < 256.
Proof.
  unfold byte_val. pose proof (Byte.to_N_bounded b). lia.
Qed.

Lemma clear_scrambling_cleared (b : byte) :
  Z.land (byte_val (clear_scrambling b)) 0xC0 = 0.
Proof. destruct b; reflexivity. Qed.

Lemma byte_val_sync (b : byte) : byte_val b = 0x47 -> b = x47.
Proof. destruct b; intros E; try discriminate E; reflexivity. Qed.

(** A packet that is not scrambled, or does not start with the sync byte:
    [decode_packet] returns 1 and leaves it alone. *)
Lemma decode_not_sync (g : globals) (data : list byte) (d0 : byte) :
  data !! 0%nat = Some d0 -> d0 <> x47 -> decode_packet g data = Ok (1, data).
Proof.
  intros H0 Hne. unfold decode_packet.
  rewrite (load_at data 0 d0) by (lia || exact H0). cbn [mbind res_bind].
  destruct (Z.eqb_spec (byte_val d0) 71) as [E|_]; [|reflexivity].
  now apply byte_val_sync in E.
Qed.

Lemma decode_not_scrambled (g : globals) (data : list byte) (d3 : byte) :
  Z.of_nat (length data) = PACKETSIZE ->
  data !! 0%nat = Some x47 ->
  data !! 3%nat = Some d3 ->
  Z.land (byte_val d3) 0xC0 <> 0xC0 -> Z.land (byte_val d3) 0xC0 <> 0x80 ->
  decode_packet g data = Ok (1, data).
Proof.
  intros Hlen H0 H3 Hc0 H80. unfold decode_packet.
  rewrite (load_at data 0 x47) by (lia || exact H0). cbn [mbind res_bind].
  change (negb (byte_val x47 =? 71)) with false. cbv iota.
  replace (Z.to_nat PACKETSIZE) with (length data) by lia.
  rewrite load_bytes_all. cbn [mbind res_bind].
  rewrite (load_at data 3 d3) by (lia || exact H3). cbn [mbind res_bind].
  destruct (Z.eqb_spec (Z.land (byte_val d3) 192) 192) as [E|_]; [contradiction|].
  destruct (Z.eqb_spec (Z.land (byte_val d3) 192) 128) as [E|_]; [contradiction|].
  reflexivity.
Qed.

Lemma decode_packet_cases (g : globals) (D : list byte -> list byte)
    (data : list byte) :
  backend_decrypts g D ->
  Z.of_nat (length data) = PACKETSIZE ->
  decode_packet g data = Ok (1, data) \/
  exists offset, 4 <= offset /\ payload_offset data = Ok offset /\
                 decode_packet g data = Ok (0, decoded D data offset).
Proof.
  intros HB Hlen. unfold PACKETSIZE in Hlen.
  destruct (lookup_lt_is_Some_2 data 0) as [d0 H0]; [lia|].
  destruct (lookup_lt_is_Some_2 data 3) as [d3 H3]; [lia|].
  destruct (lookup_lt_is_Some_2 data 4) as [d4 H4]; [lia|].
  destruct (Byte.byte_eq_dec d0 x47) as [->|Hne];
    [|left; now apply (decode_not_sync g data d0)].
  destruct (Z.eq_dec (Z.land (byte_val d3) 0xC0) 0xC0) as [Hc0|Hc0];
    [|destruct (Z.eq_dec (Z.land (byte_val d3) 0xC0) 0x80) as [H80|H80];
      [|left; now apply (decode_not_scrambled g data d3)]].
  all: right;
    destruct (Z.eq_dec (Z.land (byte_val d3) 0x20) 0) as [Haf|Haf];
    [ exists 4; split; [lia|]; split;
      [ now apply (payload_offset_plain data d3)
      | apply (decode_scrambled g D data d3); auto;
        [now apply (payload_offset_plain data d3) | lia] ]
    | exists (4 + (byte_val d4 + 1)); pose proof (byte_val_range d4);
      split; [lia|]; split;
      [ now apply (payload_offset_adaptation data d3 d4)
      | apply (decode_scrambled g D data d3); auto;
        [now apply (payload_offset_adaptation data d3 d4) | lia] ] ].
Qed.

(** C4, as the code has it.  A packet that starts with 0x47, has
    scrambling-control bits 11 and no adaptation field: [decode_packet]
    decrypts 176 bytes, the 11 whole blocks from offset 4, in place, leaves
    the last 8 bytes as they were and clears the scrambling-control bits
    of byte 3. *)
Theorem decode_without_adaptation_field (g : globals) (D : list byte -> list byte)
    (data : list byte) (d3 : byte) :
  backend_decrypts g D ->
  Z.of_nat (length data) = PACKETSIZE ->
  data !! 0%nat = Some x47 ->
  data !! 3%nat = Some d3 ->
  Z.land (byte_val d3) 0xC0 = 0xC0 ->
  Z.land (byte_val d3) 0x20 = 0 ->
  decode_packet g data =
    Ok (0, take 3 data ++ [clear_scrambling d3] ++
           ecb D 11 (drop 4 data) ++ drop 180 data) /\
  Z.land (byte_val (clear_scrambling d3)) 0xC0 = 0.
Proof.
  intros HB Hlen H0 H3 Hsc Haf. split; [|apply clear_scrambling_cleared].
  rewrite (decode_scrambled g D data d3 4 HB Hlen H0 H3 (or_introl Hsc)
             (payload_offset_plain data d3 H3 Haf) ltac:(lia)).
  unfold decoded.
  change (Z.to_nat ((PACKETSIZE - 4) `quot` BLOCK_SIZE)) with 11%nat.
  change (Z.to_nat 4) with 4%nat. change (4 + 16 * 11)%nat with 180%nat.
  rewrite drop_alter_lt by lia. rewrite take_alter_lt by lia.
  assert (E : alter clear_scrambling 3%nat (take 4 data) =
              take 3 data ++ [clear_scrambling d3]).
  { unfold PACKETSIZE in Hlen.
    destruct data as [|a0 [|a1 [|a2 [|a3 rest]]]]; try (cbn in Hlen; lia).
    cbn in H3. injection H3 as ->. reflexivity. }
  now rewrite E, <- app_assoc.
Qed.

(** C5.  A packet that starts with 0x47, is scrambled (bits 10 or 11) and
    has the adaptation-field bit set, with length byte [d4] at offset 4:
    the payload offset is [4 + 1 + d4]; [decode_packet] decrypts in place
    the whole 16-byte blocks between that offset and byte 188 and nothing
    else; what follows the last whole block is as it was.  With length 10
    these are 10 blocks, bytes 15 to 174, and the last 13 bytes are
    unchanged. *)
Theorem decode_with_adaptation_field (g : globals) (D : list byte -> list byte)
    (data : list byte) (d3 d4 : byte) :
  backend_decrypts g D ->
  Z.of_nat (length data) = PACKETSIZE ->
  data !! 0%nat = Some x47 ->
  data !! 3%nat = Some d3 ->
  data !! 4%nat = Some d4 ->
  Z.land (byte_val d3) 0xC0 = 0xC0 \/ Z.land (byte_val d3) 0xC0 = 0x80 ->
  Z.land (byte_val d3) 0x20 <> 0 ->
  let offset := 4 + 1 + byte_val d4 in
  let n := Z.to_nat (Z.quot (PACKETSIZE - offset) 16) in
  payload_offset data = Ok offset /\
  decode_packet g data =
    Ok (0, alter clear_scrambling 3%nat (take (Z.to_nat offset) data) ++
           ecb D n (drop (Z.to_nat offset) data) ++
           drop (Z.to_nat offset + 16 * n) data) /\
  (offset <= PACKETSIZE ->
   16 * Z.of_nat n <= PACKETSIZE - offset < 16 * (Z.of_nat n + 1)) /\
  (PACKETSIZE <= offset -> n = 0%nat) /\
  (byte_val d4 = 10 ->
   n = 10%nat /\ Z.to_nat offset = 15%nat /\ (Z.to_nat offset + 16 * n = 175)%nat).
Proof.
  intros HB Hlen H0 H3 H4 Hsc Haf offset n.
  pose proof (byte_val_range d4) as Hr.
  assert (Hoff : payload_offset data = Ok offset).
  { rewrite (payload_offset_adaptation data d3 d4 H3 H4 Haf).
    f_equal. unfold offset. lia. }
  split; [exact Hoff|]. split; [|split; [|split]].
  - rewrite (decode_scrambled g D data d3 offset HB Hlen H0 H3 Hsc Hoff)
      by (unfold offset; lia).
    unfold decoded. fold n.
    rewrite drop_alter_lt by (unfold offset; lia).
    rewrite take_alter_lt by (unfold offset; lia). reflexivity.
  - intros Hle. unfold n, PACKETSIZE in *.
    rewrite Z.quot_div_nonneg by lia.
    pose proof (Z.div_pos (188 - offset) 16 ltac:(lia) ltac:(lia)).
    rewrite Z2Nat.id by assumption.
    pose proof (Z.mul_div_le (188 - offset) 16 ltac:(lia)).
    pose proof (Z.mul_succ_div_gt (188 - offset) 16 ltac:(lia)). lia.
  - intros Hge. unfold n.
    destruct (blocks_fit offset) as [Hq|[Hq Hfit]]; unfold BLOCK_SIZE in *; lia.
  - intros E. unfold n, offset. rewrite E. repeat split.
Qed.

(** C6, as the code has it.  A packet that starts with 0x47 and has
    scrambling-control bits 00 or 01: [decode_packet] decrypts nothing,
    returns 1 and leaves all 188 bytes as they were. *)
Theorem decode_unscrambled_unchanged (g : globals) (data : list byte) (d3 : byte) :
  Z.of_nat (length data) = PACKETSIZE ->
  data !! 0%nat = Some x47 ->
  data !! 3%nat = Some d3 ->
  Z.land (byte_val d3) 0xC0 = 0 \/ Z.land (byte_val d3) 0xC0 = 0x40 ->
  decode_packet g data = Ok (1, data).
Proof.
  intros Hlen H0 H3 Hsc.
  apply (decode_not_scrambled g data d3 Hlen H0 H3); destruct Hsc as [-> | ->]; lia.
Qed.

(** C8.  A packet is an array of exactly 188 bytes, and any access outside
    an array is a fault; [decode_packet] never faults, whatever the packet
    and the adaptation-field length byte, so it reads and writes inside
    the packet only.  When the payload offset [4 + 1 + d4] reaches 188 or
    more, no byte is decrypted: only byte 3 changes. *)
Theorem decode_stays_in_packet (g : globals) (D : list byte -> list byte)
    (data : list byte) :
  backend_decrypts g D ->
  Z.of_nat (length data) = PACKETSIZE ->
  (exists r out, decode_packet g data = Ok (r, out) /\ length out = length data) /\
  (forall d3 d4,
     data !! 0%nat = Some x47 ->
     data !! 3%nat = Some d3 ->
     data !! 4%nat = Some d4 ->
     Z.land (byte_val d3) 0xC0 = 0xC0 \/ Z.land (byte_val d3) 0xC0 = 0x80 ->
     Z.land (byte_val d3) 0x20 <> 0 ->
     PACKETSIZE <= 4 + 1 + byte_val d4 ->
     decode_packet g data = Ok (0, alter clear_scrambling 3%nat data)).
Proof.
  intros HB Hlen. split.
  - destruct (decode_packet_cases g D data HB Hlen) as [E|[offset [Hoff [_ E]]]].
    + now exists 1, data.
    + exists 0, (decoded D data offset). split; [exact E|].
      apply length_decoded; [apply HB | assumption | lia].
  - intros d3 d4 H0 H3 H4 Hsc Haf Hge.
    pose proof (byte_val_range d4) as Hr.
    rewrite (decode_scrambled g D data d3 (4 + (byte_val d4 + 1)) HB Hlen H0 H3 Hsc)
      by (lia || now apply (payload_offset_adaptation data d3 d4)).
    unfold decoded.
    destruct (blocks_fit (4 + (byte_val d4 + 1))) as [Hq|[Hq Hfit]]; [|lia].
    replace (Z.to_nat ((PACKETSIZE - (4 + (byte_val d4 + 1))) `quot` BLOCK_SIZE))
      with 0%nat by lia.
    cbn [ecb app]. now rewrite Nat.mul_0_r, Nat.add_0_r, take_drop.
Qed.

End Codec.

(** The hardware backend, once initialised, decrypts in the sense of
    [backend_decrypts]. *)
Lemma aesni_backend `{PortableAES} (g : globals) :
  enable_aesni g <> 0 -> initialised (state g) ->
  backend_decrypts g (decrypt_block (default [] (dk (state g)))).
Proof.
  intros Hen [ekl [dkl [Hek [Hdk [Hr [Hl ->]]]]]]. split.
  - intros blk. apply length_m128i_bytes.
  - intros pin i pout j. unfold block_decrypt.
    destruct (Z.eqb_spec (enable_aesni g) 0) as [E|_]; [contradiction|].
    cbn [negb]. rewrite Hdk. cbn [default].
    apply (block_decrypt_aesni_spec (state g) (reversed_schedule ekl));
      [exact Hdk | exact Hr | rewrite length_reversed_schedule; exact Hl].
Qed.

Lemma kat_state_initialised : initialised kat_state.
Proof.
  destruct (block_init_aesni_ok blank_state kat_key128 16 10 (fresh 11) (fresh 11))
    as [ekl [E Hl]].
  - left; split; reflexivity.
  - cbn. lia.
  - eexists; split; reflexivity.
  - eexists; split; reflexivity.
  - unfold kat_state. rewrite E. exists ekl, (reversed_schedule ekl).
    cbn [ek dk rounds]. repeat split; auto.
Qed.

Lemma kat_backend : @backend_decrypts no_portable_aes kat_globals kat_D.
Proof.
  apply (@aesni_backend no_portable_aes kat_globals).
  - discriminate.
  - exact kat_state_initialised.
Qed.

(** A packet with scrambling bits 11 and no adaptation field, under the
    hardware backend. *)
Lemma decode_without_adaptation_field_witness :
  @decode_packet no_portable_aes kat_globals pkt_odd =
    Ok (0, take 3 pkt_odd ++ [clear_scrambling xc0] ++
           ecb kat_D 11 (drop 4 pkt_odd) ++ drop 180 pkt_odd) /\
  Z.land (byte_val (clear_scrambling xc0)) 0xC0 = 0.
Proof.
  apply (@decode_without_adaptation_field no_portable_aes kat_globals kat_D pkt_odd xc0).
  - exact kat_backend.
  - reflexivity.
  - reflexivity.
  - reflexivity.
  - reflexivity.
  - reflexivity.
Defined.

(** C4 as the spec words it does not hold: of the 184 bytes behind the header
    only 176 are handed to the cipher, and the last 8 bytes of the packet
    come out as they went in. *)
Lemma decode_184_bytes_counterexample :
  exists out,
    @decode_packet no_portable_aes kat_globals pkt_odd = Ok (0, out) /\
    take 176 (drop 4 out) = ecb kat_D 11 (drop 4 pkt_odd) /\
    drop 180 out = drop 180 pkt_odd /\
    payload_length 4 = 176 /\ payload_length 4 <> 184.
Proof.
  eexists. split; [vm_compute; reflexivity|].
  split; [vm_compute; reflexivity|].
  split; [vm_compute; reflexivity|].
  split; [reflexivity | discriminate].
Qed.

(** A packet with scrambling bits 10 and an adaptation field of length 10. *)
Lemma decode_with_adaptation_field_witness :
  let offset := 4 + 1 + byte_val x0a in
  let n := Z.to_nat (Z.quot (PACKETSIZE - offset) 16) in
  payload_offset pkt_even_af = Ok offset /\
  @decode_packet no_portable_aes kat_globals pkt_even_af =
    Ok (0, alter clear_scrambling 3%nat (take (Z.to_nat offset) pkt_even_af) ++
           ecb kat_D n (drop (Z.to_nat offset) pkt_even_af) ++
           drop (Z.to_nat offset + 16 * n) pkt_even_af) /\
  (offset <= PACKETSIZE ->
   16 * Z.of_nat n <= PACKETSIZE - offset < 16 * (Z.of_nat n + 1)) /\
  (PACKETSIZE <= offset -> n = 0%nat) /\
  (byte_val x0a = 10 ->
   n = 10%nat /\ Z.to_nat offset = 15%nat /\ (Z.to_nat offset + 16 * n = 175)%nat).
Proof.
  apply (@decode_with_adaptation_field no_portable_aes kat_globals kat_D
           pkt_even_af xa0 x0a).
  - exact kat_backend.
  - reflexivity.
  - reflexivity.
  - reflexivity.
  - reflexivity.
  - right. reflexivity.
  - discriminate.
Defined.

(** C6 as the spec words it does not hold: for an unscrambled packet
    [decode_packet] returns 1, the value it also returns for a packet
    without sync byte, not the 0 it returns after decrypting. *)
Lemma decode_unscrambled_counterexample :
  @decode_packet no_portable_aes kat_globals pkt_clear = Ok (1, pkt_clear) /\
  @decode_packet no_portable_aes kat_globals pkt_clear <> Ok (0, pkt_clear).
Proof.
  assert (E : @decode_packet no_portable_aes kat_globals pkt_clear = Ok (1, pkt_clear))
    by (vm_compute; reflexivity).
  split; [exact E|]. rewrite E. discriminate.
Qed.

(** A packet with scrambling bits 00. *)
Lemma decode_unscrambled_unchanged_witness :
  @decode_packet no_portable_aes kat_globals pkt_clear = Ok (1, pkt_clear).
Proof.
  apply (@decode_unscrambled_unchanged no_portable_aes kat_globals pkt_clear x10).
  - reflexivity.
  - reflexivity.
  - reflexivity.
  - left. reflexivity.
Defined.

(** A packet whose adaptation field length, 255, points far behind the
    packet. *)
Lemma decode_stays_in_packet_witness :
  (exists r out,
     @decode_packet no_portable_aes kat_globals pkt_long_af = Ok (r, out) /\
     length out = length pkt_long_af) /\
  @decode_packet no_portable_aes kat_globals pkt_long_af =
    Ok (0, alter clear_scrambling 3%nat pkt_long_af).
Proof.
  destruct (@decode_stays_in_packet no_portable_aes kat_globals kat_D pkt_long_af)
    as [Hsafe Hnone].
  - exact kat_backend.
  - reflexivity.
  - split; [exact Hsafe|].
    apply (Hnone xa0 xff).
    + reflexivity.
    + reflexivity.
    + reflexivity.
    + right. reflexivity.
    + discriminate.
    + unfold PACKETSIZE. cbn. lia.
Defined.

(** ** Key provisioning *)

(** The loop of [readdrmkey] on a container whose bytes 8 .. 23 are [src]:
    whatever the key buffer held before, it ends up holding [src] with each
    group of four reversed. *)
Lemma read_key_bytes_permutes (pre src post drmkey : list byte) :
  length pre = 8%nat -> length src = 16%nat -> length drmkey = 16%nat ->
  read_key_bytes 16 0 {| content := pre ++ src ++ post; pos := 8 |} drmkey =
  Ok (Some (reverse_groups src)).
Proof.
  intros Hp Hs Hd. explode pre. explode src. explode drmkey.
  vm_compute. reflexivity.
Qed.

Lemma reverse_groups_lookup (src : list byte) (j : Z) :
  length src = 16%nat -> 0 <= j < 16 ->
  reverse_groups src !! Z.to_nat (Z.land j 0xC + (3 - Z.land j 3)) =
  src !! Z.to_nat j.
Proof.
  intros Hs Hj. explode src.
  assert (C : j = 0 \/ j = 1 \/ j = 2 \/ j = 3 \/ j = 4 \/ j = 5 \/ j = 6 \/
              j = 7 \/ j = 8 \/ j = 9 \/ j = 10 \/ j = 11 \/ j = 12 \/
              j = 13 \/ j = 14 \/ j = 15) by lia.
  repeat (destruct C as [-> | C]; [reflexivity|]). subst j. reflexivity.
Qed.

Section KeyProvisioning.
Context `{PortableAES} `{Allocator}.

(** C3.  A key container that can be opened and holds at least 16 bytes
    behind offset 8: [readdrmkey] puts source byte [j], read in order from
    offset 8, at position [(j & 0xC) + (3 - (j & 3))] of the key buffer, so
    the key is the source with each group of four bytes reversed, and hands
    this key to the cipher; source bytes 0 .. 15 give
    3,2,1,0,7,6,5,4,11,10,9,8,15,14,13,12. *)
Theorem key_extraction_order (w : world) (g : globals) (mdbfile : string)
    (bytes : list byte) :
  files w !! canon w mdbfile = Some bytes ->
  (8 + 16 <= length bytes)%nat ->
  let src := take 16 (drop 8 bytes) in
  let key := reverse_groups src in
  let blank := {| ek := None; dk := None; rounds := 10 |} in
  read_key_bytes 16 0 (fseek_set {| content := bytes; pos := 0 |} 8)
                 (replicate 16 x00) = Ok (Some key) /\
  (forall j, 0 <= j < 16 ->
     key !! Z.to_nat (Z.land j 0xC + (3 - Z.land j 3)) = src !! Z.to_nat j) /\
  readdrmkey w g mdbfile =
    (st ← (if negb (enable_aesni g =? 0)
           then block_init_aesni blank key BLOCK_SIZE
                  (aligned_malloc_wrapper 16 ((10 + 1) * 16))
                  (aligned_malloc_wrapper 16 ((10 + 1) * 16))
           else block_init_aes blank key BLOCK_SIZE);
     Ok (0, {| state := st; enable_aesni := enable_aesni g |})) /\
  (src = bytes_0_15 ->
   key = [x03; x02; x01; x00; x07; x06; x05; x04;
          x0b; x0a; x09; x08; x0f; x0e; x0d; x0c]).
Proof.
  intros Hf Hlen src key blank.
  assert (Hsrc : length src = 16%nat)
    by (unfold src; rewrite length_take, length_drop; lia).
  assert (Hread : read_key_bytes 16 0 (fseek_set {| content := bytes; pos := 0 |} 8)
                    (replicate 16 x00) = Ok (Some key)).
  { unfold fseek_set. cbn [content pos].
    rewrite <- (take_drop 8 bytes) at 1.
    rewrite <- (take_drop 16 (drop 8 bytes)) at 1.
    apply read_key_bytes_permutes;
      [rewrite length_take; lia | exact Hsrc | reflexivity]. }
  split; [exact Hread|]. split; [|split].
  - intros j Hj. now apply reverse_groups_lookup.
  - unfold readdrmkey, fopen_rb. rewrite Hf. cbn [mbind option_bind].
    cbn [enable_aesni state]. rewrite Hread. reflexivity.
  - intros E. unfold key. rewrite E. reflexivity.
Qed.

End KeyProvisioning.

(** A container of eight bytes followed by 0 .. 15. *)
Lemma key_extraction_order_witness :
  let w := world_with_key in
  let g := {| state := blank_state; enable_aesni := 1 |} in
  let bytes := replicate 8 xee ++ bytes_0_15 in
  let src := take 16 (drop 8 bytes) in
  let key := reverse_groups src in
  let blank := {| ek := None; dk := None; rounds := 10 |} in
  read_key_bytes 16 0 (fseek_set {| content := bytes; pos := 0 |} 8)
                 (replicate 16 x00) = Ok (Some key) /\
  (forall j, 0 <= j < 16 ->
     key !! Z.to_nat (Z.land j 0xC + (3 - Z.land j 3)) = src !! Z.to_nat j) /\
  @readdrmkey no_portable_aes zeroing_allocator w g "rec.mdb" =
    (st ← (if negb (enable_aesni g =? 0)
           then block_init_aesni blank key BLOCK_SIZE
                  (@aligned_malloc_wrapper zeroing_allocator 16 ((10 + 1) * 16))
                  (@aligned_malloc_wrapper zeroing_allocator 16 ((10 + 1) * 16))
           else @block_init_aes no_portable_aes blank key BLOCK_SIZE);
     Ok (0, {| state := st; enable_aesni := enable_aesni g |})) /\
  (src = bytes_0_15 ->
   key = [x03; x02; x01; x00; x07; x06; x05; x04;
          x0b; x0a; x09; x08; x0f; x0e; x0d; x0c]).
Proof.
  apply (@key_extraction_order no_portable_aes zeroing_allocator world_with_key
           {| state := blank_state; enable_aesni := 1 |} "rec.mdb"
           (replicate 8 xee ++ bytes_0_15)).
  - reflexivity.
  - cbn. lia.
Defined.

(** ** The synchroniser *)

Section Sync.
Context `{BufferIO}.

Lemma load_in_range {A} (a : list A) (i : Z) :
  0 <= i < Z.of_nat (length a) -> exists x, load a i = Ok x.
Proof.
  intros Hi. destruct (lookup_lt_is_Some_2 a (Z.to_nat i)) as [x E]; [lia|].
  exists x. apply load_at; [lia | exact E].
Qed.

Lemma sync_at_spec (pb : packetbuffer) (i : Z) :
  window_readable pb -> 0 <= i < scan_width ->
  sync_at pb i = Ok (triple_sync pb i).
Proof.
  intros [Hw0 Hw1] Hi. unfold scan_width, PACKETSIZE in Hi.
  unfold sync_at, triple_sync, marker, PACKETSIZE.
  destruct (load_in_range (buf pb) (workp pb + i)) as [a ->]; [lia|].
  destruct (load_in_range (buf pb) (workp pb + i + 188)) as [b Eb]; [lia|].
  destruct (load_in_range (buf pb) (workp pb + i + 188 + 188)) as [c Ec]; [lia|].
  replace (workp pb + (i + 188)) with (workp pb + i + 188) by lia.
  replace (workp pb + (i + 188 + 188)) with (workp pb + i + 188 + 188) by lia.
  rewrite Eb, Ec. cbn [mbind res_bind].
  destruct (byte_val a =? 71); [|reflexivity].
  destruct (byte_val b =? 71); reflexivity.
Qed.

(** A scan over a window without three aligned markers finds nothing and
    leaves the cursor. *)
Lemma sync_scan_none (pb : packetbuffer) :
  window_readable pb ->
  forall (n : nat) (i : Z),
    0 <= i -> i + Z.of_nat n <= scan_width ->
    (forall k, i <= k < i + Z.of_nat n -> triple_sync pb k = false) ->
    sync_scan n i pb = Ok (0, pb).
Proof.
  intros Hw. induction n as [|n IH]; intros i Hi Hn Hnone; [reflexivity|].
  cbn [sync_scan]. rewrite sync_at_spec by (assumption || lia).
  rewrite Hnone by lia. cbn [mbind res_bind].
  apply IH; [lia | lia |]. intros k Hk. apply Hnone. lia.
Qed.

(** A scan stops at the first offset with three aligned markers and moves
    the cursor there. *)
Lemma sync_scan_first (pb : packetbuffer) :
  window_readable pb ->
  forall (n : nat) (i m : Z),
    0 <= i <= m -> m < i + Z.of_nat n -> i + Z.of_nat n <= scan_width ->
    triple_sync pb m = true ->
    (forall k, i <= k < m -> triple_sync pb k = false) ->
    sync_scan n i pb = Ok (1, set_workp pb (workp pb + m)).
Proof.
  intros Hw. induction n as [|n IH]; intros i m Him Hm Hn Hhit Hnone; [lia|].
  cbn [sync_scan]. rewrite sync_at_spec by (assumption || lia).
  destruct (Z.eq_dec i m) as [->|Hne].
  - rewrite Hhit. reflexivity.
  - rewrite Hnone by lia. cbn [mbind res_bind].
    apply IH; [lia | lia | lia | exact Hhit |]. intros k Hk. apply Hnone. lia.
Qed.

Lemma scan_width_nonneg : 0 <= scan_width.
Proof. unfold scan_width. pose proof BUFFERSIZE_two_packets. lia. Qed.

Lemma after_reads_succ (k : nat) (pb : packetbuffer) :
  after_reads (S k) pb = after_reads k (pbread pb).
Proof. unfold after_reads. apply Nat.iter_succ_r. Qed.

Lemma sync_retry_none (retries : nat) :
  forall (reads : nat) (pb : packetbuffer),
    (forall k, (1 <= k <= retries)%nat ->
       window_readable (after_reads k pb) /\ no_sync_in (after_reads k pb)) ->
    sync_retry retries reads pb =
    Ok (0, after_reads retries pb, (reads + retries)%nat).
Proof.
  induction retries as [|r IH]; intros reads pb Hall.
  - cbn. now rewrite Nat.add_0_r.
  - cbn [sync_retry].
    destruct (Hall 1%nat ltac:(lia)) as [Hw Hnone].
    change (after_reads 1 pb) with (pbread pb) in Hw, Hnone.
    rewrite (sync_scan_none (pbread pb) Hw).
    + cbn [mbind res_bind]. change (negb (0 =? 0)) with false. cbv iota.
      rewrite IH.
      * rewrite after_reads_succ. do 2 f_equal. lia.
      * intros k Hk. rewrite <- after_reads_succ. apply Hall. lia.
    + lia.
    + pose proof scan_width_nonneg. unfold scan_width in *. lia.
    + intros k Hk. apply Hnone. pose proof scan_width_nonneg.
      unfold scan_width in *. lia.
Qed.

Lemma sync_retry_found (retries : nat) :
  forall (reads : nat) (pb : packetbuffer) (k : nat) (m : Z),
    (1 <= k <= retries)%nat ->
    (forall k', (1 <= k' <= k)%nat -> window_readable (after_reads k' pb)) ->
    (forall k', (1 <= k' < k)%nat -> no_sync_in (after_reads k' pb)) ->
    first_sync_at (after_reads k pb) m ->
    sync_retry retries reads pb =
    Ok (1, set_workp (after_reads k pb) (workp (after_reads k pb) + m),
        (reads + k)%nat).
Proof.
  induction retries as [|r IH]; intros reads pb k m Hk Hw Hnone Hfirst; [lia|].
  cbn [sync_retry].
  pose proof (Hw 1%nat ltac:(lia)) as Hw1.
  change (after_reads 1 pb) with (pbread pb) in Hw1.
  pose proof scan_width_nonneg as Hsw.
  destruct (Nat.eq_dec k 1%nat) as [->|Hk1].
  - change (after_reads 1 pb) with (pbread pb) in *.
    destruct Hfirst as [Hm [Hhit Hbefore]].
    rewrite (sync_scan_first (pbread pb) Hw1 _ 0 m);
      [| lia | unfold scan_width in *; lia | unfold scan_width in *; lia
       | exact Hhit | intros j Hj; apply Hbefore; lia].
    cbn [mbind res_bind]. change (negb (1 =? 0)) with true. cbv iota.
    do 2 f_equal. lia.
  - pose proof (Hnone 1%nat ltac:(lia)) as Hn1.
    change (after_reads 1 pb) with (pbread pb) in Hn1.
    rewrite (sync_scan_none (pbread pb) Hw1);
      [| lia | unfold scan_width in *; lia
       | intros j Hj; apply Hn1; unfold scan_width in *; lia].
    cbn [mbind res_bind]. change (negb (0 =? 0)) with false. cbv iota.
    destruct k as [|k]; [lia|]. rewrite after_reads_succ in Hfirst |- *.
    rewrite (IH (S reads) (pbread pb) k m).
    + do 2 f_equal. lia.
    + lia.
    + intros k' Hk'. rewrite <- after_reads_succ. apply Hw. lia.
    + intros k' Hk'. rewrite <- after_reads_succ. apply Hnone. lia.
    + exact Hfirst.
Qed.

(** C7.  The search reads, scans the window, and reads again while nothing
    is found.  When the window after the [k]-th read ([k <= 10]) is the
    first to hold three markers at the packet stride, the search locks at
    the smallest such offset [m] of that window: it reports sync, [k] reads
    were made, and the buffer is the one the [k]-th read left with the
    cursor [workp] moved on by [m] and nothing else changed.  When none of
    the ten windows holds such an offset, it reports no sync after exactly
    ten attempts, one read each, and the buffer is as the tenth read left
    it. *)
Theorem synchroniser_locks_or_gives_up (pb : packetbuffer) :
  (forall k, (1 <= k <= 10)%nat -> window_readable (after_reads k pb)) ->
  (forall (k : nat) (m : Z),
     (1 <= k <= 10)%nat ->
     (forall k', (1 <= k' < k)%nat -> no_sync_in (after_reads k' pb)) ->
     first_sync_at (after_reads k pb) m ->
     try_to_sync pb =
     Ok (1, {| fdread := fdread (after_reads k pb);
               fdwrite := fdwrite (after_reads k pb);
               buf := buf (after_reads k pb);
               workp := workp (after_reads k pb) + m;
               endp := endp (after_reads k pb);
               end_ := end_ (after_reads k pb) |}, k)) /\
  ((forall k, (1 <= k <= 10)%nat -> no_sync_in (after_reads k pb)) ->
   try_to_sync pb = Ok (0, after_reads 10 pb, 10%nat)).
Proof.
  intros Hw. split.
  - intros k m Hk Hnone Hfirst. unfold try_to_sync.
    rewrite (sync_retry_found 10 0 pb k m Hk); [reflexivity | | exact Hnone | exact Hfirst].
    intros k' Hk'. apply Hw. lia.
  - intros Hnone. unfold try_to_sync.
    apply (sync_retry_none 10 0 pb). intros k Hk. split; auto.
Qed.

End Sync.

Lemma forall_below (P : Z -> bool) (n : nat) :
  forallb P (map Z.of_nat (seq 0 n)) = true ->
  forall i, 0 <= i < Z.of_nat n -> P i = true.
Proof.
  intros Hall i Hi. rewrite forallb_forall in Hall. apply Hall.
  apply in_map_iff. exists (Z.to_nat i). split; [lia|].
  apply in_seq. lia.
Qed.

Lemma no_sync_by_scan `{BufferIO} (pb : packetbuffer) :
  forallb (fun i => negb (triple_sync pb i))
          (map Z.of_nat (seq 0 (Z.to_nat scan_width))) = true ->
  no_sync_in pb.
Proof.
  intros Hall i Hi.
  pose proof (forall_below _ _ Hall i ltac:(lia)) as E.
  now apply negb_true_iff in E.
Qed.

Ltac one_of_ten k Hk :=
  assert (k = 1 \/ k = 2 \/ k = 3 \/ k = 4 \/ k = 5 \/ k = 6 \/ k = 7 \/
          k = 8 \/ k = 9 \/ k = 10)%nat as Hcases by lia;
  clear Hk;
  repeat (destruct Hcases as [-> | Hcases]); [..| subst k].

(** Fifty bytes of garbage before three packets: the search locks at offset
    50 after one read.  A source without any marker: ten reads, no sync. *)
Lemma synchroniser_witness :
  @try_to_sync simple_io (source_pb garbage_then_packets) =
    Ok (1, {| fdread := fdread (@after_reads simple_io 1 (source_pb garbage_then_packets));
              fdwrite := fdwrite (@after_reads simple_io 1 (source_pb garbage_then_packets));
              buf := buf (@after_reads simple_io 1 (source_pb garbage_then_packets));
              workp := workp (@after_reads simple_io 1 (source_pb garbage_then_packets)) + 50;
              endp := endp (@after_reads simple_io 1 (source_pb garbage_then_packets));
              end_ := end_ (@after_reads simple_io 1 (source_pb garbage_then_packets)) |},
        1%nat) /\
  @try_to_sync simple_io (source_pb no_markers) =
    Ok (0, @after_reads simple_io 10 (source_pb no_markers), 10%nat).
Proof.
  split.
  - refine (proj1 (@synchroniser_locks_or_gives_up simple_io
                     (source_pb garbage_then_packets) _) 1%nat 50 _ _ _).
    + intros k Hk. one_of_ten k Hk; vm_compute; split; intros E; discriminate E.
    + lia.
    + intros k' Hk'. lia.
    + split; [vm_compute; split; [intros E; discriminate E | reflexivity]|].
      split; [vm_compute; reflexivity|].
      intros i Hi. apply negb_true_iff.
      apply (forall_below (fun i => negb (triple_sync _ i)) 50);
        [vm_compute; reflexivity | lia].
  - refine (proj2 (@synchroniser_locks_or_gives_up simple_io
                     (source_pb no_markers) _) _).
    + intros k Hk. one_of_ten k Hk; vm_compute; split; intros E; discriminate E.
    + intros k Hk. apply (@no_sync_by_scan simple_io).
      one_of_ten k Hk; vm_compute; reflexivity.
Defined.


(** ** The driver *)

Section Driver.
Context `{PortableAES} `{Allocator} `{BufferIO} `{PathLib}.

(** An unreadable key container is a hard failure of [decryptsrf]. *)
Lemma decryptsrf_without_key (fuel : nat) (w : world) (g : globals)
    (srffile outdir inffile mdbfile : string) :
  filename srffile (Some "inf"%string) = Ok inffile ->
  filename srffile (Some "mdb"%string) = Ok mdbfile ->
  files w !! canon w mdbfile = None ->
  decryptsrf fuel w g srffile outdir =
  Ok (1, w, {| state := {| ek := None; dk := None; rounds := 10 |};
               enable_aesni := enable_aesni g |}).
Proof.
  intros Hinf Hmdb Hnone. unfold decryptsrf. rewrite Hinf, Hmdb.
  cbn [mbind res_bind]. unfold readdrmkey, fopen_rb. rewrite Hnone. reflexivity.
Qed.

Lemma main_loop_stops (fuel : nat) (w w' : world) (g g' : globals)
    (srffile : string) (rest : list string) (outdir : string)
    (calls : list (string * Z)) (r : Z) :
  decryptsrf fuel w g srffile outdir = Ok (r, w', g') -> r <> 0 ->
  main_loop fuel w g (srffile :: rest) outdir calls =
  Ok (w', g', calls ++ [(srffile, r)]).
Proof.
  intros E Hr. cbn [main_loop]. rewrite E. cbn [mbind res_bind].
  destruct (Z.eqb_spec r 0) as [->|_]; [contradiction|]. reflexivity.
Qed.

Lemma main_loop_continues (fuel : nat) (w w' : world) (g g' : globals)
    (srffile : string) (rest : list string) (outdir : string)
    (calls : list (string * Z)) :
  decryptsrf fuel w g srffile outdir = Ok (0, w', g') ->
  main_loop fuel w g (srffile :: rest) outdir calls =
  main_loop fuel w' g' rest outdir (calls ++ [(srffile, 0)]).
Proof. intros E. cbn [main_loop]. rewrite E. reflexivity. Qed.

Lemma main_loop_after (fuel : nat) (outdir : string) (w : world) (g : globals)
    (before : list string) (w' : world) (g' : globals) :
  all_succeed fuel outdir w g before w' g' ->
  forall (rest : list string) (calls : list (string * Z)),
    main_loop fuel w g (before ++ rest) outdir calls =
    main_loop fuel w' g' rest outdir (calls ++ map (fun f => (f, 0)) before).
Proof.
  induction 1 as [w g | w g srffile w1 g1 before w' g' E _ IH]; intros rest calls.
  - cbn [app map]. now rewrite app_nil_r.
  - cbn [app map]. rewrite (main_loop_continues _ _ _ _ _ _ _ _ _ E), IH.
    now rewrite <- app_assoc.
Qed.

(** C9, as the code has it.  [main] reaches its loop with the recordings
    [before ++ srffile :: rest].  When the recordings before it have
    succeeded and [decryptsrf] fails on a recording (it returns nonzero:
    unreadable key container, or a source or destination that cannot be
    opened), the loop of [main] is left: none of the recordings behind it
    is processed, and [main] returns 0. *)
Theorem main_stops_at_first_failure (fuel : nat) (outdir : string)
    (w w1 w2 : world) (g0 g g1 g2 : globals) (c : Z)
    (opts : list (ascii * string)) (args : list string)
    (before : list string) (srffile : string) (rest : list string) (r : Z) :
  main_entry g0 c opts args = Ok (inr (g, outdir, before ++ srffile :: rest)) ->
  all_succeed fuel outdir w g before w1 g1 ->
  decryptsrf fuel w1 g1 srffile outdir = Ok (r, w2, g2) ->
  r <> 0 ->
  main fuel w g0 c opts args =
  Ok (0, w2, map (fun f => (f, 0)) before ++ [(srffile, r)]).
Proof.
  intros Hentry Hbefore E Hr. unfold main. rewrite Hentry. cbn [mbind res_bind].
  rewrite (main_loop_after _ _ _ _ _ _ _ Hbefore).
  rewrite (main_loop_stops _ _ _ _ _ _ rest _ _ _ E Hr). reflexivity.
Qed.

End Driver.

(** C9 as the spec words it does not hold: with the key container of the first
    recording missing, [decryptsrf] is called for the first recording only;
    the second, which on its own is processed to the end, is never
    started. *)
Lemma later_recording_not_processed :
  @main no_portable_aes zeroing_allocator simple_io cutting_dirname 100
        world_without_a start_globals cpu_with_aes [("o"%char, "out/"%string)]
        ["a.srf"; "b.srf"]%string =
    Ok (0, world_without_a, [("a.srf"%string, 1)]) /\
  exists w',
    @main no_portable_aes zeroing_allocator simple_io cutting_dirname 100
          world_without_a start_globals cpu_with_aes [("o"%char, "out/"%string)]
          ["b.srf"]%string =
      Ok (0, w', [("b.srf"%string, 0)]).
Proof.
  split; [vm_compute; reflexivity|].
  eexists. vm_compute. reflexivity.
Qed.

(** Two recordings, the key container of the first missing. *)
Lemma main_stops_at_first_failure_witness :
  @main no_portable_aes zeroing_allocator simple_io cutting_dirname 100
        world_without_a start_globals cpu_with_aes [("o"%char, "out/"%string)]
        ([] ++ "a.srf"%string :: ["b.srf"%string]) =
  Ok (0, world_without_a, map (fun f => (f, 0)) [] ++ [("a.srf"%string, 1)]).
Proof.
  apply (@main_stops_at_first_failure no_portable_aes zeroing_allocator simple_io
           cutting_dirname 100 "out/"%string world_without_a world_without_a
           world_without_a start_globals
           {| state := blank_state; enable_aesni := cpu_with_aes |}
           {| state := blank_state; enable_aesni := cpu_with_aes |}
           {| state := blank_state; enable_aesni := cpu_with_aes |}
           cpu_with_aes [("o"%char, "out/"%string)]
           ([] ++ "a.srf"%string :: ["b.srf"%string]) [] "a.srf"%string
           ["b.srf"%string] 1).
  - reflexivity.
  - constructor.
  - vm_compute. reflexivity.
  - discriminate.
Defined.

(** ** AESNI.c: further properties *)

(** *** The cipher undoes the inverse cipher *)

Lemma SubByte_InvSubByte (b : byte) : SubByte (InvSubByte b) = b.
Proof. destruct b; reflexivity. Qed.

Lemma MixColumn_InvMixColumn (w : dword) : MixColumn (InvMixColumn w) = w.
Proof.
  destruct w as [a b c d]. unfold InvMixColumn, MixColumn.
  bits_of a; bits_of b; bits_of c; bits_of d.
  f_equal; bit_blast.
Qed.

Lemma mul2_bxor (a b : byte) : mul2 (bxor a b) = bxor (mul2 a) (mul2 b).
Proof. bits_of a; bits_of b. bit_blast. Qed.

Lemma mul3_bxor (a b : byte) : mul3 (bxor a b) = bxor (mul3 a) (mul3 b).
Proof. bits_of a; bits_of b. bit_blast. Qed.

(** The column transform is linear. *)
Lemma MixColumn_xor (v w : dword) :
  MixColumn (dword_xor v w) = dword_xor (MixColumn v) (MixColumn w).
Proof.
  destruct v as [a b c d], w as [e f g h].
  unfold MixColumn, dword_xor; cbn [byte0 byte1 byte2 byte3].
  rewrite !mul2_bxor, !mul3_bxor.
  now rewrite !bxor4_bxor.
Qed.

Lemma MixColumns_InvMixColumns (a : m128i) : MixColumns (InvMixColumns a) = a.
Proof.
  destruct a as [c0 c1 c2 c3]. unfold InvMixColumns, MixColumns, m128i_map.
  cbn [lane0 lane1 lane2 lane3]. now rewrite !MixColumn_InvMixColumn.
Qed.

Lemma MixColumns_xor (a b : m128i) :
  MixColumns (_mm_xor_si128 a b) = _mm_xor_si128 (MixColumns a) (MixColumns b).
Proof.
  destruct a, b. unfold MixColumns, _mm_xor_si128, m128i_map.
  cbn [lane0 lane1 lane2 lane3]. now rewrite !MixColumn_xor.
Qed.

Lemma sub_shift_inv_sub_shift (a : m128i) : sub_shift (inv_sub_shift a) = a.
Proof.
  split_m128i a.
  unfold sub_shift, inv_sub_shift, InvSubBytes, InvShiftRows, SubBytes, ShiftRows,
    m128i_map, dword_map.
  cbn [lane0 lane1 lane2 lane3 byte0 byte1 byte2 byte3].
  now rewrite !SubByte_InvSubByte.
Qed.

(** One round, keyed with the round key the inverse round key came from,
    undoes one inverse round up to the inverse substitution and row shift
    of the next. *)
Lemma aesenc_aesdec (x k : m128i) :
  _mm_aesenc_si128 (inv_sub_shift (_mm_aesdec_si128 x k)) (MixColumns k) =
  inv_sub_shift x.
Proof.
  unfold _mm_aesenc_si128.
  change (SubBytes (ShiftRows (inv_sub_shift (_mm_aesdec_si128 x k))))
    with (sub_shift (inv_sub_shift (_mm_aesdec_si128 x k))).
  rewrite sub_shift_inv_sub_shift. unfold _mm_aesdec_si128.
  change (InvSubBytes (InvShiftRows x)) with (inv_sub_shift x).
  now rewrite MixColumns_xor, MixColumns_InvMixColumns, xor_cancel.
Qed.

Lemma aesdeclast_inv_sub_shift (x k : m128i) :
  _mm_xor_si128 (_mm_aesdeclast_si128 x k) k = inv_sub_shift x.
Proof. unfold _mm_aesdeclast_si128. now rewrite xor_cancel. Qed.

Lemma aesenclast_inv_sub_shift (x k : m128i) :
  _mm_aesenclast_si128 (inv_sub_shift (_mm_xor_si128 x k)) k = x.
Proof.
  unfold _mm_aesenclast_si128.
  change (SubBytes (ShiftRows (inv_sub_shift (_mm_xor_si128 x k))))
    with (sub_shift (inv_sub_shift (_mm_xor_si128 x k))).
  now rewrite sub_shift_inv_sub_shift, xor_cancel.
Qed.

Lemma map_MixColumns_aesimc (mid : list m128i) :
  map MixColumns (reverse (map _mm_aesimc_si128 (reverse mid))) = mid.
Proof.
  induction mid as [|k mid IH] using rev_ind; [reflexivity|].
  rewrite reverse_snoc. cbn [map]. rewrite reverse_cons, map_app, IH.
  cbn [map]. unfold _mm_aesimc_si128. now rewrite MixColumns_InvMixColumns.
Qed.

Lemma cipher_inv_cipher (k0 kn : m128i) (mid : list m128i) (c : m128i) :
  cipher_rounds k0 mid kn
    (inv_cipher_rounds kn (map _mm_aesimc_si128 (reverse mid)) k0 c) = c.
Proof.
  unfold inv_cipher_rounds, cipher_rounds.
  rewrite aesdeclast_inv_sub_shift.
  rewrite <- (map_MixColumns_aesimc mid) at 1.
  rewrite (rounds_undone _ _ _ _ aesenc_aesdec).
  apply aesenclast_inv_sub_shift.
Qed.

Lemma encrypt_decrypt_block (ekl : list m128i) (c : list byte) :
  (2 <= length ekl)%nat -> length c = 16%nat ->
  encrypt_block ekl (decrypt_block (reversed_schedule ekl) c) = c.
Proof.
  intros Hl Hc. destruct (ends_of_list ekl Hl) as [k0 [mid [kn ->]]].
  rewrite reversed_schedule_ends. unfold decrypt_block, encrypt_block, middle.
  cbn [hd List.tl]. rewrite !removelast_last, !app_comm_cons, !last_last.
  rewrite m128i_of_bytes_bytes.
  change (map InvMixColumns (reverse mid))
    with (map _mm_aesimc_si128 (reverse mid)).
  rewrite cipher_inv_cipher. now apply m128i_bytes_of_bytes.
Qed.

(** X1.  On an initialised context, decrypting any 16-byte block and
    encrypting the result gives the block back: [block_encrypt_aesni] is
    the inverse of [block_decrypt_aesni] on both sides. *)
Theorem decrypt_encrypt_roundtrip
    (st : block_state) (c out out' : list byte) :
  initialised st ->
  length c = 16%nat -> length out = 16%nat -> length out' = 16%nat ->
  exists p,
    block_decrypt_aesni st c 0 out 0 = Ok p /\
    block_encrypt_aesni st p 0 out' 0 = Ok c.
Proof.
  intros (ekl & dkl & Hek & Hdk & Hr & Hl & ->) Hc Ho Ho'.
  exists (decrypt_block (reversed_schedule ekl) c). split.
  - rewrite (block_decrypt_aesni_spec _ (reversed_schedule ekl))
      by (rewrite ?length_reversed_schedule; auto).
    rewrite <- Hc at 1. rewrite load_bytes_all. cbn [mbind res_bind].
    apply store_bytes_all. now rewrite Ho.
  - rewrite (block_encrypt_aesni_spec _ ekl) by auto.
    change 16%nat with (length (decrypt_block (reversed_schedule ekl) c)) at 1.
    rewrite load_bytes_all. cbn [mbind res_bind].
    rewrite encrypt_decrypt_block by lia.
    apply store_bytes_all. now rewrite Hc, Ho'.
Qed.

(** *** The end of a context *)

Lemma memset_zero_all (p : list m128i) (n : Z) :
  Z.of_nat (length p) = n ->
  memset_zero p n = Ok (replicate (Z.to_nat n) zero128).
Proof.
  intros E. unfold memset_zero.
  destruct (Z.ltb_spec n 0); [lia|].
  apply store_bytes_all. rewrite length_replicate. lia.
Qed.

(** X5.  On an initialised context [block_finalize_aesni] overwrites every
    round key of both schedules with zeros before the arrays are freed:
    no key material is left behind in the freed memory. *)
Theorem finalize_wipes_round_keys (st : block_state) :
  initialised st ->
  block_finalize_aesni st =
  Ok (replicate (Z.to_nat (rounds st + 1)) zero128,
      replicate (Z.to_nat (rounds st + 1)) zero128).
Proof.
  intros (ekl & dkl & Hek & Hdk & Hr & Hl & ->).
  unfold block_finalize_aesni. rewrite Hek, Hdk. cbn [deref mbind res_bind].
  rewrite (memset_zero_all ekl) by exact Hl. cbn [mbind res_bind].
  rewrite (memset_zero_all (reversed_schedule ekl))
    by (rewrite length_reversed_schedule; exact Hl).
  reflexivity.
Qed.

(** *** The encryption schedule is the key expansion of FIPS-197 *)

(** The expansion at the keys of FIPS-197, appendix A: the last four words
    are those of the standard. *)
Example fips197_expansion_128 :
  drop 40 (KeyExpansion 4 10 (words_of fips_key128)) =
  [DW xd0 x14 xf9 xa8; DW xc9 xee x25 x89; DW xe1 x3f x0c xc8; DW xb6 x63 x0c xa6].
Proof. vm_compute. reflexivity. Qed.

Example fips197_expansion_192 :
  drop 48 (KeyExpansion 6 12 (words_of fips_key192)) =
  [DW xe9 x8b xa0 x6f; DW x44 x8c x77 x3c; DW x8e xcc x72 x04; DW x01 x00 x22 x02].
Proof. vm_compute. reflexivity. Qed.

Example fips197_expansion_256 :
  drop 56 (KeyExpansion 8 14 (words_of fips_key256)) =
  [DW xfe x48 x90 xd1; DW xe6 x18 x8d x0b; DW x04 x6d xf3 x44; DW x70 x6c x63 x1e].
Proof. vm_compute. reflexivity. Qed.

(** Replace every byte of the context by its eight bits. *)
Ltac all_bits :=
  repeat match goal with
         | b : byte |- _ => first [bits_of b | clear b]
         end.

Lemma m128i_eq (a0 a1 a2 a3 b0 b1 b2 b3 : dword) :
  a0 = b0 -> a1 = b1 -> a2 = b2 -> a3 = b3 -> M128 a0 a1 a2 a3 = M128 b0 b1 b2 b3.
Proof. now intros -> -> -> ->. Qed.

Lemma dword_eq (a0 a1 a2 a3 b0 b1 b2 b3 : byte) :
  a0 = b0 -> a1 = b1 -> a2 = b2 -> a3 = b3 -> DW a0 a1 a2 a3 = DW b0 b1 b2 b3.
Proof. now intros -> -> -> ->. Qed.

Lemma bxor_0_r (a : byte) : bxor a x00 = a.
Proof. destruct a; reflexivity. Qed.

Lemma aes128_keyexpand_next (k : m128i) (t : dword) :
  _mm_xor_si128 (aes128_keyexpand k) (M128 t t t t) = next_words k t.
Proof.
  split_m128i k. destruct t as [t0 t1 t2 t3].
  lazy -[bxor]. rewrite !bxor_0_r. all_bits.
  apply m128i_eq; apply dword_eq; bit_blast.
Qed.

Lemma RotWord_SubWord (w : dword) : RotWord (SubWord w) = SubWord (RotWord w).
Proof. now destruct w. Qed.

(** The three uses of [KEYEXP128_H]: the word the assist instruction
    prepares, spread over the four lanes, is the [temp] of the standard. *)
Lemma KEYEXP128_next (k : m128i) (rc : byte) :
  KEYEXP128 k rc = next_words k (xor_rcon (SubWord (RotWord (lane3 k))) rc).
Proof.
  unfold KEYEXP128, KEYEXP128_H. rewrite <- RotWord_SubWord.
  now rewrite <- aes128_keyexpand_next.
Qed.

Lemma KEYEXP256_next (a b : m128i) (rc : byte) :
  KEYEXP256 a b rc = next_words a (xor_rcon (SubWord (RotWord (lane3 b))) rc).
Proof.
  unfold KEYEXP256, KEYEXP128_H. rewrite <- RotWord_SubWord.
  now rewrite <- aes128_keyexpand_next.
Qed.

Lemma KEYEXP256_2_next (a b : m128i) :
  KEYEXP256_2 a b = next_words a (SubWord (lane3 b)).
Proof.
  unfold KEYEXP256_2, KEYEXP128_H. now rewrite <- aes128_keyexpand_next.
Qed.

Lemma KEYEXP192_next (a b : m128i) (rc : byte) :
  KEYEXP192 a b rc = next_words a (xor_rcon (SubWord (RotWord (lane1 b))) rc).
Proof.
  unfold KEYEXP192, KEYEXP128_H. rewrite <- RotWord_SubWord.
  now rewrite <- aes128_keyexpand_next.
Qed.

(** Four and eight words of the expansion at once, from a window that
    starts at a multiple of [Nk]. *)
Lemma expand_from_4 (n i : nat) (k : m128i) :
  (i mod 4 =? 0)%nat = true ->
  (S i mod 4 =? 0)%nat = false ->
  (S (S i) mod 4 =? 0)%nat = false ->
  (S (S (S i)) mod 4 =? 0)%nat = false ->
  let k' := KEYEXP128 k (nth (i / 4 - 1) rcon x00) in
  expand_from 4 (S (S (S (S n)))) i (lanes k) =
  lanes k' ++ expand_from 4 n (S (S (S (S i)))) (lanes k').
Proof.
  intros H0 H1 H2 H3 k'. subst k'. rewrite KEYEXP128_next.
  cbn [expand_from lanes app List.last hd List.tl Nat.ltb Nat.leb andb].
  rewrite H0, H1, H2, H3. reflexivity.
Qed.

Lemma expand_from_8 (n i : nat) (a b : m128i) :
  (i mod 8 =? 0)%nat = true ->
  (S i mod 8 =? 0)%nat = false -> (S i mod 8 =? 4)%nat = false ->
  (S (S i) mod 8 =? 0)%nat = false -> (S (S i) mod 8 =? 4)%nat = false ->
  (S (S (S i)) mod 8 =? 0)%nat = false -> (S (S (S i)) mod 8 =? 4)%nat = false ->
  (S (S (S (S i))) mod 8 =? 0)%nat = false ->
  (S (S (S (S i))) mod 8 =? 4)%nat = true ->
  (S (S (S (S (S i)))) mod 8 =? 0)%nat = false ->
  (S (S (S (S (S i)))) mod 8 =? 4)%nat = false ->
  (S (S (S (S (S (S i))))) mod 8 =? 0)%nat = false ->
  (S (S (S (S (S (S i))))) mod 8 =? 4)%nat = false ->
  (S (S (S (S (S (S (S i)))))) mod 8 =? 0)%nat = false ->
  (S (S (S (S (S (S (S i)))))) mod 8 =? 4)%nat = false ->
  let c := KEYEXP256 a b (nth (i / 8 - 1) rcon x00) in
  let d := KEYEXP256_2 b c in
  expand_from 8 (S (S (S (S (S (S (S (S n)))))))) i (lanes a ++ lanes b) =
  lanes c ++ lanes d ++
  expand_from 8 n (S (S (S (S (S (S (S (S i)))))))) (lanes c ++ lanes d).
Proof.
  intros H0 H1 H1' H2 H2' H3 H3' H4 H4' H5 H5' H6 H6' H7 H7' c d. subst c d.
  rewrite KEYEXP256_2_next, KEYEXP256_next.
  cbn [expand_from lanes app List.last hd List.tl Nat.ltb Nat.leb andb].
  rewrite H0, H1, H1', H2, H2', H3, H3', H4, H4', H5, H5', H6, H6', H7, H7'.
  reflexivity.
Qed.

(** The last four words of the 256-bit expansion. *)
Lemma expand_from_8_half (i : nat) (a b : m128i) :
  (i mod 8 =? 0)%nat = true ->
  (S i mod 8 =? 0)%nat = false -> (S i mod 8 =? 4)%nat = false ->
  (S (S i) mod 8 =? 0)%nat = false -> (S (S i) mod 8 =? 4)%nat = false ->
  (S (S (S i)) mod 8 =? 0)%nat = false -> (S (S (S i)) mod 8 =? 4)%nat = false ->
  expand_from 8 4 i (lanes a ++ lanes b) =
  lanes (KEYEXP256 a b (nth (i / 8 - 1) rcon x00)).
Proof.
  intros H0 H1 H1' H2 H2' H3 H3'. rewrite KEYEXP256_next.
  cbn [expand_from lanes app List.last hd List.tl Nat.ltb Nat.leb andb].
  rewrite H0, H1, H1', H2, H2', H3, H3'. reflexivity.
Qed.

Lemma round_keys_lanes (k : m128i) (w : list dword) :
  round_keys (lanes k ++ w) = k :: round_keys w.
Proof. now destruct k. Qed.

Lemma words_of_16 (l : list byte) :
  length l = 16%nat -> words_of l = lanes (m128i_of_bytes l).
Proof. intros E. explode l. reflexivity. Qed.

Lemma words_of_app_16 (l l' : list byte) :
  length l = 16%nat -> words_of (l ++ l') = lanes (m128i_of_bytes l) ++ words_of l'.
Proof. intros E. explode l. reflexivity. Qed.

Lemma key_schedule_128 (rk : list m128i) (key : list byte) :
  length rk = 11%nat -> (16 <= length key)%nat ->
  aes_key_setup_enc rk key 16 =
  Ok (round_keys (KeyExpansion 4 10 (words_of (take 16 key)))).
Proof.
  intros E Hk. explode rk. unfold aes_key_setup_enc, assign_key.
  rewrite loadu_ok by lia. change (Z.to_nat 0) with 0%nat. rewrite drop_0.
  rewrite words_of_16 by (rewrite length_take; lia).
  generalize (m128i_of_bytes (take 16 key)). intros k0.
  unfold KeyExpansion. change (4 * (10 + 1) - 4)%nat with 40%nat.
  do 10 (rewrite expand_from_4 by reflexivity).
  rewrite !round_keys_lanes.
  run_code. reflexivity.
Qed.

(** X2.  For every 16-byte key, the encryption round keys
    [aes_key_setup_enc] writes are the key expansion of FIPS-197 with
    Nk = 4 and Nr = 10, four words to a round key.  [key] is the memory at
    the key pointer; only its first sixteen bytes count. *)
Theorem key_schedule_128_is_fips197 (rk : list m128i) (key : list byte) :
  length rk = 11%nat -> (16 <= length key)%nat ->
  aes_key_setup_enc rk key 16 =
  Ok (round_keys (KeyExpansion 4 10 (words_of (take 16 key)))).
Proof. apply key_schedule_128. Qed.

Lemma round_keys_lanes_last (k : m128i) : round_keys (lanes k) = [k].
Proof. now destruct k. Qed.

Lemma words_of_32 (key : list byte) :
  (32 <= length key)%nat ->
  words_of (take 32 key) =
  lanes (m128i_of_bytes (take 16 key)) ++
  lanes (m128i_of_bytes (take 16 (drop 16 key))).
Proof.
  intros Hk. rewrite <- (take_drop 32 key) at 2 3.
  assert (E : length (take 32 key) = 32%nat) by (rewrite length_take; lia).
  revert E. generalize (take 32 key), (drop 32 key). intros l rest E.
  explode l. reflexivity.
Qed.

(** X4.  For every 32-byte key, the encryption round keys
    [aes_key_setup_enc] writes are the key expansion of FIPS-197 with
    Nk = 8 and Nr = 14, four words to a round key. *)
Theorem key_schedule_256_is_fips197 (rk : list m128i) (key : list byte) :
  length rk = 15%nat -> (32 <= length key)%nat ->
  aes_key_setup_enc rk key 32 =
  Ok (round_keys (KeyExpansion 8 14 (words_of (take 32 key)))).
Proof.
  intros E Hk. explode rk. unfold aes_key_setup_enc, assign_key.
  rewrite !loadu_ok by lia.
  change (Z.to_nat 0) with 0%nat. change (Z.to_nat 16) with 16%nat.
  rewrite drop_0, words_of_32 by assumption.
  generalize (m128i_of_bytes (take 16 key)),
             (m128i_of_bytes (take 16 (drop 16 key))).
  intros k0 k1.
  unfold KeyExpansion. change (4 * (14 + 1) - 8)%nat with 52%nat.
  do 6 (rewrite expand_from_8 by reflexivity).
  rewrite expand_from_8_half by reflexivity.
  rewrite <- app_assoc, !round_keys_lanes, round_keys_lanes_last.
  run_code. reflexivity.
Qed.

Lemma KEYEXP192_2_lane0 (a b : m128i) :
  lane0 (KEYEXP192_2 a b) = dword_xor (lane0 b) (lane3 a).
Proof.
  split_m128i a; split_m128i b. lazy -[bxor]. rewrite !bxor_0_r.
  all_bits. apply dword_eq; bit_blast.
Qed.

Lemma KEYEXP192_2_lane1 (a b : m128i) :
  lane1 (KEYEXP192_2 a b) = dword_xor (lane1 b) (lane0 (KEYEXP192_2 a b)).
Proof.
  split_m128i a; split_m128i b. lazy -[bxor]. rewrite !bxor_0_r.
  all_bits. apply dword_eq; bit_blast.
Qed.

Lemma expand_from_6 (n i : nat) (a b : m128i) :
  (i mod 6 =? 0)%nat = true ->
  (S i mod 6 =? 0)%nat = false ->
  (S (S i) mod 6 =? 0)%nat = false ->
  (S (S (S i)) mod 6 =? 0)%nat = false ->
  (S (S (S (S i))) mod 6 =? 0)%nat = false ->
  (S (S (S (S (S i)))) mod 6 =? 0)%nat = false ->
  let a' := KEYEXP192 a b (nth (i / 6 - 1) rcon x00) in
  let b' := KEYEXP192_2 a' b in
  expand_from 6 (S (S (S (S (S (S n)))))) i (six a b) =
  six a' b' ++ expand_from 6 n (S (S (S (S (S (S i)))))) (six a' b').
Proof.
  intros H0 H1 H2 H3 H4 H5 a' b'. subst b'.
  unfold six at 2 3. cbn [app lanes].
  rewrite (KEYEXP192_2_lane1 a' b), (KEYEXP192_2_lane0 a' b). subst a'.
  rewrite KEYEXP192_next.
  cbn [six expand_from lanes app List.last hd List.tl Nat.ltb Nat.leb andb].
  rewrite H0, H1, H2, H3, H4, H5. reflexivity.
Qed.

(** The last four words of the 192-bit expansion. *)
Lemma expand_from_6_last (i : nat) (a b : m128i) :
  (i mod 6 =? 0)%nat = true ->
  (S i mod 6 =? 0)%nat = false ->
  (S (S i) mod 6 =? 0)%nat = false ->
  (S (S (S i)) mod 6 =? 0)%nat = false ->
  expand_from 6 4 i (six a b) =
  lanes (KEYEXP192 a b (nth (i / 6 - 1) rcon x00)).
Proof.
  intros H0 H1 H2 H3. rewrite KEYEXP192_next.
  cbn [six expand_from lanes app List.last hd List.tl Nat.ltb Nat.leb andb].
  rewrite H0, H1, H2, H3. reflexivity.
Qed.

(** Twelve words are three round keys: a whole vector, then two vectors
    put together from halves. *)
Lemma round_keys_six_six (a b a' b' : m128i) (w : list dword) :
  round_keys (six a b ++ six a' b' ++ w) =
  a :: shuffle_pd_si128 b a' 0 :: shuffle_pd_si128 a' b' 1 :: round_keys w.
Proof. now destruct a. Qed.

Lemma words_of_24 (key : list byte) :
  (32 <= length key)%nat ->
  words_of (take 24 key) =
  six (m128i_of_bytes (take 16 key)) (m128i_of_bytes (take 16 (drop 16 key))).
Proof.
  intros Hk. rewrite <- (take_drop 32 key) at 1 2 3.
  assert (E : length (take 32 key) = 32%nat) by (rewrite length_take; lia).
  revert E. generalize (take 32 key), (drop 32 key). intros l rest E.
  explode l. reflexivity.
Qed.

(** X3.  For every 24-byte key, the encryption round keys
    [aes_key_setup_enc] writes are the key expansion of FIPS-197 with
    Nk = 6 and Nr = 12, four words to a round key.  [key] is the memory at
    the key pointer: the code loads thirty-two bytes of it, and the round
    keys depend on the first twenty-four only. *)
Theorem key_schedule_192_is_fips197 (rk : list m128i) (key : list byte) :
  length rk = 13%nat -> (32 <= length key)%nat ->
  aes_key_setup_enc rk key 24 =
  Ok (round_keys (KeyExpansion 6 12 (words_of (take 24 key)))).
Proof.
  intros E Hk. explode rk. unfold aes_key_setup_enc, assign_key.
  rewrite !loadu_ok by lia.
  change (Z.to_nat 0) with 0%nat. change (Z.to_nat 16) with 16%nat.
  rewrite drop_0, words_of_24 by assumption.
  generalize (m128i_of_bytes (take 16 key)),
             (m128i_of_bytes (take 16 (drop 16 key))).
  intros k0 k1.
  unfold KeyExpansion. change (4 * (12 + 1) - 6)%nat with 46%nat.
  do 7 (rewrite expand_from_6 by reflexivity).
  rewrite expand_from_6_last by reflexivity.
  rewrite !round_keys_six_six, round_keys_lanes_last.
  run_code. reflexivity.
Qed.

(** ** drmdecrypt.c: further properties of the packet codec *)

Section CodecMore.
Context `{PortableAES}.

(** The loop of [decrypt_aes128cbc] with the input at [a] and the output
    at [b]. *)
Lemma decrypt_loop_offsets (g : globals) (D : list byte -> list byte)
    (pin : list byte) (a b : Z) :
  backend_decrypts g D ->
  forall (n : nat) (i : Z) (pout : list byte),
    0 <= a + i -> 0 <= b + i ->
    a + i + 16 * Z.of_nat n <= Z.of_nat (length pin) ->
    b + i + 16 * Z.of_nat n <= Z.of_nat (length pout) ->
    for_iter n i 16
      (fun i pout => block_decrypt g pin (a + i) pout (b + i)) pout =
    Ok (take (Z.to_nat (b + i)) pout ++
        ecb D n (drop (Z.to_nat (a + i)) pin) ++
        drop (Z.to_nat (b + i) + 16 * n) pout).
Proof.
  intros [HD Hb]. induction n as [|n IH]; intros i pout Ha Hbi Hin Hout.
  - cbn [for_iter ecb app]. now rewrite Nat.mul_0_r, Nat.add_0_r, take_drop.
  - cbn [for_iter ecb]. rewrite Hb.
    rewrite load_bytes_ok by lia. cbn [mbind res_bind].
    rewrite store_bytes_ok by (rewrite ?HD; lia).
    cbn [mbind res_bind]. rewrite HD.
    rewrite IH.
    + replace (Z.to_nat (a + (i + 16))) with (Z.to_nat (a + i) + 16)%nat by lia.
      replace (Z.to_nat (b + (i + 16))) with (Z.to_nat (b + i) + 16)%nat by lia.
      assert (Hx : (Z.to_nat (b + i) + 16 <= length pout)%nat) by lia.
      revert Hx. generalize (Z.to_nat (b + i)). intros x Hx.
      generalize (Z.to_nat (a + i)). intros y.
      generalize (HD (take 16 (drop y pin))).
      generalize (D (take 16 (drop y pin))). intros blk Hblk.
      f_equal.
      rewrite (app_assoc (take x pout) blk).
      rewrite take_app_length' by (rewrite length_app, length_take_le; lia).
      rewrite drop_app_ge by (rewrite length_app, length_take_le; lia).
      rewrite length_app, length_take_le, Hblk by lia.
      rewrite <- !app_assoc. f_equal. f_equal.
      rewrite !drop_drop. do 2 f_equal. lia.
    + lia.
    + lia.
    + lia.
    + rewrite !length_app, length_take_le, length_drop, HD by lia. lia.
Qed.

(** X6.  [decrypt_aes128cbc] refuses a length that is not a multiple of
    16 without writing anything.  Otherwise it decrypts each 16-byte block
    on its own and writes it at the same distance from the output pointer:
    no block depends on another one, whatever the name says; the output
    around the blocks is as it was. *)
Theorem decrypt_aes128cbc_blockwise (g : globals) (D : list byte -> list byte)
    (pin pout : list byte) (pin_off pout_off len : Z) :
  backend_decrypts g D ->
  (Z.rem len 16 <> 0 ->
   decrypt_aes128cbc g pin pin_off len pout pout_off = Ok (1, pout)) /\
  (forall n : nat,
     len = 16 * Z.of_nat n ->
     0 <= pin_off -> pin_off + len <= Z.of_nat (length pin) ->
     0 <= pout_off -> pout_off + len <= Z.of_nat (length pout) ->
     decrypt_aes128cbc g pin pin_off len pout pout_off =
     Ok (0, take (Z.to_nat pout_off) pout ++
            ecb D n (drop (Z.to_nat pin_off) pin) ++
            drop (Z.to_nat pout_off + 16 * n) pout)).
Proof.
  intros HB. split.
  - intros Hrem. unfold decrypt_aes128cbc, BLOCK_SIZE.
    destruct (Z.eqb_spec (Z.rem len 16) 0) as [E|_]; [contradiction|reflexivity].
  - intros n -> Hi Hin Ho Hout. unfold decrypt_aes128cbc, BLOCK_SIZE.
    rewrite Z.mul_comm, Z.rem_mul by discriminate.
    change (negb (0 =? 0)) with false. cbv iota. unfold for_loop.
    replace (Z.to_nat ((Z.of_nat n * 16 - 0 + 16 - 1) / 16)) with n.
    + rewrite (decrypt_loop_offsets g D pin pin_off pout_off HB) by lia.
      cbn [mbind res_bind]. now rewrite !Z.add_0_r.
    + replace (Z.of_nat n * 16 - 0 + 16 - 1) with (Z.of_nat n * 16 + 15) by lia.
      rewrite Z.div_add_l by lia. change (15 / 16) with 0. lia.
Qed.

Lemma lookup_decoded_header (D : list byte -> list byte) (data : list byte)
    (offset : Z) (i : nat) :
  Z.of_nat (length data) = PACKETSIZE -> 4 <= offset -> (i < 4)%nat ->
  decoded D data offset !! i = alter clear_scrambling 3%nat data !! i.
Proof.
  intros Hlen Hoff Hi. unfold decoded, PACKETSIZE in *.
  rewrite lookup_app_l by (rewrite length_take, length_alter; lia).
  apply lookup_take_lt. lia.
Qed.

(** X7.  Decoding is idempotent: a packet that came out of [decode_packet]
    is left alone by a second call, which returns 1.  A packet is never
    decrypted twice. *)
Theorem decode_packet_idempotent (g : globals) (D : list byte -> list byte)
    (data : list byte) (r : Z) (out : list byte) :
  backend_decrypts g D ->
  Z.of_nat (length data) = PACKETSIZE ->
  decode_packet g data = Ok (r, out) ->
  decode_packet g out = Ok (1, out).
Proof.
  intros HB Hlen E.
  destruct (decode_packet_cases g D data HB Hlen) as [E1|[offset [Hoff [_ E0]]]].
  - rewrite E1 in E. injection E as <- <-. exact E1.
  - rewrite E0 in E. injection E as <- <-.
    assert (Hl : (3 < length data)%nat) by (unfold PACKETSIZE in Hlen; lia).
    destruct (lookup_lt_is_Some_2 data 0) as [d0 H0]; [lia|].
    destruct (lookup_lt_is_Some_2 data 3) as [d3 H3]; [lia|].
    destruct (Byte.byte_eq_dec d0 x47) as [->|Hne].
    + apply (decode_not_scrambled g _ (clear_scrambling d3)).
      * rewrite length_decoded; [assumption | apply HB | assumption | lia].
      * rewrite lookup_decoded_header by (assumption || lia).
        now rewrite list_lookup_alter_ne by lia.
      * rewrite lookup_decoded_header by (assumption || lia).
        now rewrite list_lookup_alter_eq, H3.
      * rewrite clear_scrambling_cleared. discriminate.
      * rewrite clear_scrambling_cleared. discriminate.
    + rewrite (decode_not_sync g data d0 H0 Hne) in E0. discriminate E0.
Qed.

(** Block by block, [D] after [E] gives the blocks back. *)
Lemma ecb_ecb (D E : list byte -> list byte) (n : nat) (plain rest : list byte) :
  (forall blk, length (E blk) = 16%nat) ->
  (forall blk, length blk = 16%nat -> D (E blk) = blk) ->
  length plain = (16 * n)%nat ->
  ecb D n (ecb E n plain ++ rest) = plain.
Proof.
  intros HE HDE. revert plain. induction n as [|n IH]; intros plain Hp.
  - destruct plain; [reflexivity | discriminate Hp].
  - cbn [ecb]. rewrite <- app_assoc.
    rewrite take_app_length' by now rewrite HE.
    rewrite drop_app_length' by now rewrite HE.
    rewrite HDE by (rewrite length_take; lia).
    rewrite IH by (rewrite length_drop; lia).
    apply take_drop.
Qed.

(** X8.  With the hardware backend initialised, [decode_packet] restores
    the payload: when the whole blocks of the payload of a scrambled packet
    are the blocks of [plain], each encrypted on its own with the schedule
    of the context, the packet comes out with [plain] in their place, the
    header with the scrambling bits cleared before it and the rest of the
    packet behind it. *)
Theorem decode_restores_payload (g : globals) (ekl : list m128i)
    (data plain rest : list byte) (d3 : byte) (offset : Z) :
  enable_aesni g <> 0 ->
  initialised (state g) -> ek (state g) = Some ekl ->
  Z.of_nat (length data) = PACKETSIZE ->
  data !! 0%nat = Some x47 ->
  data !! 3%nat = Some d3 ->
  Z.land (byte_val d3) 0xC0 = 0xC0 \/ Z.land (byte_val d3) 0xC0 = 0x80 ->
  payload_offset data = Ok offset -> 4 <= offset ->
  let n := Z.to_nat (Z.quot (PACKETSIZE - offset) BLOCK_SIZE) in
  length plain = (16 * n)%nat ->
  drop (Z.to_nat offset) data = ecb (encrypt_block ekl) n plain ++ rest ->
  decode_packet g data =
  Ok (0, alter clear_scrambling 3%nat (take (Z.to_nat offset) data) ++
         plain ++ rest).
Proof.
  intros Hen Hinit Hek Hlen H0 H3 Hsc Hoff Hpos n Hplain Hpay.
  pose proof (aesni_backend g Hen Hinit) as HB.
  destruct Hinit as (ekl' & dkl & Hek' & Hdk & Hr & Hl & ->).
  rewrite Hek in Hek'. injection Hek' as <-.
  rewrite Hdk in HB.
  change (default [] (Some (reversed_schedule ekl)))
    with (reversed_schedule ekl) in HB.
  rewrite (decode_scrambled g _ data d3 offset HB Hlen H0 H3 Hsc Hoff) by lia.
  unfold decoded. fold n.
  assert (Hecb : length (ecb (encrypt_block ekl) n plain) = (16 * n)%nat)
    by (apply length_ecb; intros blk; apply length_m128i_bytes).
  rewrite take_alter_lt, drop_alter_lt by lia.
  rewrite <- drop_drop, Hpay.
  rewrite drop_app_length' by now rewrite Hecb.
  rewrite ecb_ecb; [reflexivity | | | exact Hplain].
  - intros blk. apply length_m128i_bytes.
  - intros blk Hblk. apply decrypt_encrypt_block; [lia | exact Hblk].
Qed.

End CodecMore.

(** ** drmdecrypt.c: further properties of the key provisioning *)

Lemma key_index_range (j : Z) :
  0 <= j < 16 -> 0 <= Z.land j 0xc + (3 - Z.land j 3) < 16.
Proof.
  intros Hj.
  assert (C : j = 0 \/ j = 1 \/ j = 2 \/ j = 3 \/ j = 4 \/ j = 5 \/ j = 6 \/
              j = 7 \/ j = 8 \/ j = 9 \/ j = 10 \/ j = 11 \/ j = 12 \/
              j = 13 \/ j = 14 \/ j = 15) by lia.
  repeat (destruct C as [-> | C];
          [vm_compute; split; [discriminate | reflexivity]|]).
  subst j. vm_compute. split; [discriminate | reflexivity].
Qed.

(** A container that ends before the last of the [n] bytes still to read:
    short read, whatever was stored before. *)
Lemma read_key_bytes_short (n : nat) :
  forall (j : Z) (mdbfp : FILE) (drmkey : list byte),
    length drmkey = 16%nat -> 0 <= j -> j + Z.of_nat n <= 16 ->
    0 <= pos mdbfp -> n <> O ->
    Z.of_nat (length (content mdbfp)) < pos mdbfp + Z.of_nat n ->
    read_key_bytes n j mdbfp drmkey = Ok None.
Proof.
  induction n as [|n IH]; intros j mdbfp drmkey Hd Hj Hn Hp Hn0 Hshort;
    [contradiction|].
  cbn [read_key_bytes]. unfold fread1.
  destruct (Z.ltb_spec (pos mdbfp) 0); [lia|].
  destruct (content mdbfp !! Z.to_nat (pos mdbfp)) as [b|] eqn:E;
    cbn [mbind option_bind]; [|reflexivity].
  apply lookup_lt_Some in E.
  rewrite store_at by (rewrite Hd; apply key_index_range; lia).
  cbn [mbind res_bind]. apply IH; cbn [content pos].
  - now rewrite length_insert.
  - lia.
  - lia.
  - lia.
  - lia.
  - lia.
Qed.

Section KeyMore.
Context `{PortableAES} `{Allocator}.

Lemma readdrmkey_no_key (w : world) (g : globals) (mdbfile : string) :
  files w !! canon w mdbfile = None \/
  (exists bytes, files w !! canon w mdbfile = Some bytes /\ (length bytes < 24)%nat) ->
  readdrmkey w g mdbfile =
  Ok (1, {| state := blank_state; enable_aesni := enable_aesni g |}).
Proof.
  intros [Hnone | [bytes [Hf Hlen]]]; unfold readdrmkey, fopen_rb.
  - rewrite Hnone. reflexivity.
  - rewrite Hf. cbn [mbind option_bind]. unfold fseek_set. cbn [content pos].
    rewrite read_key_bytes_short; cbn [content pos];
      [reflexivity | reflexivity | lia | lia | lia | discriminate | lia].
Qed.

(** X9.  Without a key container, or with one that ends before byte 24,
    [readdrmkey] returns 1, and the cipher context is blank: both schedule
    pointers null, ten rounds.  The context of an earlier recording is gone
    either way. *)
Theorem readdrmkey_without_key (w : world) (g : globals) (mdbfile : string) :
  files w !! canon w mdbfile = None \/
  (exists bytes, files w !! canon w mdbfile = Some bytes /\ (length bytes < 24)%nat) ->
  readdrmkey w g mdbfile =
  Ok (1, {| state := blank_state; enable_aesni := enable_aesni g |}).
Proof. apply readdrmkey_no_key. Qed.

(** X10.  With a key container of at least 24 bytes, the hardware backend
    selected and both allocations successful, [readdrmkey] returns 0 and
    leaves an initialised context for ten rounds whose encryption schedule
    is the FIPS-197 expansion of the key: bytes 8 .. 23 of the container,
    each group of four reversed. *)
Theorem readdrmkey_installs_schedule (w : world) (g : globals) (mdbfile : string)
    (bytes : list byte) :
  files w !! canon w mdbfile = Some bytes ->
  (24 <= length bytes)%nat ->
  enable_aesni g <> 0 ->
  allocated 11 (aligned_malloc_wrapper 16 ((10 + 1) * 16)) ->
  let key := reverse_groups (take 16 (drop 8 bytes)) in
  exists st,
    readdrmkey w g mdbfile =
      Ok (0, {| state := st; enable_aesni := enable_aesni g |}) /\
    initialised st /\ rounds st = 10 /\
    ek st = Some (round_keys (KeyExpansion 4 10 (words_of key))).
Proof.
  intros Hf Hlen Hen Halloc key.
  assert (Hsrc : length (take 16 (drop 8 bytes)) = 16%nat)
    by (rewrite length_take, length_drop; lia).
  assert (Hkey : length key = 16%nat).
  { unfold key. generalize Hsrc. generalize (take 16 (drop 8 bytes)).
    intros src E. explode src. reflexivity. }
  assert (Hread : read_key_bytes 16 0 {| content := bytes; pos := 8 |}
                    (replicate 16 x00) = Ok (Some key)).
  { rewrite <- (take_drop 8 bytes) at 1.
    rewrite <- (take_drop 16 (drop 8 bytes)) at 1.
    apply read_key_bytes_permutes;
      [rewrite length_take; lia | exact Hsrc | reflexivity]. }
  destruct (block_init_aesni_ok blank_state key 16 10
              (aligned_malloc_wrapper 16 ((10 + 1) * 16))
              (aligned_malloc_wrapper 16 ((10 + 1) * 16)))
    as [ekl [Hinit Hl]].
  { left. split; reflexivity. }
  { cbn. lia. }
  { exact Halloc. }
  { exact Halloc. }
  exists {| ek := Some ekl; dk := Some (reversed_schedule ekl); rounds := 10 |}.
  split; [|split; [|split]].
  - unfold readdrmkey, fopen_rb. rewrite Hf. cbn [mbind option_bind].
    unfold fseek_set. cbn [content pos enable_aesni]. rewrite Hread.
    destruct (Z.eqb_spec (enable_aesni g) 0) as [E|_]; [contradiction|].
    cbn [negb mbind res_bind]. fold blank_state. unfold BLOCK_SIZE.
    rewrite Hinit. reflexivity.
  - exists ekl, (reversed_schedule ekl). cbn [ek dk rounds]. auto.
  - reflexivity.
  - cbn [ek]. f_equal. destruct Halloc as [l [Hal Hll]].
    rewrite Hal in Hinit. unfold block_init_aesni in Hinit. cbn [key_rounds] in Hinit.
    rewrite key_schedule_128 in Hinit by lia. cbn [mbind res_bind] in Hinit.
    rewrite firstn_all2 in Hinit by lia.
    destruct (aes_key_setup_dec _ _ _) in Hinit; [|discriminate Hinit].
    now injection Hinit as <- _.
Qed.

(** X11.  When the allocation of the schedules fails, [readdrmkey] still
    returns 0, with the context blank; the first block handed to the
    cipher afterwards goes through a null pointer. *)
Theorem readdrmkey_allocation_failure (w : world) (g : globals) (mdbfile : string)
    (bytes : list byte) :
  files w !! canon w mdbfile = Some bytes ->
  (24 <= length bytes)%nat ->
  enable_aesni g <> 0 ->
  aligned_malloc_wrapper 16 ((10 + 1) * 16) = None ->
  let g' := {| state := blank_state; enable_aesni := enable_aesni g |} in
  readdrmkey w g mdbfile = Ok (0, g') /\
  forall (pin : list byte) (i : Z) (pout : list byte) (j : Z),
    0 <= i -> i + 16 <= Z.of_nat (length pin) ->
    block_decrypt g' pin i pout j = Fault NullPointer.
Proof.
  intros Hf Hlen Hen Halloc g'.
  assert (Hsrc : length (take 16 (drop 8 bytes)) = 16%nat)
    by (rewrite length_take, length_drop; lia).
  split.
  - unfold readdrmkey, fopen_rb. rewrite Hf. cbn [mbind option_bind].
    unfold fseek_set. cbn [content pos enable_aesni].
    assert (Hread : read_key_bytes 16 0 {| content := bytes; pos := 8 |}
                      (replicate 16 x00) =
                    Ok (Some (reverse_groups (take 16 (drop 8 bytes))))).
    { rewrite <- (take_drop 8 bytes) at 1.
      rewrite <- (take_drop 16 (drop 8 bytes)) at 1.
      apply read_key_bytes_permutes;
        [rewrite length_take; lia | exact Hsrc | reflexivity]. }
    rewrite Hread.
    destruct (Z.eqb_spec (enable_aesni g) 0) as [E|_]; [contradiction|].
    cbn [negb mbind res_bind]. rewrite Halloc. reflexivity.
  - intros pin i pout j Hi Hin. unfold block_decrypt, g'. cbn [enable_aesni state].
    destruct (Z.eqb_spec (enable_aesni g) 0) as [E|_]; [contradiction|].
    cbn [negb]. unfold block_decrypt_aesni.
    rewrite loadu_ok by lia. reflexivity.
Qed.

End KeyMore.

(** ** drmdecrypt.c: file names *)

Lemma string_append_cons (x : ascii) (a b : string) :
  String.append (String x a) b = String x (String.append a b).
Proof. reflexivity. Qed.

Lemma string_append_nil_l (a : string) : String.append EmptyString a = a.
Proof. reflexivity. Qed.

Lemma string_append_assoc (a b c : string) :
  String.append (String.append a b) c = String.append a (String.append b c).
Proof.
  induction a as [|x a IH]; [reflexivity|].
  now rewrite !string_append_cons, IH.
Qed.

Lemma string_append_nil_r (a : string) : String.append a EmptyString = a.
Proof.
  induction a as [|x a IH]; [reflexivity|].
  now rewrite string_append_cons, IH.
Qed.

Lemma last_dot_or_slash_none (s : string) :
  has_dot_or_slash s = false -> last_dot_or_slash s = None.
Proof.
  unfold has_dot_or_slash. induction s as [|c s IH]; cbn; [reflexivity|].
  intros E. apply orb_false_elim in E as [Ec Es]. now rewrite (IH Es), Ec.
Qed.

Lemma last_dot_or_slash_some (s : string) :
  has_dot_or_slash s = true -> exists k, last_dot_or_slash s = Some k.
Proof.
  unfold has_dot_or_slash. induction s as [|c s IH]; cbn; [discriminate|].
  intros E. destruct (last_dot_or_slash s) as [k|]; [now exists (S k)|].
  destruct (is_dot_or_slash c); [now exists O|].
  cbn in E. destruct (IH E) as [k Hk]. discriminate Hk.
Qed.

Lemma last_dot_or_slash_at (pre : string) (c : ascii) (rest : string) :
  is_dot_or_slash c = true -> has_dot_or_slash rest = false ->
  last_dot_or_slash (String.append pre (String c rest)) = Some (String.length pre).
Proof.
  intros Hc Hrest. induction pre as [|x pre IH].
  - rewrite string_append_nil_l. cbn [last_dot_or_slash String.length].
    now rewrite (last_dot_or_slash_none rest Hrest), Hc.
  - rewrite string_append_cons. cbn [last_dot_or_slash String.length].
    now rewrite IH.
Qed.

Lemma substring_prefix (pre s : string) :
  substring 0 (String.length pre) (String.append pre s) = pre.
Proof.
  induction pre as [|x pre IH].
  - now destruct s.
  - rewrite string_append_cons. cbn [substring String.length]. now rewrite IH.
Qed.

Lemma substring_prefix_next (pre : string) (c : ascii) (rest : string) :
  substring 0 (S (String.length pre)) (String.append pre (String c rest)) =
  String.append pre (String c EmptyString).
Proof.
  induction pre as [|x pre IH].
  - rewrite !string_append_nil_l. cbn [substring String.length]. now destruct rest.
  - rewrite !string_append_cons. cbn [substring String.length]. now rewrite IH.
Qed.

Lemma filename_at (pre : string) (c : ascii) (rest : string) (suffix : string) :
  is_dot_or_slash c = true -> has_dot_or_slash rest = false ->
  filename (String.append pre (String c rest)) (Some suffix) =
    Ok (String.append pre (String c suffix)) /\
  filename (String.append pre (String c rest)) None = Ok pre.
Proof.
  intros Hc Hrest. unfold filename.
  rewrite (last_dot_or_slash_at pre c rest Hc Hrest).
  rewrite substring_prefix_next, substring_prefix, string_append_assoc.
  rewrite string_append_cons, string_append_nil_l.
  split; reflexivity.
Qed.

(** X12.  [filename] cuts a path at its last ['.'] or ['/'], whichever
    comes last, and puts the new suffix behind it, or, without a suffix,
    drops the character as well.  What stands before is kept.  The
    character may be a ['/']: a name without a dot loses its last
    component. *)
Theorem filename_replaces_suffix (pre : string) (c : ascii) (rest : string)
    (suffix : string) :
  is_dot_or_slash c = true -> has_dot_or_slash rest = false ->
  filename (String.append pre (String c rest)) (Some suffix) =
    Ok (String.append pre (String c suffix)) /\
  filename (String.append pre (String c rest)) None = Ok pre.
Proof. apply filename_at. Qed.

(** X13.  [filename] walks off the front of a path exactly when the path
    holds neither ['.'] nor ['/']. *)
Theorem filename_needs_separator (path : string) (newsuffix : option string) :
  filename path newsuffix = Fault OutOfBounds <-> has_dot_or_slash path = false.
Proof.
  unfold filename. split.
  - intros E. destruct (has_dot_or_slash path) eqn:Hs; [|reflexivity].
    destruct (last_dot_or_slash_some path Hs) as [k Hk].
    rewrite Hk in E. discriminate E.
  - intros Hs. now rewrite (last_dot_or_slash_none path Hs).
Qed.

(** *** The name of the destination *)

Lemma for_iter_app {St} (body : Z -> St -> res St) (step : Z) (m : nat) :
  forall (n : nat) (i : Z) (s : St),
    for_iter (n + m) i step body s =
    (s' ← for_iter n i step body s;
     for_iter m (i + Z.of_nat n * step) step body s').
Proof.
  induction n as [|n IH]; intros i s.
  - cbn [Nat.add for_iter mbind res_bind]. now rewrite Z.add_0_r.
  - cbn [Nat.add for_iter]. destruct (body i s) as [s'|e]; [|reflexivity].
    cbn [mbind res_bind]. rewrite IH.
    now replace (i + step + Z.of_nat n * step) with (i + Z.of_nat (S n) * step) by lia.
Qed.

Lemma for_iter_one {St} (body : Z -> St -> res St) (step i : Z) (s : St) :
  for_iter 1 i step body s = body i s.
Proof. cbn [for_iter]. now destruct (body i s). Qed.

Lemma inf_name_char_plain (i : Z) (c : byte) (t : string) :
  i <> 0xFF -> inf_name_char i c t = String.append t (name_chars c).
Proof.
  intros Hi. unfold inf_name_char, name_chars.
  destruct (Z.eqb_spec i 255) as [E|_]; [contradiction|].
  destruct (byte_val c =? 0); [now rewrite string_append_nil_r|].
  now destruct ((65 <=? byte_val c) && (byte_val c <=? 122)
                || (48 <=? byte_val c) && (byte_val c <=? 57)).
Qed.

Lemma inf_name_char_marker (c : byte) (t : string) :
  inf_name_char 0xFF c t =
  String.append (String.append t (name_chars c)) "_-_".
Proof.
  unfold inf_name_char, name_chars. change (255 =? 255) with true. cbv iota.
  destruct (byte_val c =? 0); [now rewrite string_append_nil_r|].
  now destruct ((65 <=? byte_val c) && (byte_val c <=? 122)
                || (48 <=? byte_val c) && (byte_val c <=? 57)).
Qed.

Lemma title_of_app (l l' : list byte) :
  title_of (l ++ l') = String.append (title_of l) (title_of l').
Proof.
  induction l as [|c l IH]; [reflexivity|].
  cbn [app title_of]. now rewrite IH, string_append_assoc.
Qed.

Lemma odd_bytes_take_snoc (n : nat) :
  forall (l : list byte) (c : byte),
    l !! S (2 * n) = Some c ->
    odd_bytes (take (2 * S n) l) = odd_bytes (take (2 * n) l) ++ [c].
Proof.
  induction n as [|n IH]; intros l c Hc.
  - destruct l as [|a [|b l]]; try discriminate Hc.
    cbn in Hc. injection Hc as ->. reflexivity.
  - destruct l as [|a [|b l]]; try discriminate Hc.
    replace (2 * S (S n))%nat with (S (S (2 * S n))) by lia.
    replace (2 * S n)%nat with (S (S (2 * n))) at 2 by lia.
    cbn [take odd_bytes app]. f_equal. apply IH.
    replace (S (2 * S n)) with (S (S (S (2 * n)))) in Hc by lia. exact Hc.
Qed.

(** The copying loop over a stretch of the file without the position
    0xFF: the characters of the odd bytes, in order. *)
Lemma names_loop (inf : list byte) (n : nat) :
  forall (p : nat) (t : string),
    (p + 2 * n <= length inf)%nat ->
    (forall k, (k < n)%nat -> Z.of_nat (S p) + 2 * Z.of_nat k <> 0xFF) ->
    for_iter n (Z.of_nat (S p)) 2
      (fun i t => c ← load inf i; Ok (inf_name_char i c t)) t =
    Ok (String.append t (title_of (odd_bytes (take (2 * n) (drop p inf))))).
Proof.
  induction n as [|n IH]; intros p t Hlen Hno.
  - cbn [for_iter Nat.mul take odd_bytes title_of].
    now rewrite string_append_nil_r.
  - destruct (lookup_lt_is_Some_2 inf p) as [a Ha]; [lia|].
    destruct (lookup_lt_is_Some_2 inf (S p)) as [c Hc]; [lia|].
    cbn [for_iter]. rewrite (load_lookup inf (S p) c Hc). cbn [mbind res_bind].
    rewrite inf_name_char_plain by (specialize (Hno O); lia).
    replace (Z.of_nat (S p) + 2) with (Z.of_nat (S (S (S p)))) by lia.
    rewrite IH.
    + rewrite (drop_S inf a p Ha), (drop_S inf c (S p) Hc).
      replace (2 * S n)%nat with (S (S (2 * n))) by lia.
      cbn [take odd_bytes title_of]. now rewrite string_append_assoc.
    + lia.
    + intros k Hk. specialize (Hno (S k)). lia.
Qed.

Lemma has_dot_or_slash_append (a b : string) :
  has_dot_or_slash (String.append a b) = has_dot_or_slash a || has_dot_or_slash b.
Proof.
  unfold has_dot_or_slash. induction a as [|x a IH]; [reflexivity|].
  rewrite string_append_cons. cbn [list_ascii_of_string existsb].
  now rewrite IH, orb_assoc.
Qed.

Lemma title_of_clean (l : list byte) : has_dot_or_slash (title_of l) = false.
Proof.
  induction l as [|c l IH]; [reflexivity|].
  cbn [title_of]. rewrite has_dot_or_slash_append, IH, orb_false_r.
  destruct c; reflexivity.
Qed.

(** X14.  With an .inf file of at least 512 bytes, [genoutfilename]
    returns 0 and appends to the output directory: the base name of the
    .inf file without its suffix, a hyphen, the channel name (the odd bytes
    of the first 256 bytes), the mark [_-_], the programme title (the odd
    bytes of the next 256), and [.ts].  Of both names zero bytes are
    dropped and every byte outside ['A'..'z'] and ['0'..'9'] becomes an
    underscore, so neither holds a ['/'] or a ['.']. *)
Theorem genoutfilename_builds_name (w : world) (outfile inffile stem : string)
    (bytes : list byte) :
  files w !! canon w inffile = Some bytes ->
  (512 <= length bytes)%nat ->
  filename (basename inffile) None = Ok stem ->
  let inf := take 512 bytes in
  let channel := title_of (odd_bytes (take 256 inf)) in
  let title := title_of (odd_bytes (drop 256 inf)) in
  genoutfilename w outfile inffile =
    Ok (0, String.append outfile
             (String.append stem
                (String.append "-"
                   (String.append channel
                      (String.append "_-_" (String.append title ".ts")))))) /\
  has_dot_or_slash channel = false /\ has_dot_or_slash title = false.
Proof.
  intros Hf Hlen Hstem inf channel title.
  split; [|split; apply title_of_clean].
  assert (Hinf : length inf = 512%nat) by (unfold inf; rewrite length_take; lia).
  destruct (lookup_lt_is_Some_2 inf 255) as [c Hc]; [lia|].
  unfold genoutfilename, fopen_rb. rewrite Hf. cbn [mbind option_bind content].
  destruct (Z.ltb_spec (Z.of_nat (length bytes)) 512); [lia|].
  rewrite Hstem. cbn [mbind res_bind]. fold inf.
  unfold for_loop.
  change (Z.to_nat ((512 - 1 + 2 - 1) / 2)) with (127 + (1 + 128))%nat.
  rewrite for_iter_app.
  rewrite (names_loop inf 127 0) by lia. cbn [mbind res_bind].
  rewrite for_iter_app, for_iter_one.
  change (1 + Z.of_nat 127 * 2) with (Z.of_nat 255).
  rewrite (load_lookup inf 255 c Hc). cbn [mbind res_bind].
  change (Z.of_nat 255) with 255. rewrite inf_name_char_marker.
  change (255 + Z.of_nat 1 * 2) with (Z.of_nat (S 256)).
  rewrite (names_loop inf 128 256) by lia. cbn [mbind res_bind].
  assert (Ech : channel =
                String.append (title_of (odd_bytes (take (2 * 127) (drop 0 inf))))
                              (name_chars c)).
  { unfold channel. rewrite drop_0.
    rewrite (odd_bytes_take_snoc 127 inf c Hc : odd_bytes (take 256 inf) = _).
    rewrite title_of_app. cbn [title_of]. now rewrite string_append_nil_r. }
  assert (Eti : title = title_of (odd_bytes (take (2 * 128) (drop 256 inf)))).
  { unfold title. now rewrite take_ge by (rewrite length_drop; lia). }
  rewrite Ech, Eti. now rewrite !string_append_assoc.
Qed.

(** ** drmdecrypt.c: further properties of the driver *)

Section DriverMore.
Context `{PortableAES} `{Allocator} `{BufferIO}.




End DriverMore.

(** ** drmdecrypt.c: further properties of the synchroniser and the loops *)

Section SyncMore.
Context `{PortableAES} `{BufferIO}.

(** Whenever the test of an offset returns, it returns whether three
    markers stand at the packet stride. *)
Lemma sync_at_sound (pb : packetbuffer) (i : Z) (hit : bool) :
  sync_at pb i = Ok hit -> triple_sync pb i = hit.
Proof.
  unfold sync_at, triple_sync, marker.
  replace (workp pb + (i + PACKETSIZE)) with (workp pb + i + PACKETSIZE) by lia.
  replace (workp pb + (i + PACKETSIZE + PACKETSIZE))
    with (workp pb + i + PACKETSIZE + PACKETSIZE) by lia.
  destruct (load (buf pb) (workp pb + i)) as [a|]; [|discriminate].
  cbn [mbind res_bind].
  destruct (byte_val a =? 71); cbn [negb andb]; [|now intros [= <-]].
  destruct (load (buf pb) (workp pb + i + PACKETSIZE)) as [b|]; [|discriminate].
  cbn [mbind res_bind].
  destruct (byte_val b =? 71); cbn [negb andb]; [|now intros [= <-]].
  destruct (load (buf pb) (workp pb + i + PACKETSIZE + PACKETSIZE)) as [c|];
    [|discriminate].
  cbn [mbind res_bind]. now intros [= <-].
Qed.

Lemma sync_scan_sound (pb : packetbuffer) (n : nat) :
  forall (i r : Z) (pb' : packetbuffer),
    sync_scan n i pb = Ok (r, pb') ->
    (r = 0 /\ pb' = pb /\
     forall k, i <= k < i + Z.of_nat n -> triple_sync pb k = false) \/
    (r = 1 /\ exists m, i <= m < i + Z.of_nat n /\ triple_sync pb m = true /\
                        (forall k, i <= k < m -> triple_sync pb k = false) /\
                        pb' = set_workp pb (workp pb + m)).
Proof.
  induction n as [|n IH]; intros i r pb' E; cbn [sync_scan] in E.
  - injection E as <- <-. left. split; [reflexivity|]. split; [reflexivity|].
    intros k Hk. lia.
  - destruct (sync_at pb i) as [hit|] eqn:Ehit; [|discriminate E].
    apply sync_at_sound in Ehit. cbn [mbind res_bind] in E.
    destruct hit.
    + injection E as <- <-. right. split; [reflexivity|].
      exists i. split; [lia|]. split; [exact Ehit|].
      split; [intros k Hk; lia | reflexivity].
    + destruct (IH _ _ _ E) as [(-> & -> & Hnone) | (-> & m & Hm & Hhit & Hbefore & ->)].
      * left. split; [reflexivity|]. split; [reflexivity|]. intros k Hk.
        destruct (Z.eq_dec k i) as [->|Hne]; [exact Ehit | apply Hnone; lia].
      * right. split; [reflexivity|]. exists m. split; [lia|].
        split; [exact Hhit|]. split; [|reflexivity].
        intros k Hk.
        destruct (Z.eq_dec k i) as [->|Hne]; [exact Ehit | apply Hbefore; lia].
Qed.

Lemma sync_retry_sound (retries : nat) :
  forall (reads : nat) (pb : packetbuffer) (r : Z) (pb' : packetbuffer) (total : nat),
    sync_retry retries reads pb = Ok (r, pb', total) ->
    exists k : nat,
      total = (reads + k)%nat /\ (k <= retries)%nat /\
      (forall k', (1 <= k' < k)%nat -> no_sync_in (after_reads k' pb)) /\
      ((r = 1 /\ (1 <= k)%nat /\
        exists m, first_sync_at (after_reads k pb) m /\
                  pb' = set_workp (after_reads k pb)
                                  (workp (after_reads k pb) + m)) \/
       (r = 0 /\ k = retries /\ pb' = after_reads k pb /\
        ((1 <= k)%nat -> no_sync_in (after_reads k pb)))).
Proof.
  induction retries as [|n IH]; intros reads pb r pb' total E;
    cbn [sync_retry] in E.
  - injection E as <- <- <-. exists O. split; [lia|]. split; [lia|]. split.
    + intros k' Hk'. lia.
    + right. split; [reflexivity|]. split; [reflexivity|].
      split; [reflexivity|]. intros Hk. lia.
  - destruct (sync_scan _ 0 (pbread pb)) as [[f pb1]|] eqn:Escan; [|discriminate E].
    cbn [mbind res_bind] in E.
    pose proof scan_width_nonneg as Hsw. unfold scan_width in Hsw.
    apply sync_scan_sound in Escan.
    rewrite Z2Nat.id, Z.add_0_l in Escan by exact Hsw.
    destruct Escan as [(-> & -> & Hnone) | (-> & m & Hm & Hhit & Hbefore & ->)].
    + change (negb (0 =? 0)) with false in E. cbv iota in E.
      destruct (IH _ _ _ _ _ E) as (k & -> & Hk & Hearlier & Hend).
      exists (S k). split; [lia|]. split; [lia|]. split.
      * intros k' Hk'. destruct k' as [|k']; [lia|].
        rewrite after_reads_succ.
        destruct k' as [|k']; [exact Hnone | apply Hearlier; lia].
      * rewrite after_reads_succ.
        destruct Hend as [(-> & Hk1 & m & Hfirst & ->) | (-> & -> & -> & Hno)].
        -- left. split; [reflexivity|]. split; [lia|]. now exists m.
        -- right. split; [reflexivity|]. split; [reflexivity|].
           split; [reflexivity|]. intros _.
           destruct n as [|n]; [exact Hnone | apply Hno; lia].
    + change (negb (1 =? 0)) with true in E. cbv iota in E.
      injection E as <- <- <-. exists 1%nat. split; [lia|]. split; [lia|]. split.
      * intros k' Hk'. lia.
      * left. split; [reflexivity|]. split; [lia|]. exists m.
        change (after_reads 1 pb) with (pbread pb).
        split; [|reflexivity]. split; [unfold scan_width; lia|]. split; [exact Hhit|].
        exact Hbefore.
Qed.

(** X16.  Whatever the buffer layer does, when the search returns it has
    either locked or given up, and tells which: with sync reported, it has
    read [k] times, between one and ten, the window after the [k]-th read
    holds three markers at the packet stride at offset [m] and at no
    smaller offset, and the buffer is the one the [k]-th read left with
    the cursor [workp] moved on by [m] and nothing else changed; with no
    sync reported it has read ten times, the last window holds no three
    markers, and the buffer is as the tenth read left it.  In both cases
    no earlier window held three markers at any offset. *)
Theorem try_to_sync_sound (pb : packetbuffer) (r : Z) (pb' : packetbuffer)
    (k : nat) :
  try_to_sync pb = Ok (r, pb', k) ->
  (forall k', (1 <= k' < k)%nat -> no_sync_in (after_reads k' pb)) /\
  ((r = 1 /\ (1 <= k <= 10)%nat /\
    exists m, first_sync_at (after_reads k pb) m /\
              pb' = {| fdread := fdread (after_reads k pb);
                       fdwrite := fdwrite (after_reads k pb);
                       buf := buf (after_reads k pb);
                       workp := workp (after_reads k pb) + m;
                       endp := endp (after_reads k pb);
                       end_ := end_ (after_reads k pb) |}) \/
   (r = 0 /\ k = 10%nat /\ pb' = after_reads 10 pb /\
    no_sync_in (after_reads 10 pb))).
Proof.
  unfold try_to_sync. intros E.
  destruct (sync_retry_sound _ _ _ _ _ _ E) as (j & -> & Hj & Hearlier & Hend).
  cbn [Nat.add]. split; [exact Hearlier|].
  destruct Hend as [(-> & Hj1 & m & Hfirst & ->) | (-> & -> & -> & Hno)].
  - left. split; [reflexivity|]. split; [lia|]. exists m.
    split; [exact Hfirst | reflexivity].
  - right. split; [reflexivity|]. split; [reflexivity|].
    split; [reflexivity|]. apply Hno. lia.
Qed.

(** X17.  A source in which the search finds no sync is not decoded at
    all: from the label [resync] the run makes the ten reads of the search
    and ends, without decoding or writing a packet. *)
Theorem run_without_sync (fuel : nat) (g : globals) (pb : packetbuffer) :
  (forall k, (1 <= k <= 10)%nat ->
     window_readable (after_reads k pb) /\ no_sync_in (after_reads k pb)) ->
  run (S fuel) g L_resync pb = Ok (after_reads 10 pb).
Proof.
  intros Hall. cbn [run step]. unfold try_to_sync.
  rewrite (sync_retry_none 10 0 pb Hall). cbn [mbind res_bind].
  change (negb (0 =? 0)) with false. cbv iota. now destruct fuel.
Qed.

End SyncMore.

Section LoopMore.
Context `{PortableAES} `{BufferIO}.



End LoopMore.

Section CodecHeader.
Context `{PortableAES}.

Lemma clear_scrambling_low_bits (b : byte) :
  Z.land (byte_val (clear_scrambling b)) 0x3f = Z.land (byte_val b) 0x3f.
Proof. destruct b; reflexivity. Qed.

(** X20.  [decode_packet] leaves the header alone: whatever it returns,
    every byte before the payload other than byte 3 is as it was (sync
    byte, packet identifier, adaptation field), and byte 3 keeps its low
    six bits (adaptation and payload flags, continuity counter). *)
Theorem decode_keeps_header (g : globals) (D : list byte -> list byte)
    (data out : list byte) (r offset : Z) :
  backend_decrypts g D ->
  Z.of_nat (length data) = PACKETSIZE ->
  payload_offset data = Ok offset ->
  decode_packet g data = Ok (r, out) ->
  (forall i : nat, Z.of_nat i < offset -> i <> 3%nat -> out !! i = data !! i) /\
  (forall d3 o3, data !! 3%nat = Some d3 -> out !! 3%nat = Some o3 ->
     Z.land (byte_val o3) 0x3f = Z.land (byte_val d3) 0x3f).
Proof.
  intros HB Hlen Hoff E.
  destruct (decode_packet_cases g D data HB Hlen) as [E1|[offset' [Hpos [Hoff' E0]]]].
  - rewrite E1 in E. injection E as <- <-. split; [reflexivity|].
    intros d3 o3 H3 H3'. rewrite H3 in H3'. now injection H3' as <-.
  - rewrite E0 in E. injection E as <- <-.
    rewrite Hoff in Hoff'. injection Hoff' as <-.
    assert (Hld : length (decoded D data offset) = length data)
      by (apply length_decoded; [apply HB | assumption | lia]).
    split.
    + intros i Hi Hne. destruct (decide (i < length data)%nat) as [Hlt|Hge].
      * unfold decoded.
        rewrite lookup_app_l by (rewrite length_take, length_alter; lia).
        rewrite lookup_take_lt by lia. now apply list_lookup_alter_ne.
      * rewrite !lookup_ge_None_2 by lia. reflexivity.
    + intros d3 o3 H3 H3'.
      rewrite lookup_decoded_header in H3' by (assumption || lia).
      rewrite list_lookup_alter_eq, H3 in H3'. cbn in H3'. injection H3' as <-.
      apply clear_scrambling_low_bits.
Qed.

End CodecHeader.




Section MainMore.
Context `{PortableAES} `{Allocator} `{BufferIO} `{PathLib}.




End MainMore.

(** ** The further properties at concrete inputs *)

(** The test block, taken as a ciphertext. *)
Lemma decrypt_encrypt_roundtrip_witness :
  exists p,
    block_decrypt_aesni kat_state kat_plain 0 out16 0 = Ok p /\
    block_encrypt_aesni kat_state p 0 out16 0 = Ok kat_plain.
Proof.
  apply (decrypt_encrypt_roundtrip kat_state kat_plain out16 out16).
  - exact kat_state_initialised.
  - reflexivity.
  - reflexivity.
  - reflexivity.
Defined.

(** The keys of FIPS-197, appendix A; eight bytes behind the 24-byte key. *)
Lemma key_schedule_128_is_fips197_witness :
  aes_key_setup_enc (replicate 11 zero128) fips_key128 16 =
  Ok (round_keys (KeyExpansion 4 10 (words_of (take 16 fips_key128)))).
Proof.
  apply (key_schedule_128_is_fips197 (replicate 11 zero128) fips_key128).
  - reflexivity.
  - cbn. lia.
Defined.

Lemma key_schedule_192_is_fips197_witness :
  aes_key_setup_enc (replicate 13 zero128) (fips_key192 ++ replicate 8 xff) 24 =
  Ok (round_keys (KeyExpansion 6 12
        (words_of (take 24 (fips_key192 ++ replicate 8 xff))))).
Proof.
  apply (key_schedule_192_is_fips197 (replicate 13 zero128)
           (fips_key192 ++ replicate 8 xff)).
  - reflexivity.
  - cbn. lia.
Defined.

Lemma key_schedule_256_is_fips197_witness :
  aes_key_setup_enc (replicate 15 zero128) fips_key256 32 =
  Ok (round_keys (KeyExpansion 8 14 (words_of (take 32 fips_key256)))).
Proof.
  apply (key_schedule_256_is_fips197 (replicate 15 zero128) fips_key256).
  - reflexivity.
  - cbn. lia.
Defined.

Lemma finalize_wipes_round_keys_witness :
  block_finalize_aesni kat_state =
  Ok (replicate (Z.to_nat (rounds kat_state + 1)) zero128,
      replicate (Z.to_nat (rounds kat_state + 1)) zero128).
Proof.
  apply (finalize_wipes_round_keys kat_state). exact kat_state_initialised.
Defined.

(** A length of 100 is refused; 176 bytes from offset 4 are eleven
    blocks. *)
Lemma decrypt_aes128cbc_blockwise_witness :
  @decrypt_aes128cbc no_portable_aes kat_globals pkt_odd 4 100 pkt_odd 4 =
    Ok (1, pkt_odd) /\
  @decrypt_aes128cbc no_portable_aes kat_globals pkt_odd 4 176 pkt_odd 4 =
    Ok (0, take (Z.to_nat 4) pkt_odd ++
           ecb kat_D 11 (drop (Z.to_nat 4) pkt_odd) ++
           drop (Z.to_nat 4 + 16 * 11) pkt_odd).
Proof.
  split.
  - apply (proj1 (@decrypt_aes128cbc_blockwise no_portable_aes kat_globals kat_D
                    pkt_odd pkt_odd 4 4 100 kat_backend)).
    discriminate.
  - apply (proj2 (@decrypt_aes128cbc_blockwise no_portable_aes kat_globals kat_D
                    pkt_odd pkt_odd 4 4 176 kat_backend) 11%nat).
    + reflexivity.
    + lia.
    + cbn. lia.
    + lia.
    + cbn. lia.
Defined.

Lemma decode_packet_idempotent_witness :
  @decode_packet no_portable_aes kat_globals (decoded kat_D pkt_odd 4) =
  Ok (1, decoded kat_D pkt_odd 4).
Proof.
  apply (@decode_packet_idempotent no_portable_aes kat_globals kat_D pkt_odd 0
           (decoded kat_D pkt_odd 4)).
  - exact kat_backend.
  - reflexivity.
  - vm_compute. reflexivity.
Defined.

Lemma decode_restores_payload_witness :
  @decode_packet no_portable_aes kat_globals pkt_encrypted =
  Ok (0, alter clear_scrambling 3%nat (take (Z.to_nat 4) pkt_encrypted) ++
         replicate 176 x55 ++ replicate 8 xaa).
Proof.
  apply (@decode_restores_payload no_portable_aes kat_globals
           (default [] (ek kat_state)) pkt_encrypted (replicate 176 x55)
           (replicate 8 xaa) xc0 4).
  - discriminate.
  - exact kat_state_initialised.
  - vm_compute. reflexivity.
  - reflexivity.
  - reflexivity.
  - reflexivity.
  - left. reflexivity.
  - reflexivity.
  - lia.
  - reflexivity.
  - reflexivity.
Defined.

(** A container of eleven bytes. *)
Lemma readdrmkey_without_key_witness :
  @readdrmkey no_portable_aes zeroing_allocator short_key_world start_globals
              "rec.mdb" =
  Ok (1, {| state := blank_state; enable_aesni := enable_aesni start_globals |}).
Proof.
  apply (@readdrmkey_without_key no_portable_aes zeroing_allocator short_key_world
           start_globals "rec.mdb").
  right. exists (replicate 8 xee ++ [x00; x01; x02]). split.
  - reflexivity.
  - cbn. lia.
Defined.

Lemma readdrmkey_installs_schedule_witness :
  let key := reverse_groups (take 16 (drop 8 (replicate 8 xee ++ bytes_0_15))) in
  exists st,
    @readdrmkey no_portable_aes zeroing_allocator world_with_key start_globals
                "rec.mdb" =
      Ok (0, {| state := st; enable_aesni := enable_aesni start_globals |}) /\
    initialised st /\ rounds st = 10 /\
    ek st = Some (round_keys (KeyExpansion 4 10 (words_of key))).
Proof.
  apply (@readdrmkey_installs_schedule no_portable_aes zeroing_allocator
           world_with_key start_globals "rec.mdb" (replicate 8 xee ++ bytes_0_15)).
  - reflexivity.
  - cbn. lia.
  - discriminate.
  - eexists. split; reflexivity.
Defined.

Lemma readdrmkey_allocation_failure_witness :
  let g' := {| state := blank_state; enable_aesni := enable_aesni start_globals |} in
  @readdrmkey no_portable_aes failing_allocator world_with_key start_globals
              "rec.mdb" = Ok (0, g') /\
  forall (pin : list byte) (i : Z) (pout : list byte) (j : Z),
    0 <= i -> i + 16 <= Z.of_nat (length pin) ->
    @block_decrypt no_portable_aes g' pin i pout j = Fault NullPointer.
Proof.
  apply (@readdrmkey_allocation_failure no_portable_aes failing_allocator
           world_with_key start_globals "rec.mdb" (replicate 8 xee ++ bytes_0_15)).
  - reflexivity.
  - cbn. lia.
  - discriminate.
  - reflexivity.
Defined.

Lemma filename_replaces_suffix_witness :
  filename "dir/rec.srf" (Some "mdb"%string) = Ok "dir/rec.mdb"%string /\
  filename "dir/rec.srf" None = Ok "dir/rec"%string.
Proof.
  apply (filename_replaces_suffix "dir/rec" "." "srf" "mdb"); reflexivity.
Defined.

Lemma filename_needs_separator_witness :
  filename "recsrf" (Some "mdb"%string) = Fault OutOfBounds.
Proof.
  apply (proj2 (filename_needs_separator "recsrf" (Some "mdb"%string))).
  reflexivity.
Defined.

(** Channel "A1" and title "b/c": the slash becomes an underscore. *)
Lemma genoutfilename_builds_name_witness :
  let inf := take 512 inf_bytes in
  let channel := title_of (odd_bytes (take 256 inf)) in
  let title := title_of (odd_bytes (drop 256 inf)) in
  genoutfilename world_with_inf "out/" "dir/rec.inf" =
    Ok (0, String.append "out/"
             (String.append "rec"
                (String.append "-"
                   (String.append channel
                      (String.append "_-_" (String.append title ".ts")))))) /\
  has_dot_or_slash channel = false /\ has_dot_or_slash title = false.
Proof.
  apply (genoutfilename_builds_name world_with_inf "out/" "dir/rec.inf" "rec"
           inf_bytes).
  - reflexivity.
  - cbn. lia.
  - reflexivity.
Defined.

Example genoutfilename_example :
  genoutfilename world_with_inf "out/" "dir/rec.inf" =
  Ok (0, "out/rec-A1_-_b_c.ts"%string).
Proof. vm_compute. reflexivity. Qed.


(** When the source is the destination under another name ([rec.ts] and
    [./rec.ts]), it has been created empty by the time it is opened for
    reading: the source is found, and [decryptsrf] returns 0. *)
Example source_is_destination :
  exists w' g',
    @decryptsrf no_portable_aes zeroing_allocator simple_io 100 world_aliased
                start_globals "rec.ts" "./" = Ok (0, w', g') /\
    files w' !! "rec.ts"%string = Some [].
Proof. do 2 eexists. split; vm_compute; reflexivity. Qed.

(** Fifty bytes of garbage before three packets. *)
Lemma try_to_sync_sound_witness :
  let pb := source_pb garbage_then_packets in
  let P := @after_reads simple_io 1 pb in
  let locked := {| fdread := fdread P; fdwrite := fdwrite P; buf := buf P;
                   workp := workp P + 50; endp := endp P; end_ := end_ P |} in
  (forall k', (1 <= k' < 1)%nat -> @no_sync_in simple_io (@after_reads simple_io k' pb)) /\
  ((1 = 1 /\ (1 <= 1 <= 10)%nat /\
    exists m, @first_sync_at simple_io P m /\
              locked = {| fdread := fdread P; fdwrite := fdwrite P; buf := buf P;
                          workp := workp P + m; endp := endp P; end_ := end_ P |}) \/
   (1 = 0 /\ 1%nat = 10%nat /\
    locked = @after_reads simple_io 10 pb /\
    @no_sync_in simple_io (@after_reads simple_io 10 pb))).
Proof.
  apply (@try_to_sync_sound simple_io (source_pb garbage_then_packets) 1
           {| fdread := fdread (@after_reads simple_io 1 (source_pb garbage_then_packets));
              fdwrite := fdwrite (@after_reads simple_io 1 (source_pb garbage_then_packets));
              buf := buf (@after_reads simple_io 1 (source_pb garbage_then_packets));
              workp := workp (@after_reads simple_io 1 (source_pb garbage_then_packets)) + 50;
              endp := endp (@after_reads simple_io 1 (source_pb garbage_then_packets));
              end_ := end_ (@after_reads simple_io 1 (source_pb garbage_then_packets)) |}
           1%nat).
  vm_compute. reflexivity.
Defined.

(** A source without any marker. *)
Lemma run_without_sync_witness :
  @run no_portable_aes simple_io 1 kat_globals L_resync (source_pb no_markers) =
  Ok (@after_reads simple_io 10 (source_pb no_markers)).
Proof.
  apply (@run_without_sync no_portable_aes simple_io 0 kat_globals
           (source_pb no_markers)).
  intros k Hk. split.
  - one_of_ten k Hk; vm_compute; split; intros E; discriminate E.
  - apply (@no_sync_by_scan simple_io).
    one_of_ten k Hk; vm_compute; reflexivity.
Defined.



(** Without the option [o], the recording [a.d/rec.srf] reaches
    [decryptsrf] as [a.d], what [dirname] has left of it. *)
Example main_without_outdir :
  @main no_portable_aes zeroing_allocator simple_io cutting_dirname 100
        world_without_a start_globals cpu_with_aes [] ["a.d/rec.srf"%string] =
  Ok (0, world_without_a, [("a.d"%string, 1)]).
Proof. vm_compute. reflexivity. Qed.

(** No recording: the process ends with [EXIT_FAILURE]. *)
Example main_without_recording :
  @main no_portable_aes zeroing_allocator simple_io cutting_dirname 100
        world_without_a start_globals cpu_with_aes [("o"%char, "out/"%string)] [] =
  Ok (1, world_without_a, []).
Proof. reflexivity. Qed.

(** A packet with an adaptation field of ten bytes. *)
Lemma decode_keeps_header_witness :
  (forall i : nat, Z.of_nat i < 15 -> i <> 3%nat ->
     decoded kat_D pkt_even_af 15 !! i = pkt_even_af !! i) /\
  (forall d3 o3, pkt_even_af !! 3%nat = Some d3 ->
     decoded kat_D pkt_even_af 15 !! 3%nat = Some o3 ->
     Z.land (byte_val o3) 0x3f = Z.land (byte_val d3) 0x3f).
Proof.
  apply (@decode_keeps_header no_portable_aes kat_globals kat_D pkt_even_af
           (decoded kat_D pkt_even_af 15) 0 15).
  - exact kat_backend.
  - reflexivity.
  - reflexivity.
  - vm_compute. reflexivity.
Defined.

